(** * Moog doodle synthesizer: envelope generator, oscillator, low pass filter

    A shallow embedding of [envelope_generator.js], [oscillator.js] and
    [low_pass_filter.js].

    Number model.  The modules [EnvelopeGenerator], [Oscillator] and
    [LowPassFilter] read a JavaScript number as a real number: [+], [-], [*],
    [/], [Math.abs] and [Math.pow] are the exact operations of [R], and the
    comparisons are decided by [Rle_dec], [Rge_dec], [Rlt_dec], [Rgt_dec].
    They carry the statements in which rounding plays no part: invariants,
    frames, equalities of states, and runs whose values are binary fractions.

    Where the rounding of IEEE doubles decides a statement (how long a ramp
    of the envelope or a glide lasts, and whether it ends), the module
    [Numeric] has the same functions over an arithmetic [A]: [binary64], the
    numbers of the code, on which runs are computed, and [rounded rnd], the
    real numbers with every result rounded by [rnd], on which theorems are
    proved from what a rounding to the nearest number guarantees.

    A field that the source leaves [null] until its first use is an
    [option]; [null] coerces to [0] in arithmetic.  In [rounded rnd] no
    result overflows to an infinity or is NaN.  The rounding of
    [Float32Array] stores is not modelled. *)

From Stdlib Require Import Reals Zfloor Lra Lia List Floats.
From stdpp Require Import base list.
Import ListNotations.

#[local] Open Scope R_scope.

(** [null] used as a number. *)
Definition toNumber (x : option R) : R :=
  match x with Some v => v | None => 0 end.

(** ** envelope_generator.js *)

Module EnvelopeGenerator.

(** [doodle.moog.EnvelopeGenerator.Phase_] *)
Inductive Phase_ : Set := ATTACK | DECAY | SUSTAIN | RELEASE | INACTIVE.

Definition Phase__eq_dec (p q : Phase_) : {p = q} + {p <> q}.
Proof. decide equality. Defined.

(** The fields of an envelope generator object. *)
Record t : Type := Build {
  SAMPLE_INTERVAL_ : R;
  amplitudeCoefficient_ : R;
  phase_ : Phase_;
  attackTime_ : R;
  attackStep_ : R;
  decayTime_ : R;
  decayStep_ : R;
  sustainLevel_ : R;
  releaseStep_ : R
}.

Definition set_amplitudeCoefficient_ (v : R) (e : t) : t :=
  Build (SAMPLE_INTERVAL_ e) v (phase_ e) (attackTime_ e) (attackStep_ e)
        (decayTime_ e) (decayStep_ e) (sustainLevel_ e) (releaseStep_ e).
Definition set_phase_ (p : Phase_) (e : t) : t :=
  Build (SAMPLE_INTERVAL_ e) (amplitudeCoefficient_ e) p (attackTime_ e)
        (attackStep_ e) (decayTime_ e) (decayStep_ e) (sustainLevel_ e)
        (releaseStep_ e).
Definition set_attackTime_ (v : R) (e : t) : t :=
  Build (SAMPLE_INTERVAL_ e) (amplitudeCoefficient_ e) (phase_ e) v
        (attackStep_ e) (decayTime_ e) (decayStep_ e) (sustainLevel_ e)
        (releaseStep_ e).
Definition set_attackStep_ (v : R) (e : t) : t :=
  Build (SAMPLE_INTERVAL_ e) (amplitudeCoefficient_ e) (phase_ e)
        (attackTime_ e) v (decayTime_ e) (decayStep_ e) (sustainLevel_ e)
        (releaseStep_ e).
Definition set_decayTime_ (v : R) (e : t) : t :=
  Build (SAMPLE_INTERVAL_ e) (amplitudeCoefficient_ e) (phase_ e)
        (attackTime_ e) (attackStep_ e) v (decayStep_ e) (sustainLevel_ e)
        (releaseStep_ e).
Definition set_decayStep_ (v : R) (e : t) : t :=
  Build (SAMPLE_INTERVAL_ e) (amplitudeCoefficient_ e) (phase_ e)
        (attackTime_ e) (attackStep_ e) (decayTime_ e) v (sustainLevel_ e)
        (releaseStep_ e).
Definition set_sustainLevel_ (v : R) (e : t) : t :=
  Build (SAMPLE_INTERVAL_ e) (amplitudeCoefficient_ e) (phase_ e)
        (attackTime_ e) (attackStep_ e) (decayTime_ e) (decayStep_ e) v
        (releaseStep_ e).
Definition set_releaseStep_ (v : R) (e : t) : t :=
  Build (SAMPLE_INTERVAL_ e) (amplitudeCoefficient_ e) (phase_ e)
        (attackTime_ e) (attackStep_ e) (decayTime_ e) (decayStep_ e)
        (sustainLevel_ e) v.

(** [recomputePhaseSteps_], with the division operator as a parameter so
    that one can tell at which divisors it is consulted. *)
Definition recomputePhaseSteps_with (div : R -> R -> R) (e : t) : t :=
  let e :=
    if Rle_dec (attackTime_ e) 0
    then set_attackStep_ 1 e
    else set_attackStep_ (div (SAMPLE_INTERVAL_ e) (attackTime_ e)) e in
  if Rle_dec (decayTime_ e) 0
  then set_releaseStep_ 1 (set_decayStep_ 1 e)
  else
    let e :=
      set_decayStep_
        (div ((1 - sustainLevel_ e) * SAMPLE_INTERVAL_ e) (decayTime_ e)) e in
    set_releaseStep_
      (div (sustainLevel_ e * SAMPLE_INTERVAL_ e) (decayTime_ e)) e.

Definition recomputePhaseSteps_ : t -> t := recomputePhaseSteps_with Rdiv.

(** The constructor: the three step fields are assigned by the call of
    [recomputePhaseSteps_] that ends it. *)
Definition new (sampleInterval attackTime decayTime sustainLevel : R) : t :=
  recomputePhaseSteps_
    (Build sampleInterval 0 INACTIVE attackTime 0 decayTime 0 sustainLevel 0).

Definition startAttack (e : t) : t :=
  let e := recomputePhaseSteps_ e in
  let e := set_amplitudeCoefficient_ 0 e in
  set_phase_ ATTACK e.

Definition startRelease_with (div : R -> R -> R) (e : t) : t :=
  if Phase__eq_dec (phase_ e) RELEASE then e
  else
    let e :=
      if Rle_dec (decayTime_ e) 0
      then set_releaseStep_ 1 e
      else set_releaseStep_
             (div (amplitudeCoefficient_ e * SAMPLE_INTERVAL_ e)
                  (decayTime_ e)) e in
    set_phase_ RELEASE e.

Definition startRelease : t -> t := startRelease_with Rdiv.

(** The state after one call of [getNextAmplitudeCoefficient]. *)
Definition advance (e : t) : t :=
  match phase_ e with
  | ATTACK =>
      let e :=
        set_amplitudeCoefficient_ (amplitudeCoefficient_ e + attackStep_ e) e in
      if Rge_dec (amplitudeCoefficient_ e) 1
      then set_phase_ DECAY (set_amplitudeCoefficient_ 1 e)
      else e
  | DECAY =>
      let e :=
        set_amplitudeCoefficient_ (amplitudeCoefficient_ e - decayStep_ e) e in
      if Rle_dec (amplitudeCoefficient_ e) (sustainLevel_ e)
      then set_phase_ SUSTAIN (set_amplitudeCoefficient_ (sustainLevel_ e) e)
      else e
  | SUSTAIN => e
  | RELEASE =>
      let e :=
        set_amplitudeCoefficient_
          (amplitudeCoefficient_ e - releaseStep_ e) e in
      if Rle_dec (amplitudeCoefficient_ e) 0
      then set_phase_ INACTIVE (set_amplitudeCoefficient_ 0 e)
      else e
  | INACTIVE => e
  end.

(** [getNextAmplitudeCoefficient]: the returned coefficient and the new
    state. *)
Definition getNextAmplitudeCoefficient (e : t) : R * t :=
  let e' := advance e in (amplitudeCoefficient_ e', e').

Definition setAttackTime (time : R) (e : t) : t :=
  recomputePhaseSteps_ (set_attackTime_ time e).

Definition setDecayTime (time : R) (e : t) : t :=
  recomputePhaseSteps_ (set_decayTime_ time e).

Definition setSustainLevel (level : R) (e : t) : t :=
  recomputePhaseSteps_ (set_sustainLevel_ level e).

(** The state after [n] successive calls of [getNextAmplitudeCoefficient],
    and the coefficient returned by the [n]-th of them ([n >= 1]). *)
Fixpoint after (n : nat) (e : t) : t :=
  match n with
  | O => e
  | S k => snd (getNextAmplitudeCoefficient (after k e))
  end.

Definition coefficient (n : nat) (e : t) : R :=
  match n with
  | O => amplitudeCoefficient_ e
  | S k => fst (getNextAmplitudeCoefficient (after k e))
  end.

(** The public methods, as data, and a client that calls them in any
    order. *)
Inductive Call : Type :=
| CallStartAttack
| CallStartRelease
| CallSetAttackTime (time : R)
| CallSetDecayTime (time : R)
| CallSetSustainLevel (level : R)
| CallGetNextAmplitudeCoefficient.

Definition call (e : t) (c : Call) : t :=
  match c with
  | CallStartAttack => startAttack e
  | CallStartRelease => startRelease e
  | CallSetAttackTime time => setAttackTime time e
  | CallSetDecayTime time => setDecayTime time e
  | CallSetSustainLevel level => setSustainLevel level e
  | CallGetNextAmplitudeCoefficient => snd (getNextAmplitudeCoefficient e)
  end.

Definition calls (cs : list Call) (e : t) : t := fold_left call cs e.

(** The documented range of the argument of [setSustainLevel]. *)
Definition inRange (c : Call) : Prop :=
  match c with
  | CallSetSustainLevel level => 0 <= level <= 1
  | _ => True
  end.

(** What holds of every state a client can reach when the sample interval is
    not negative and the sustain levels are in their documented range: the
    amplitude and the sustain level are in [0, 1], no step is negative, and a
    decay time that is not positive comes with decay and release steps of 1. *)
Definition consistent (e : t) : Prop :=
  0 <= SAMPLE_INTERVAL_ e /\
  0 <= sustainLevel_ e <= 1 /\
  0 <= amplitudeCoefficient_ e <= 1 /\
  0 <= attackStep_ e /\ 0 <= decayStep_ e /\ 0 <= releaseStep_ e /\
  (decayTime_ e <= 0 -> decayStep_ e = 1 /\ releaseStep_ e = 1).

(** A call other than [startAttack]. *)
Definition unstruck (c : Call) : Prop :=
  match c with CallStartAttack => False | _ => True end.

(** An envelope that rests at 0 and that no sample can move. *)
Definition silent (e : t) : Prop :=
  consistent e /\ amplitudeCoefficient_ e = 0 /\
  (phase_ e = INACTIVE \/ phase_ e = RELEASE).

End EnvelopeGenerator.

(** ** oscillator.js *)

(** [Math.pow], for a positive base (the source only raises 2 to a power). *)
Definition Math_pow (x y : R) : R := Rpower x y.

(** [Math.abs]; [Math.abs(null)] is [0]. *)
Definition Math_abs (x : R) : R := Rabs x.

(** The [AudioBuffer] handed to [fillAudioBuffer]: the samples of channel 0,
    and those of channel 1 when the buffer has a second channel (the source
    tests [getChannelData(1)] for falsiness).  [buffer.length] is the number
    of samples of a channel. *)
Record AudioBuffer : Type := {
  channel0 : list R;
  channel1 : option (list R)
}.

Definition buffer_length (b : AudioBuffer) : nat := length (channel0 b).

Module Oscillator.

(** [doodle.moog.OscillatorInterface.WaveForm] and [FillMode], as
    [fillAudioBuffer] distinguishes them. *)
Inductive WaveForm : Set :=
| TRIANGLE | SAWANGLE | RAMP | REVERSE_RAMP | SQUARE | FAT_PULSE | PULSE.

Inductive FillMode : Set := CLOBBER | ADD | MIX.

Record t : Type := Build {
  SAMPLE_INTERVAL_ : R;
  phase_ : R;
  volume_ : R;
  waveForm_ : WaveForm;
  range_ : R;
  pitchBend_ : R;
  isAcceptingKeyboardPitch_ : bool;
  isFrequencyModulationOn_ : bool;
  IS_MODULATOR_ : bool;
  modulatorLevel_ : R;
  modulatorSignal : option (list R);
  isGlideOn_ : bool;
  glideDuration_ : R;
  glideDelta_ : option R;
  currentGlidePitch_ : option R;
  targetGlidePitch_ : option R;
  activeNote_ : R;
  envelopeGenerator : EnvelopeGenerator.t
}.

Definition set_phase_ (v : R) (o : t) : t :=
  Build (SAMPLE_INTERVAL_ o) v (volume_ o) (waveForm_ o) (range_ o)
        (pitchBend_ o) (isAcceptingKeyboardPitch_ o)
        (isFrequencyModulationOn_ o) (IS_MODULATOR_ o) (modulatorLevel_ o)
        (modulatorSignal o) (isGlideOn_ o) (glideDuration_ o) (glideDelta_ o)
        (currentGlidePitch_ o) (targetGlidePitch_ o) (activeNote_ o)
        (envelopeGenerator o).
Definition set_modulatorSignal (v : option (list R)) (o : t) : t :=
  Build (SAMPLE_INTERVAL_ o) (phase_ o) (volume_ o) (waveForm_ o) (range_ o)
        (pitchBend_ o) (isAcceptingKeyboardPitch_ o)
        (isFrequencyModulationOn_ o) (IS_MODULATOR_ o) (modulatorLevel_ o)
        v (isGlideOn_ o) (glideDuration_ o) (glideDelta_ o)
        (currentGlidePitch_ o) (targetGlidePitch_ o) (activeNote_ o)
        (envelopeGenerator o).
Definition set_glideDelta_ (v : option R) (o : t) : t :=
  Build (SAMPLE_INTERVAL_ o) (phase_ o) (volume_ o) (waveForm_ o) (range_ o)
        (pitchBend_ o) (isAcceptingKeyboardPitch_ o)
        (isFrequencyModulationOn_ o) (IS_MODULATOR_ o) (modulatorLevel_ o)
        (modulatorSignal o) (isGlideOn_ o) (glideDuration_ o) v
        (currentGlidePitch_ o) (targetGlidePitch_ o) (activeNote_ o)
        (envelopeGenerator o).
Definition set_currentGlidePitch_ (v : option R) (o : t) : t :=
  Build (SAMPLE_INTERVAL_ o) (phase_ o) (volume_ o) (waveForm_ o) (range_ o)
        (pitchBend_ o) (isAcceptingKeyboardPitch_ o)
        (isFrequencyModulationOn_ o) (IS_MODULATOR_ o) (modulatorLevel_ o)
        (modulatorSignal o) (isGlideOn_ o) (glideDuration_ o) (glideDelta_ o)
        v (targetGlidePitch_ o) (activeNote_ o) (envelopeGenerator o).
Definition set_targetGlidePitch_ (v : option R) (o : t) : t :=
  Build (SAMPLE_INTERVAL_ o) (phase_ o) (volume_ o) (waveForm_ o) (range_ o)
        (pitchBend_ o) (isAcceptingKeyboardPitch_ o)
        (isFrequencyModulationOn_ o) (IS_MODULATOR_ o) (modulatorLevel_ o)
        (modulatorSignal o) (isGlideOn_ o) (glideDuration_ o) (glideDelta_ o)
        (currentGlidePitch_ o) v (activeNote_ o) (envelopeGenerator o).
Definition set_activeNote_ (v : R) (o : t) : t :=
  Build (SAMPLE_INTERVAL_ o) (phase_ o) (volume_ o) (waveForm_ o) (range_ o)
        (pitchBend_ o) (isAcceptingKeyboardPitch_ o)
        (isFrequencyModulationOn_ o) (IS_MODULATOR_ o) (modulatorLevel_ o)
        (modulatorSignal o) (isGlideOn_ o) (glideDuration_ o) (glideDelta_ o)
        (currentGlidePitch_ o) (targetGlidePitch_ o) v (envelopeGenerator o).
Definition set_envelopeGenerator (v : EnvelopeGenerator.t) (o : t) : t :=
  Build (SAMPLE_INTERVAL_ o) (phase_ o) (volume_ o) (waveForm_ o) (range_ o)
        (pitchBend_ o) (isAcceptingKeyboardPitch_ o)
        (isFrequencyModulationOn_ o) (IS_MODULATOR_ o) (modulatorLevel_ o)
        (modulatorSignal o) (isGlideOn_ o) (glideDuration_ o) (glideDelta_ o)
        (currentGlidePitch_ o) (targetGlidePitch_ o) (activeNote_ o) v.

(** The constructor; [sampleRate] is [audioContext.sampleRate]. *)
Definition new (sampleRate volume : R) (waveForm : WaveForm)
    (range pitchBend : R)
    (isAcceptingKeyboardPitch isFrequencyModulationOn isModulator : bool)
    (modulatorLevel : R) (isGlideOn : bool)
    (glideTime attackTime decayTime sustainLevel : R) : t :=
  Build (1 / sampleRate) 0 volume waveForm range pitchBend
        isAcceptingKeyboardPitch isFrequencyModulationOn isModulator
        modulatorLevel None isGlideOn glideTime None None None 0
        (EnvelopeGenerator.new (1 / sampleRate) attackTime decayTime
                               sustainLevel).

Definition BASE_FREQUENCY_ : R := 55.
Definition MAJOR_SIXTH_FREQUENCY_RATIO_ : R := 5 / 3.
Definition THREE_OCTAVE_FREQUENCY_RATIO_ : R := 8.
Definition NOTE_OFFSET_ : R := -4.

Definition setActiveNote (note : R) (o : t) : t := set_activeNote_ note o.

Definition getInstantaneousFrequency_ (o : t) (note : R) : R :=
  let note := if isAcceptingKeyboardPitch_ o then note else 0 in
  BASE_FREQUENCY_ * range_ o * Math_pow 2 ((note + NOTE_OFFSET_) / 12).

Definition getPitchBend_ (o : t) : R :=
  let pitchBendScale :=
    if isAcceptingKeyboardPitch_ o
    then MAJOR_SIXTH_FREQUENCY_RATIO_
    else THREE_OCTAVE_FREQUENCY_RATIO_ in
  let normalizedPitchBend :=
    Math_abs (pitchBend_ o * (pitchBendScale - 1)) + 1 in
  if Rge_dec (pitchBend_ o) 0
  then normalizedPitchBend
  else 1 / normalizedPitchBend.

(** The first branch of [getGlideFrequency_]: the pitch snaps to the
    target. *)
Definition snaps (o : t) (target : R) : bool :=
  if isGlideOn_ o then
    match currentGlidePitch_ o with
    | None => true
    | Some current =>
        if Rle_dec (glideDuration_ o) 0 then true
        else if Rle_dec (Math_abs (current - target))
                        (Math_abs (toNumber (glideDelta_ o)))
             then true else false
    end
  else true.

(** [targetGlidePitch_ != target]: [null] differs from every number. *)
Definition targetDiffers (o : t) (target : R) : bool :=
  match targetGlidePitch_ o with
  | None => true
  | Some t' => if Req_dec_T t' target then false else true
  end.

(** [getGlideFrequency_]: the returned frequency and the new state. *)
Definition getGlideFrequency_ (o : t) (target : R) : R * t :=
  if snaps o target then
    (target,
     set_currentGlidePitch_ (Some target)
       (set_targetGlidePitch_ (Some target) o))
  else
    let o :=
      if targetDiffers o target then
        let glideDurationInSamples := glideDuration_ o / SAMPLE_INTERVAL_ o in
        let o :=
          set_glideDelta_
            (Some ((target - toNumber (currentGlidePitch_ o))
                   / glideDurationInSamples)) o in
        set_targetGlidePitch_ (Some target) o
      else o in
    let o :=
      set_currentGlidePitch_
        (Some (toNumber (currentGlidePitch_ o) + toNumber (glideDelta_ o))) o in
    (toNumber (currentGlidePitch_ o), o).

(** [getModulationFrequency_]; a sample read outside the signal is
    [undefined] in the source and is read as [0] here. *)
Definition getModulationFrequency_ (o : t) (baseFrequency : R)
    (modulatorSignal : option (list R)) (index : nat) : R :=
  match modulatorSignal with
  | None => baseFrequency
  | Some signal =>
      if isFrequencyModulationOn_ o
      then (nth index signal 0 * 0.75 + 1.25) * baseFrequency
      else baseFrequency
  end.

(** [advancedPhase_]: the progress in the cycle and the new state. *)
Definition advancedPhase_ (o : t) (frequency : R) : R * t :=
  let cycleLengthInSeconds := 2 / frequency in
  let o :=
    if Rgt_dec (phase_ o) cycleLengthInSeconds
    then set_phase_ (phase_ o - cycleLengthInSeconds) o
    else o in
  let progressInCycle := phase_ o * frequency / 2 in
  (progressInCycle, set_phase_ (phase_ o + SAMPLE_INTERVAL_ o) o).

(** The [switch] on the wave form in the loop of [fillAudioBuffer]. *)
Definition level (waveForm : WaveForm) (progressInCycle : R) : R :=
  match waveForm with
  | TRIANGLE =>
      4 * ((if Rgt_dec progressInCycle 0.5
            then 1 - progressInCycle else progressInCycle) - 0.25)
  | SAWANGLE =>
      if Rlt_dec progressInCycle 0.5
      then 4 * progressInCycle - 1
      else -2 * progressInCycle + 1
  | RAMP => 2 * (progressInCycle - 0.5)
  | REVERSE_RAMP => -2 * (progressInCycle - 0.5)
  | SQUARE => if Rlt_dec progressInCycle 0.5 then 1 else -1
  | FAT_PULSE => if Rlt_dec progressInCycle (1 / 3) then 1 else -1
  | PULSE => if Rlt_dec progressInCycle 0.25 then 1 else -1
  end.

(** The frequency handed to [advancedPhase_] for sample [i]: the pitch bend
    times the glided target frequency after optional modulation. *)
Definition playedFrequency (o : t) (targetFrequency pitchBend : R)
    (modulatorSignal : option (list R)) (i : nat) : R * t :=
  let '(glide, o) := getGlideFrequency_ o targetFrequency in
  (pitchBend * getModulationFrequency_ o glide modulatorSignal i, o).

(** What one round of the loop computes before it touches the output
    buffer: the audio level of sample [i] and the new oscillator state. *)
Definition sample (o : t) (targetFrequency pitchBend : R)
    (modulatorSignal' : option (list R)) (i : nat) : R * t :=
  let '(envelopeCoefficient, eg) :=
    EnvelopeGenerator.getNextAmplitudeCoefficient (envelopeGenerator o) in
  let o := set_envelopeGenerator eg o in
  let '(frequency, o) :=
    playedFrequency o targetFrequency pitchBend modulatorSignal' i in
  let '(progressInCycle, o) := advancedPhase_ o frequency in
  let lvl := level (waveForm_ o) progressInCycle in
  let o :=
    if IS_MODULATOR_ o
    then set_modulatorSignal
           ((fun signal => <[i := lvl * modulatorLevel_ o]> signal)
              <$> modulatorSignal o) o
    else o in
  (lvl * volume_ o * envelopeCoefficient, o).

(** The write of sample [i] into the two channels. *)
Definition store (fillMode : FillMode) (opt_mixDivisor : R) (i : nat)
    (audioLevel : R) (b : AudioBuffer) : AudioBuffer :=
  let right := channel0 b in
  let left := channel1 b in
  match fillMode with
  | CLOBBER =>
      {| channel0 := <[i := audioLevel]> right; channel1 := left |}
  | ADD =>
      {| channel0 := <[i := nth i right 0 + audioLevel]> right;
         channel1 := left |}
  | MIX =>
      let right :=
        <[i := (nth i right 0 + audioLevel) / opt_mixDivisor]> right in
      {| channel0 := right;
         channel1 := (fun l => <[i := nth i right 0]> l) <$> left |}
  end.

Definition iteration (targetFrequency pitchBend : R)
    (modulatorSignal' : option (list R)) (fillMode : FillMode)
    (opt_mixDivisor : R) (st : t * AudioBuffer) (i : nat) : t * AudioBuffer :=
  let '(o, b) := st in
  let '(audioLevel, o) :=
    sample o targetFrequency pitchBend modulatorSignal' i in
  (o, store fillMode opt_mixDivisor i audioLevel b).

(** The allocation of the modulator signal that opens [fillAudioBuffer]. *)
Definition allocate (o : t) (buffer : AudioBuffer) : t :=
  match IS_MODULATOR_ o, modulatorSignal o with
  | true, None =>
      set_modulatorSignal (Some (replicate (buffer_length buffer) 0)) o
  | _, _ => o
  end.

(** [fillAudioBuffer]: the new oscillator state and the filled buffer. *)
Definition fillAudioBuffer (o : t) (buffer : AudioBuffer)
    (modulatorSignal' : option (list R)) (fillMode : FillMode)
    (opt_mixDivisor : R) : t * AudioBuffer :=
  let o := allocate o buffer in
  let targetFrequency := getInstantaneousFrequency_ o (activeNote_ o) in
  let pitchBend := getPitchBend_ o in
  fold_left
    (iteration targetFrequency pitchBend modulatorSignal' fillMode
               opt_mixDivisor)
    (seq 0 (buffer_length buffer)) (o, buffer).

(** *** Vocabulary of the statements below *)

(** Successive calls of [advancedPhase_], one per frequency of [fs]: the
    progress values they return and the final state. *)
Fixpoint advances (fs : list R) (o : t) : list R * t :=
  match fs with
  | [] => ([], o)
  | f :: fs =>
      let '(p, o) := advancedPhase_ o f in
      let '(ps, o) := advances fs o in
      (p :: ps, o)
  end.

(** The audio levels of the [n] samples from index [start] on. *)
Fixpoint audioLevels (o : t) (targetFrequency pitchBend : R)
    (modulatorSignal' : option (list R)) (start n : nat) : list R :=
  match n with
  | O => []
  | S k =>
      let '(audioLevel, o) :=
        sample o targetFrequency pitchBend modulatorSignal' start in
      audioLevel
        :: audioLevels o targetFrequency pitchBend modulatorSignal' (S start) k
  end.

(** What a fill mode makes of the old content of a slot and an audio
    level. *)
Definition mixed (fillMode : FillMode) (opt_mixDivisor old audioLevel : R)
    : R :=
  match fillMode with
  | CLOBBER => audioLevel
  | ADD => old + audioLevel
  | MIX => (old + audioLevel) / opt_mixDivisor
  end.

(** The frequency that [fillAudioBuffer] hands to [advancedPhase_] for
    sample [i]. *)
Definition generatedFrequency (o : t) (modulatorSignal' : option (list R))
    (i : nat) : R :=
  fst (playedFrequency o (getInstantaneousFrequency_ o (activeNote_ o))
         (getPitchBend_ o) modulatorSignal' i).

(** The glide has nothing left to do: it is off, or the current pitch is the
    target. *)
Definition settled (o : t) (target : R) : Prop :=
  isGlideOn_ o = false \/ currentGlidePitch_ o = Some target.

(** The state in the middle of a glide from [c] that has made [k] steps of
    [delta] towards [target]. *)
Definition gliding (o : t) (c target delta k : R) : t :=
  set_currentGlidePitch_ (Some (c + k * delta))
    (set_targetGlidePitch_ (Some target) (set_glideDelta_ (Some delta) o)).

(** The left channel after a [MIX] fill, spelled out: the samples of the new
    right channel as far as both channels reach, and the old samples
    beyond. *)
Definition copied (right' old : list R) : list R :=
  take (length old) right' ++ drop (length right') old.

(** What the left channel is after the rounds [start], ..., [start + n - 1]
    of a [MIX] fill. *)
Definition leftAfter (start n : nat) (right' old new : list R) : Prop :=
  length new = length old /\
  forall i,
    nth i new 0
    = if decide ((start <= i < start + n)%nat /\ (i < length old)%nat)
      then nth i right' 0 else nth i old 0.

(** *** Three oscillators to run *)

(** Note 0 of the keyboard at range 1, no bend, no modulation, no glide, at
    44100 samples per second. *)
Definition lowestKey : t :=
  new 44100 1 SQUARE 1 0 true false false 0 false 0 0 0 1.

(** Four samples per second. *)
Definition quarterSecond : t :=
  new 4 1 SQUARE 1 0 true false false 0 false 0 0 0 1.

(** Glide on, with a glide of four seconds at one sample per second. *)
Definition slider : t :=
  new 1 1 SQUARE 1 0 true false false 0 true 4 0 0 1.

(** *** The control methods *)

Definition set_volume_ (v : R) (o : t) : t :=
  Build (SAMPLE_INTERVAL_ o) (phase_ o) v (waveForm_ o) (range_ o)
        (pitchBend_ o) (isAcceptingKeyboardPitch_ o)
        (isFrequencyModulationOn_ o) (IS_MODULATOR_ o) (modulatorLevel_ o)
        (modulatorSignal o) (isGlideOn_ o) (glideDuration_ o) (glideDelta_ o)
        (currentGlidePitch_ o) (targetGlidePitch_ o) (activeNote_ o)
        (envelopeGenerator o).
Definition set_waveForm_ (v : WaveForm) (o : t) : t :=
  Build (SAMPLE_INTERVAL_ o) (phase_ o) (volume_ o) v (range_ o)
        (pitchBend_ o) (isAcceptingKeyboardPitch_ o)
        (isFrequencyModulationOn_ o) (IS_MODULATOR_ o) (modulatorLevel_ o)
        (modulatorSignal o) (isGlideOn_ o) (glideDuration_ o) (glideDelta_ o)
        (currentGlidePitch_ o) (targetGlidePitch_ o) (activeNote_ o)
        (envelopeGenerator o).
Definition set_range_ (v : R) (o : t) : t :=
  Build (SAMPLE_INTERVAL_ o) (phase_ o) (volume_ o) (waveForm_ o) v
        (pitchBend_ o) (isAcceptingKeyboardPitch_ o)
        (isFrequencyModulationOn_ o) (IS_MODULATOR_ o) (modulatorLevel_ o)
        (modulatorSignal o) (isGlideOn_ o) (glideDuration_ o) (glideDelta_ o)
        (currentGlidePitch_ o) (targetGlidePitch_ o) (activeNote_ o)
        (envelopeGenerator o).
Definition set_pitchBend_ (v : R) (o : t) : t :=
  Build (SAMPLE_INTERVAL_ o) (phase_ o) (volume_ o) (waveForm_ o) (range_ o) v
        (isAcceptingKeyboardPitch_ o) (isFrequencyModulationOn_ o)
        (IS_MODULATOR_ o) (modulatorLevel_ o) (modulatorSignal o)
        (isGlideOn_ o) (glideDuration_ o) (glideDelta_ o)
        (currentGlidePitch_ o) (targetGlidePitch_ o) (activeNote_ o)
        (envelopeGenerator o).
Definition set_isAcceptingKeyboardPitch_ (v : bool) (o : t) : t :=
  Build (SAMPLE_INTERVAL_ o) (phase_ o) (volume_ o) (waveForm_ o) (range_ o)
        (pitchBend_ o) v (isFrequencyModulationOn_ o) (IS_MODULATOR_ o)
        (modulatorLevel_ o) (modulatorSignal o) (isGlideOn_ o)
        (glideDuration_ o) (glideDelta_ o) (currentGlidePitch_ o)
        (targetGlidePitch_ o) (activeNote_ o) (envelopeGenerator o).
Definition set_isFrequencyModulationOn_ (v : bool) (o : t) : t :=
  Build (SAMPLE_INTERVAL_ o) (phase_ o) (volume_ o) (waveForm_ o) (range_ o)
        (pitchBend_ o) (isAcceptingKeyboardPitch_ o) v (IS_MODULATOR_ o)
        (modulatorLevel_ o) (modulatorSignal o) (isGlideOn_ o)
        (glideDuration_ o) (glideDelta_ o) (currentGlidePitch_ o)
        (targetGlidePitch_ o) (activeNote_ o) (envelopeGenerator o).
Definition set_modulatorLevel_ (v : R) (o : t) : t :=
  Build (SAMPLE_INTERVAL_ o) (phase_ o) (volume_ o) (waveForm_ o) (range_ o)
        (pitchBend_ o) (isAcceptingKeyboardPitch_ o)
        (isFrequencyModulationOn_ o) (IS_MODULATOR_ o) v (modulatorSignal o)
        (isGlideOn_ o) (glideDuration_ o) (glideDelta_ o)
        (currentGlidePitch_ o) (targetGlidePitch_ o) (activeNote_ o)
        (envelopeGenerator o).
Definition set_isGlideOn_ (v : bool) (o : t) : t :=
  Build (SAMPLE_INTERVAL_ o) (phase_ o) (volume_ o) (waveForm_ o) (range_ o)
        (pitchBend_ o) (isAcceptingKeyboardPitch_ o)
        (isFrequencyModulationOn_ o) (IS_MODULATOR_ o) (modulatorLevel_ o)
        (modulatorSignal o) v (glideDuration_ o) (glideDelta_ o)
        (currentGlidePitch_ o) (targetGlidePitch_ o) (activeNote_ o)
        (envelopeGenerator o).
Definition set_glideDuration_ (v : R) (o : t) : t :=
  Build (SAMPLE_INTERVAL_ o) (phase_ o) (volume_ o) (waveForm_ o) (range_ o)
        (pitchBend_ o) (isAcceptingKeyboardPitch_ o)
        (isFrequencyModulationOn_ o) (IS_MODULATOR_ o) (modulatorLevel_ o)
        (modulatorSignal o) (isGlideOn_ o) v (glideDelta_ o)
        (currentGlidePitch_ o) (targetGlidePitch_ o) (activeNote_ o)
        (envelopeGenerator o).

Definition setVolume (volume : R) (o : t) : t := set_volume_ volume o.

Definition setWaveForm (waveForm : WaveForm) (o : t) : t :=
  set_waveForm_ waveForm o.

Definition setPitchBend (pitchBend : R) (o : t) : t :=
  set_pitchBend_ pitchBend o.

Definition setRange (range : R) (o : t) : t := set_range_ range o.

Definition turnOnKeyboardPitchControl (o : t) : t :=
  set_isAcceptingKeyboardPitch_ true o.

Definition turnOffKeyboardPitchControl (o : t) : t :=
  set_isAcceptingKeyboardPitch_ false o.

Definition turnOnFrequencyModulation (o : t) : t :=
  set_isFrequencyModulationOn_ true o.

Definition turnOffFrequencyModulation (o : t) : t :=
  set_isFrequencyModulationOn_ false o.

Definition setModulatorLevel (modulatorLevel : R) (o : t) : t :=
  set_modulatorLevel_ modulatorLevel o.

Definition turnOnGlide (o : t) : t := set_isGlideOn_ true o.

Definition turnOffGlide (o : t) : t := set_isGlideOn_ false o.

Definition setGlideDuration (time : R) (o : t) : t := set_glideDuration_ time o.

Definition setEnvelopeGeneratorAttackTime (attackTime : R) (o : t) : t :=
  set_envelopeGenerator
    (EnvelopeGenerator.setAttackTime attackTime (envelopeGenerator o)) o.

Definition setEnvelopeGeneratorDecayTime (decayTime : R) (o : t) : t :=
  set_envelopeGenerator
    (EnvelopeGenerator.setDecayTime decayTime (envelopeGenerator o)) o.

Definition setEnvelopeGeneratorSustainLevel (sustainLevel : R) (o : t) : t :=
  set_envelopeGenerator
    (EnvelopeGenerator.setSustainLevel sustainLevel (envelopeGenerator o)) o.

(** Two oscillator states with the same settings: everything but the phase,
    the glide state, the modulator signal and the envelope generator. *)
Definition sameSettings (o o' : t) : Prop :=
  SAMPLE_INTERVAL_ o' = SAMPLE_INTERVAL_ o /\ volume_ o' = volume_ o /\
  waveForm_ o' = waveForm_ o /\ range_ o' = range_ o /\
  pitchBend_ o' = pitchBend_ o /\
  isAcceptingKeyboardPitch_ o' = isAcceptingKeyboardPitch_ o /\
  isFrequencyModulationOn_ o' = isFrequencyModulationOn_ o /\
  IS_MODULATOR_ o' = IS_MODULATOR_ o /\
  modulatorLevel_ o' = modulatorLevel_ o /\ isGlideOn_ o' = isGlideOn_ o /\
  glideDuration_ o' = glideDuration_ o /\ activeNote_ o' = activeNote_ o.

(** An oscillator that cannot be heard: its volume is 0, or its envelope
    rests at 0. *)
Definition muted (o : t) : Prop :=
  volume_ o = 0 \/
  (EnvelopeGenerator.phase_ (envelopeGenerator o) = EnvelopeGenerator.INACTIVE
   /\ EnvelopeGenerator.amplitudeCoefficient_ (envelopeGenerator o) = 0).

End Oscillator.

(** ** low_pass_filter.js *)

(** The [AudioParam] of the Web Audio API, as far as the filter drives it: its
    [value] and the timeline of scheduled changes, in the order in which they
    were scheduled.  [cancelScheduledValues(t)] removes the changes scheduled
    at time [t] or later. *)
Module AudioParam.

Inductive Event : Type :=
| SetValueAtTime (value time : R)
| ExponentialRampToValueAtTime (value time : R).

Definition time (ev : Event) : R :=
  match ev with
  | SetValueAtTime _ t => t
  | ExponentialRampToValueAtTime _ t => t
  end.

Record t : Type := { value : R; events : list Event }.

Definition before (startTime : R) (ev : Event) : bool :=
  if Rlt_dec (time ev) startTime then true else false.

Definition cancelScheduledValues (startTime : R) (p : t) : t :=
  {| value := value p; events := List.filter (before startTime) (events p) |}.

Definition set_value (v : R) (p : t) : t :=
  {| value := v; events := events p |}.

Definition schedule (ev : Event) (p : t) : t :=
  {| value := value p; events := events p ++ [ev] |}.

Definition setValueAtTime (v startTime : R) : t -> t :=
  schedule (SetValueAtTime v startTime).

Definition exponentialRampToValueAtTime (v endTime : R) : t -> t :=
  schedule (ExponentialRampToValueAtTime v endTime).

(** The changes still to come at time [now]. *)
Definition pending (now : R) (p : t) : list Event :=
  List.filter (fun ev => negb (before now ev)) (events p).

(** The value that a scheduled change ends on. *)
Definition target (ev : Event) : R :=
  match ev with
  | SetValueAtTime v _ => v
  | ExponentialRampToValueAtTime v _ => v
  end.

End AudioParam.

Module LowPassFilter.

(** The filter object; [frequency] is [lowPassFilterNode_.frequency]. *)
Record t : Type := Build {
  frequency : AudioParam.t;
  cutoffFrequency_ : R;
  contour_ : R;
  attackTime_ : R;
  decayTime_ : R;
  sustainLevel_ : R
}.

Definition set_frequency (p : AudioParam.t) (f : t) : t :=
  Build p (cutoffFrequency_ f) (contour_ f) (attackTime_ f) (decayTime_ f)
        (sustainLevel_ f).

Definition resetContourEnvelope_ (f : t) : t :=
  let p := AudioParam.cancelScheduledValues 0 (frequency f) in
  set_frequency (AudioParam.set_value (cutoffFrequency_ f) p) f.

(** [startAttack]; [now] is [audioContext_.currentTime]. *)
Definition startAttack (now : R) (f : t) : t :=
  let p := AudioParam.cancelScheduledValues now (frequency f) in
  let p := AudioParam.set_value (cutoffFrequency_ f) p in
  let p := AudioParam.setValueAtTime (cutoffFrequency_ f) now p in
  let contourFrequency := contour_ f * cutoffFrequency_ f in
  let p :=
    AudioParam.exponentialRampToValueAtTime
      contourFrequency (now + attackTime_ f) p in
  let p :=
    AudioParam.exponentialRampToValueAtTime
      (cutoffFrequency_ f
       + sustainLevel_ f * (contourFrequency - cutoffFrequency_ f))
      (now + attackTime_ f + decayTime_ f) p in
  set_frequency p f.

Definition setCutoffFrequency (cutoffFrequency : R) (f : t) : t :=
  resetContourEnvelope_
    (Build (frequency f) cutoffFrequency (contour_ f) (attackTime_ f)
           (decayTime_ f) (sustainLevel_ f)).

(** The constructor; [node] is the frequency parameter of the filter node
    that [audioContext.createBiquadFilter()] returns. *)
Definition new (node : AudioParam.t)
    (cutoffFrequency contour attackTime decayTime sustainLevel : R) : t :=
  resetContourEnvelope_
    (Build node cutoffFrequency contour attackTime decayTime sustainLevel).

Definition setContour (contour : R) (f : t) : t :=
  resetContourEnvelope_
    (Build (frequency f) (cutoffFrequency_ f) contour (attackTime_ f)
           (decayTime_ f) (sustainLevel_ f)).

Definition setContourAttackTime (time : R) (f : t) : t :=
  resetContourEnvelope_
    (Build (frequency f) (cutoffFrequency_ f) (contour_ f) time
           (decayTime_ f) (sustainLevel_ f)).

Definition setContourDecayTime (time : R) (f : t) : t :=
  resetContourEnvelope_
    (Build (frequency f) (cutoffFrequency_ f) (contour_ f) (attackTime_ f)
           time (sustainLevel_ f)).

Definition setContourSustainLevel (level : R) (f : t) : t :=
  resetContourEnvelope_
    (Build (frequency f) (cutoffFrequency_ f) (contour_ f) (attackTime_ f)
           (decayTime_ f) level).

(** The setters, as data. *)
Inductive Knob : Type :=
| CutoffFrequency (cutoffFrequency : R)
| Contour (contour : R)
| ContourAttackTime (time : R)
| ContourDecayTime (time : R)
| ContourSustainLevel (level : R).

Definition turn (k : Knob) (f : t) : t :=
  match k with
  | CutoffFrequency v => setCutoffFrequency v f
  | Contour v => setContour v f
  | ContourAttackTime v => setContourAttackTime v f
  | ContourDecayTime v => setContourDecayTime v f
  | ContourSustainLevel v => setContourSustainLevel v f
  end.

End LowPassFilter.

(** ** Rounded arithmetic *)

(** The operations on numbers that the envelope generator and the glide use,
    as an interface: [leb x y] is [x <= y] (and [y >= x]), [eqb] is [==]. *)
Module Arithmetic.

Record t : Type := Build {
  number : Type;
  zero : number;
  one : number;
  add : number -> number -> number;
  sub : number -> number -> number;
  mul : number -> number -> number;
  div : number -> number -> number;
  abs : number -> number;
  leb : number -> number -> bool;
  eqb : number -> number -> bool
}.

(** IEEE 754 binary64, the numbers of JavaScript. *)
Definition binary64 : t :=
  Build float 0%float 1%float PrimFloat.add PrimFloat.sub PrimFloat.mul
        PrimFloat.div PrimFloat.abs PrimFloat.leb PrimFloat.eqb.

(** Real numbers with every result of [+], [-], [*] and [/] rounded by
    [rnd]; [Math.abs] and the comparisons are exact. *)
Definition rounded (rnd : R -> R) : t :=
  Build R 0 1
        (fun x y => rnd (x + y)) (fun x y => rnd (x - y))
        (fun x y => rnd (x * y)) (fun x y => rnd (x / y))
        Rabs
        (fun x y => if Rle_dec x y then true else false)
        (fun x y => if Req_dec_T x y then true else false).

End Arithmetic.

Declare Scope number_scope.
Delimit Scope number_scope with number.
Notation "x + y" := (Arithmetic.add _ x y) : number_scope.
Notation "x - y" := (Arithmetic.sub _ x y) : number_scope.
Notation "x * y" := (Arithmetic.mul _ x y) : number_scope.
Notation "x / y" := (Arithmetic.div _ x y) : number_scope.
Notation "x <=? y" := (Arithmetic.leb _ x y) : number_scope.
Notation "x >=? y" := (Arithmetic.leb _ y x) : number_scope.
Notation "0" := (Arithmetic.zero _) : number_scope.
Notation "1" := (Arithmetic.one _) : number_scope.

(** The envelope generator and the glide once more, over an arithmetic [A]:
    every [+], [-], [*] and [/] of the source is an operation of [A], in the
    order in which JavaScript evaluates them. *)
Module Numeric.

Module EnvelopeGenerator.
Export EnvelopeGenerator (Phase_, ATTACK, DECAY, SUSTAIN, RELEASE, INACTIVE).

Section Over.
Variable A : Arithmetic.t.

Record t : Type := Build {
  SAMPLE_INTERVAL_ : Arithmetic.number A;
  amplitudeCoefficient_ : Arithmetic.number A;
  phase_ : Phase_;
  attackTime_ : Arithmetic.number A;
  attackStep_ : Arithmetic.number A;
  decayTime_ : Arithmetic.number A;
  decayStep_ : Arithmetic.number A;
  sustainLevel_ : Arithmetic.number A;
  releaseStep_ : Arithmetic.number A
}.

Definition set_amplitudeCoefficient_ (v : Arithmetic.number A) (e : t) : t :=
  Build (SAMPLE_INTERVAL_ e) v (phase_ e) (attackTime_ e) (attackStep_ e)
        (decayTime_ e) (decayStep_ e) (sustainLevel_ e) (releaseStep_ e).
Definition set_phase_ (v : Phase_) (e : t) : t :=
  Build (SAMPLE_INTERVAL_ e) (amplitudeCoefficient_ e) v (attackTime_ e)
        (attackStep_ e) (decayTime_ e) (decayStep_ e) (sustainLevel_ e)
        (releaseStep_ e).
Definition set_attackStep_ (v : Arithmetic.number A) (e : t) : t :=
  Build (SAMPLE_INTERVAL_ e) (amplitudeCoefficient_ e) (phase_ e)
        (attackTime_ e) v (decayTime_ e) (decayStep_ e) (sustainLevel_ e)
        (releaseStep_ e).
Definition set_decayStep_ (v : Arithmetic.number A) (e : t) : t :=
  Build (SAMPLE_INTERVAL_ e) (amplitudeCoefficient_ e) (phase_ e)
        (attackTime_ e) (attackStep_ e) (decayTime_ e) v (sustainLevel_ e)
        (releaseStep_ e).
Definition set_releaseStep_ (v : Arithmetic.number A) (e : t) : t :=
  Build (SAMPLE_INTERVAL_ e) (amplitudeCoefficient_ e) (phase_ e)
        (attackTime_ e) (attackStep_ e) (decayTime_ e) (decayStep_ e)
        (sustainLevel_ e) v.

Definition recomputePhaseSteps_ (e : t) : t :=
  let e :=
    if (attackTime_ e <=? 0)%number
    then set_attackStep_ 1%number e
    else set_attackStep_ (SAMPLE_INTERVAL_ e / attackTime_ e)%number e in
  if (decayTime_ e <=? 0)%number
  then set_releaseStep_ 1%number (set_decayStep_ 1%number e)
  else
    let e :=
      set_decayStep_
        ((1 - sustainLevel_ e) * SAMPLE_INTERVAL_ e / decayTime_ e)%number e in
    set_releaseStep_
      (sustainLevel_ e * SAMPLE_INTERVAL_ e / decayTime_ e)%number e.

Definition new
    (sampleInterval attackTime decayTime sustainLevel : Arithmetic.number A)
    : t :=
  recomputePhaseSteps_
    (Build sampleInterval 0%number INACTIVE attackTime 0%number decayTime
           0%number sustainLevel 0%number).

Definition startAttack (e : t) : t :=
  let e := recomputePhaseSteps_ e in
  let e := set_amplitudeCoefficient_ 0%number e in
  set_phase_ ATTACK e.

Definition startRelease (e : t) : t :=
  if EnvelopeGenerator.Phase__eq_dec (phase_ e) RELEASE then e
  else
    let e :=
      if (decayTime_ e <=? 0)%number
      then set_releaseStep_ 1%number e
      else
        set_releaseStep_
          (amplitudeCoefficient_ e * SAMPLE_INTERVAL_ e / decayTime_ e)%number
          e in
    set_phase_ RELEASE e.

(** The state after one call of [getNextAmplitudeCoefficient]. *)
Definition advance (e : t) : t :=
  match phase_ e with
  | ATTACK =>
      let e :=
        set_amplitudeCoefficient_
          (amplitudeCoefficient_ e + attackStep_ e)%number e in
      if (amplitudeCoefficient_ e >=? 1)%number
      then set_phase_ DECAY (set_amplitudeCoefficient_ 1%number e)
      else e
  | DECAY =>
      let e :=
        set_amplitudeCoefficient_
          (amplitudeCoefficient_ e - decayStep_ e)%number e in
      if (amplitudeCoefficient_ e <=? sustainLevel_ e)%number
      then set_phase_ SUSTAIN (set_amplitudeCoefficient_ (sustainLevel_ e) e)
      else e
  | SUSTAIN => e
  | RELEASE =>
      let e :=
        set_amplitudeCoefficient_
          (amplitudeCoefficient_ e - releaseStep_ e)%number e in
      if (amplitudeCoefficient_ e <=? 0)%number
      then set_phase_ INACTIVE (set_amplitudeCoefficient_ 0%number e)
      else e
  | INACTIVE => e
  end.

Definition getNextAmplitudeCoefficient (e : t) : Arithmetic.number A * t :=
  let e' := advance e in (amplitudeCoefficient_ e', e').

(** The state after [n] successive calls of [getNextAmplitudeCoefficient],
    and the coefficient returned by the [n]-th of them ([n >= 1]). *)
Fixpoint after (n : nat) (e : t) : t :=
  match n with
  | O => e
  | S k => snd (getNextAmplitudeCoefficient (after k e))
  end.

Definition coefficient (n : nat) (e : t) : Arithmetic.number A :=
  match n with
  | O => amplitudeCoefficient_ e
  | S k => fst (getNextAmplitudeCoefficient (after k e))
  end.

End Over.

Arguments SAMPLE_INTERVAL_ {A}.
Arguments amplitudeCoefficient_ {A}.
Arguments phase_ {A}.
Arguments attackTime_ {A}.
Arguments attackStep_ {A}.
Arguments decayTime_ {A}.
Arguments decayStep_ {A}.
Arguments sustainLevel_ {A}.
Arguments releaseStep_ {A}.
Arguments set_amplitudeCoefficient_ {A}.
Arguments set_phase_ {A}.
Arguments set_attackStep_ {A}.
Arguments set_decayStep_ {A}.
Arguments set_releaseStep_ {A}.
Arguments recomputePhaseSteps_ {A}.
Arguments startAttack {A}.
Arguments startRelease {A}.
Arguments advance {A}.
Arguments getNextAmplitudeCoefficient {A}.
Arguments after {A}.
Arguments coefficient {A}.

(** The shape of a note that is held, in rounded arithmetic: [nA] samples of
    attack that end on a coefficient of exactly 1 with the phase turned to
    [DECAY], [nD] samples of decay, and the sustain level from then on. *)
Definition attackDecaySustain (rnd : R -> R) (e : t (Arithmetic.rounded rnd))
    (nA nD : nat) : Prop :=
  (forall k, (k < nA)%nat ->
     phase_ (after k e) = ATTACK /\ coefficient k e <= coefficient (S k) e) /\
  phase_ (after nA e) = DECAY /\
  coefficient nA e = 1 /\
  (forall k, (nA <= k < nA + nD)%nat ->
     phase_ (after k e) = DECAY /\ coefficient (S k) e <= coefficient k e) /\
  (forall k, (nA + nD <= k)%nat ->
     phase_ (after k e) = SUSTAIN /\ coefficient k e = sustainLevel_ e).

End EnvelopeGenerator.

(** The fields of the oscillator that [getGlideFrequency_] reads and
    writes. *)
Module Oscillator.

Section Over.
Variable A : Arithmetic.t.

Record t : Type := Build {
  SAMPLE_INTERVAL_ : Arithmetic.number A;
  isGlideOn_ : bool;
  glideDuration_ : Arithmetic.number A;
  glideDelta_ : option (Arithmetic.number A);
  currentGlidePitch_ : option (Arithmetic.number A);
  targetGlidePitch_ : option (Arithmetic.number A)
}.

(** The constructor, as far as these fields go. *)
Definition new (sampleRate : Arithmetic.number A) (isGlideOn : bool)
    (glideTime : Arithmetic.number A) : t :=
  Build (1 / sampleRate)%number isGlideOn glideTime None None None.

(** [null] used as a number. *)
Definition toNumber (x : option (Arithmetic.number A)) : Arithmetic.number A :=
  match x with Some v => v | None => 0%number end.

Definition set_glideDelta_ (v : option (Arithmetic.number A)) (o : t) : t :=
  Build (SAMPLE_INTERVAL_ o) (isGlideOn_ o) (glideDuration_ o) v
        (currentGlidePitch_ o) (targetGlidePitch_ o).
Definition set_currentGlidePitch_ (v : option (Arithmetic.number A)) (o : t)
    : t :=
  Build (SAMPLE_INTERVAL_ o) (isGlideOn_ o) (glideDuration_ o) (glideDelta_ o)
        v (targetGlidePitch_ o).
Definition set_targetGlidePitch_ (v : option (Arithmetic.number A)) (o : t)
    : t :=
  Build (SAMPLE_INTERVAL_ o) (isGlideOn_ o) (glideDuration_ o) (glideDelta_ o)
        (currentGlidePitch_ o) v.

(** The first branch of [getGlideFrequency_]: the pitch snaps to the
    target. *)
Definition snaps (o : t) (target : Arithmetic.number A) : bool :=
  if isGlideOn_ o then
    match currentGlidePitch_ o with
    | None => true
    | Some current =>
        if (glideDuration_ o <=? 0)%number then true
        else (Arithmetic.abs A (current - target)
              <=? Arithmetic.abs A (toNumber (glideDelta_ o)))%number
    end
  else true.

(** [targetGlidePitch_ != target]: [null] differs from every number. *)
Definition targetDiffers (o : t) (target : Arithmetic.number A) : bool :=
  match targetGlidePitch_ o with
  | None => true
  | Some t' => negb (Arithmetic.eqb A t' target)
  end.

(** [getGlideFrequency_]: the returned frequency and the new state. *)
Definition getGlideFrequency_ (o : t) (target : Arithmetic.number A)
    : Arithmetic.number A * t :=
  if snaps o target then
    (target,
     set_currentGlidePitch_ (Some target)
       (set_targetGlidePitch_ (Some target) o))
  else
    let o :=
      if targetDiffers o target then
        let glideDurationInSamples :=
          (glideDuration_ o / SAMPLE_INTERVAL_ o)%number in
        let o :=
          set_glideDelta_
            (Some ((target - toNumber (currentGlidePitch_ o))
                   / glideDurationInSamples)%number) o in
        set_targetGlidePitch_ (Some target) o
      else o in
    let o :=
      set_currentGlidePitch_
        (Some (toNumber (currentGlidePitch_ o)
               + toNumber (glideDelta_ o))%number) o in
    (toNumber (currentGlidePitch_ o), o).

(** The state after [n] successive calls of [getGlideFrequency_] with one
    target, and the frequency returned by the [n]-th of them ([n >= 1]). *)
Fixpoint glides (n : nat) (o : t) (target : Arithmetic.number A) : t :=
  match n with
  | O => o
  | S k => snd (getGlideFrequency_ (glides k o target) target)
  end.

Definition pitch (n : nat) (o : t) (target : Arithmetic.number A)
    : Arithmetic.number A :=
  match n with
  | O => toNumber (currentGlidePitch_ o)
  | S k => fst (getGlideFrequency_ (glides k o target) target)
  end.

End Over.

Arguments SAMPLE_INTERVAL_ {A}.
Arguments isGlideOn_ {A}.
Arguments glideDuration_ {A}.
Arguments glideDelta_ {A}.
Arguments currentGlidePitch_ {A}.
Arguments targetGlidePitch_ {A}.
Arguments toNumber {A}.
Arguments set_glideDelta_ {A}.
Arguments set_currentGlidePitch_ {A}.
Arguments set_targetGlidePitch_ {A}.
Arguments snaps {A}.
Arguments targetDiffers {A}.
Arguments getGlideFrequency_ {A}.
Arguments glides {A}.
Arguments pitch {A}.

(** The state in the middle of a glide towards [target], at pitch [p] with
    the step [delta]. *)
Definition gliding {A : Arithmetic.t} (o : t A)
    (delta p target : Arithmetic.number A) : t A :=
  set_currentGlidePitch_ (Some p)
    (set_targetGlidePitch_ (Some target) (set_glideDelta_ (Some delta) o)).

End Oscillator.

End Numeric.

(** The exact modules above are the instance of [Numeric] in which nothing
    is rounded: an envelope of [EnvelopeGenerator], and the glide fields of
    an oscillator of [Oscillator], over the real numbers as they are. *)
Definition unrounded : Arithmetic.t := Arithmetic.rounded (fun x => x).

Definition exactEnvelope (e : EnvelopeGenerator.t)
    : Numeric.EnvelopeGenerator.t unrounded :=
  Numeric.EnvelopeGenerator.Build unrounded
    (EnvelopeGenerator.SAMPLE_INTERVAL_ e)
    (EnvelopeGenerator.amplitudeCoefficient_ e)
    (EnvelopeGenerator.phase_ e)
    (EnvelopeGenerator.attackTime_ e)
    (EnvelopeGenerator.attackStep_ e)
    (EnvelopeGenerator.decayTime_ e)
    (EnvelopeGenerator.decayStep_ e)
    (EnvelopeGenerator.sustainLevel_ e)
    (EnvelopeGenerator.releaseStep_ e).

Definition glideFields (o : Oscillator.t) : Numeric.Oscillator.t unrounded :=
  Numeric.Oscillator.Build unrounded
    (Oscillator.SAMPLE_INTERVAL_ o)
    (Oscillator.isGlideOn_ o)
    (Oscillator.glideDuration_ o)
    (Oscillator.glideDelta_ o)
    (Oscillator.currentGlidePitch_ o)
    (Oscillator.targetGlidePitch_ o).

(** A rounding with an error, to run the theorems on: to the nearest multiple
    of 1/8, a tie away from 0. *)
Definition nearestEighth (x : R) : R :=
  if Rle_dec 0 x then IZR (Zfloor (8 * x + 1 / 2)) / 8
  else - (IZR (Zfloor (8 * - x + 1 / 2)) / 8).

(** * Properties of the envelope generator *)

Section EnvelopeGeneratorFacts.
Import EnvelopeGenerator.

(** Reduces the projections of updated records. *)
Ltac fields :=
  cbn [SAMPLE_INTERVAL_ amplitudeCoefficient_ phase_ attackTime_ attackStep_
       decayTime_ decayStep_ sustainLevel_ releaseStep_
       set_amplitudeCoefficient_ set_phase_ set_attackTime_ set_attackStep_
       set_decayTime_ set_decayStep_ set_sustainLevel_ set_releaseStep_] in *.

(** Normalises a record built from literal fields. *)
Ltac records :=
  cbv [set_amplitudeCoefficient_ set_phase_ set_attackTime_ set_attackStep_
       set_decayTime_ set_decayStep_ set_sustainLevel_ set_releaseStep_
       SAMPLE_INTERVAL_ amplitudeCoefficient_ phase_ attackTime_ attackStep_
       decayTime_ decayStep_ sustainLevel_ releaseStep_].

Ltac plain a :=
  lazymatch a with
  | context [Rle_dec _ _] => fail
  | context [Rge_dec _ _] => fail
  | context [Phase__eq_dec _ _] => fail
  | _ => idtac
  end.

(** Decides the comparisons of the goal, innermost first. *)
Ltac decide_comparisons :=
  repeat match goal with
    | |- context [Rle_dec ?a ?b] =>
        plain a; plain b; destruct (Rle_dec a b); try lra; fields
    | |- context [Rge_dec ?a ?b] =>
        plain a; plain b; destruct (Rge_dec a b); try lra; fields
    | |- context [Phase__eq_dec ?a ?b] =>
        plain a; destruct (Phase__eq_dec a b); try congruence; fields
    end.

(** Runs the methods of the goal. *)
Ltac evaluate :=
  unfold coefficient, after, calls, call, getNextAmplitudeCoefficient, advance,
    startAttack, startRelease, startRelease_with, setAttackTime, setDecayTime,
    setSustainLevel, new, recomputePhaseSteps_, recomputePhaseSteps_with;
  cbn [fst snd fold_left]; fields; decide_comparisons.

(** ** Sampling *)

Lemma coefficient_after (n : nat) (e : t) :
  coefficient n e = amplitudeCoefficient_ (after n e).
Proof. destruct n; reflexivity. Qed.

Lemma after_advance (n : nat) (e : t) :
  after (S n) e = after n (advance e).
Proof.
  induction n as [|n IH]; [reflexivity|].
  change (after (S (S n)) e) with (advance (after (S n) e)).
  rewrite IH. reflexivity.
Qed.

Lemma advance_attack_top (e : t) :
  phase_ e = ATTACK -> 1 <= amplitudeCoefficient_ e + attackStep_ e ->
  advance e = set_phase_ DECAY (set_amplitudeCoefficient_ 1 e).
Proof.
  intros Hp Hge. unfold advance. rewrite Hp. cbn.
  destruct (Rge_dec _ 1); [reflexivity | lra].
Qed.

Lemma advance_decay_bottom (e : t) :
  phase_ e = DECAY ->
  amplitudeCoefficient_ e - decayStep_ e <= sustainLevel_ e ->
  advance e
  = set_phase_ SUSTAIN (set_amplitudeCoefficient_ (sustainLevel_ e) e).
Proof.
  intros Hp Hge. unfold advance. rewrite Hp. cbn.
  destruct (Rle_dec _ _); [reflexivity | lra].
Qed.

(** ** Natural numbers above a real, and the constructor *)

Lemma nat_above (x : R) : exists m : nat, x <= INR m.
Proof.
  destruct (archimed x) as [Hup _].
  exists (Z.to_nat (up x)).
  destruct (Z_lt_le_dec (up x) 0) as [Hneg|Hpos].
  - apply IZR_lt in Hneg. pose proof (pos_INR (Z.to_nat (up x))). lra.
  - rewrite INR_IZR_INZ, Z2Nat.id by lia. lra.
Qed.

Lemma new_parameters (sampleInterval attackTime decayTime sustainLevel : R) :
  let e := new sampleInterval attackTime decayTime sustainLevel in
  SAMPLE_INTERVAL_ e = sampleInterval /\ attackTime_ e = attackTime /\
  decayTime_ e = decayTime /\ sustainLevel_ e = sustainLevel /\
  amplitudeCoefficient_ e = 0 /\ phase_ e = INACTIVE.
Proof. cbv zeta. repeat split; evaluate; reflexivity. Qed.

(** ** The invariant *)

Lemma quotient_nonneg (x y : R) : 0 <= x -> 0 < y -> 0 <= x / y.
Proof.
  intros Hx Hy. unfold Rdiv. apply Rmult_le_pos; [assumption|].
  left. now apply Rinv_0_lt_compat.
Qed.

Lemma consistent_recomputePhaseSteps_ (e : t) :
  0 <= SAMPLE_INTERVAL_ e -> 0 <= sustainLevel_ e <= 1 ->
  0 <= amplitudeCoefficient_ e <= 1 ->
  consistent (recomputePhaseSteps_ e).
Proof.
  intros HT Hs Ha.
  unfold consistent, recomputePhaseSteps_, recomputePhaseSteps_with.
  destruct (Rle_dec (attackTime_ e) 0); fields;
    destruct (Rle_dec (decayTime_ e) 0); fields;
    repeat split; try lra; try tauto;
    try (apply quotient_nonneg; nra).
Qed.

Lemma consistent_advance (e : t) : consistent e -> consistent (advance e).
Proof.
  unfold consistent, advance. intros (HT & Hs & Ha & Hat & Hd & Hr & Hz).
  destruct (phase_ e); fields;
    repeat match goal with
      | |- context [Rle_dec ?a ?b] => destruct (Rle_dec a b)
      | |- context [Rge_dec ?a ?b] => destruct (Rge_dec a b)
      end; fields; repeat split; try lra; try tauto.
Qed.

Lemma consistent_startRelease (e : t) :
  consistent e -> consistent (startRelease e).
Proof.
  unfold consistent, startRelease, startRelease_with.
  intros (HT & Hs & Ha & Hat & Hd & Hr & Hz).
  destruct (Phase__eq_dec (phase_ e) RELEASE); [tauto|].
  destruct (Rle_dec (decayTime_ e) 0); fields; repeat split; try lra; try tauto.
  apply quotient_nonneg; nra.
Qed.

Lemma consistent_startAttack (e : t) :
  consistent e -> consistent (startAttack e).
Proof.
  intros (HT & Hs & Ha & _).
  pose proof (consistent_recomputePhaseSteps_ e HT Hs Ha) as H.
  unfold startAttack. revert H. generalize (recomputePhaseSteps_ e).
  unfold consistent. intros e' H. fields. repeat split; try tauto; lra.
Qed.

Lemma consistent_call (e : t) (c : Call) :
  consistent e -> inRange c -> consistent (call e c).
Proof.
  intros H Hc. pose proof H as (HT & Hs & Ha & _).
  destruct c; cbn [call inRange] in *.
  - now apply consistent_startAttack.
  - now apply consistent_startRelease.
  - now apply consistent_recomputePhaseSteps_.
  - now apply consistent_recomputePhaseSteps_.
  - now apply consistent_recomputePhaseSteps_.
  - now apply consistent_advance.
Qed.

Lemma consistent_new (sampleInterval attackTime decayTime sustainLevel : R) :
  0 <= sampleInterval -> 0 <= sustainLevel <= 1 ->
  consistent (new sampleInterval attackTime decayTime sustainLevel).
Proof.
  intros HT Hs. apply consistent_recomputePhaseSteps_; cbn; lra.
Qed.

Lemma consistent_calls (cs : list Call) : forall e : t,
  consistent e -> Forall inRange cs -> consistent (calls cs e).
Proof.
  induction cs as [|c cs IH]; intros e He Hcs; [assumption|].
  inversion Hcs; subst. cbn. apply IH; [|assumption].
  now apply consistent_call.
Qed.

(** C4.  For an envelope constructed with a sample interval that is not
    negative and a sustain level in [0, 1], the amplitude coefficient is in
    [0, 1] after every sequence of calls of [startAttack], [startRelease],
    [setAttackTime], [setDecayTime], [setSustainLevel] (with levels in [0, 1])
    and [getNextAmplitudeCoefficient], the empty sequence included. *)
Theorem amplitudeCoefficient_in_unit_interval
    (sampleInterval attackTime decayTime sustainLevel : R) (cs : list Call) :
  0 <= sampleInterval -> 0 <= sustainLevel <= 1 -> Forall inRange cs ->
  0 <= amplitudeCoefficient_
         (calls cs (new sampleInterval attackTime decayTime sustainLevel))
    <= 1.
Proof.
  intros HT Hs Hcs.
  apply (consistent_calls cs
           (new sampleInterval attackTime decayTime sustainLevel)).
  - now apply consistent_new.
  - assumption.
Qed.

(** The theorem at a note that is struck, sampled, released, has its knobs
    turned and is sampled again. *)
Lemma amplitudeCoefficient_in_unit_interval_witness :
  0 <= amplitudeCoefficient_
         (calls [CallStartAttack; CallGetNextAmplitudeCoefficient;
                 CallStartRelease; CallSetDecayTime 2;
                 CallSetSustainLevel (1 / 4); CallSetAttackTime 0;
                 CallGetNextAmplitudeCoefficient]
                (new 1 1 2 (1 / 2)))
    <= 1.
Proof.
  apply (amplitudeCoefficient_in_unit_interval 1 1 2 (1 / 2)); try lra.
  repeat constructor; cbn; lra.
Defined.

(** ** Release *)

(** C5.  A second [startRelease] right after the first changes nothing: the
    state is the one that a single call leaves, so every later coefficient is
    the same; on a state whose phase is [RELEASE] the call is the identity
    (the release step is not recomputed), and no call of [startRelease] moves
    the amplitude. *)
Theorem startRelease_idempotent (e : t) (n : nat) :
  startRelease (startRelease e) = startRelease e /\
  coefficient n (startRelease (startRelease e))
  = coefficient n (startRelease e) /\
  startRelease (set_phase_ RELEASE e) = set_phase_ RELEASE e /\
  amplitudeCoefficient_ (startRelease e) = amplitudeCoefficient_ e.
Proof.
  assert (startRelease (startRelease e) = startRelease e) as H.
  { unfold startRelease, startRelease_with.
    destruct (Phase__eq_dec (phase_ e) RELEASE) as [E|N].
    - destruct (Phase__eq_dec (phase_ e) RELEASE); congruence.
    - destruct (Rle_dec (decayTime_ e) 0); reflexivity. }
  split; [exact H|]. split; [now rewrite H|]. split.
  - reflexivity.
  - unfold startRelease, startRelease_with.
    destruct (Phase__eq_dec (phase_ e) RELEASE); [reflexivity|].
    destruct (Rle_dec (decayTime_ e) 0); reflexivity.
Qed.

Lemma startRelease_phase (e : t) : phase_ (startRelease e) = RELEASE.
Proof.
  unfold startRelease, startRelease_with.
  destruct (Phase__eq_dec (phase_ e) RELEASE); [assumption|reflexivity].
Qed.

Lemma startRelease_amplitude (e : t) :
  amplitudeCoefficient_ (startRelease e) = amplitudeCoefficient_ e.
Proof.
  unfold startRelease, startRelease_with.
  destruct (Phase__eq_dec (phase_ e) RELEASE); [reflexivity|].
  destruct (Rle_dec (decayTime_ e) 0); reflexivity.
Qed.

(** The two divisions of the source are guarded: a division that differs
    from the real one at divisors that are not positive gives the same
    steps. *)
Lemma division_only_by_positive (div : R -> R -> R) (e : t) :
  (forall x y, 0 < y -> div x y = x / y) ->
  recomputePhaseSteps_with div e = recomputePhaseSteps_ e /\
  startRelease_with div e = startRelease e.
Proof.
  intros Hdiv. unfold recomputePhaseSteps_, startRelease, startRelease_with,
    recomputePhaseSteps_with. split.
  - destruct (Rle_dec (attackTime_ e) 0); fields;
      destruct (Rle_dec (decayTime_ e) 0); try reflexivity;
      rewrite ?Hdiv by lra; reflexivity.
  - destruct (Phase__eq_dec (phase_ e) RELEASE); [reflexivity|].
    destruct (Rle_dec (decayTime_ e) 0); [reflexivity|].
    rewrite Hdiv by lra. reflexivity.
Qed.

(** C6.  In every state [e] that a client can reach (sample interval not
    negative, sustain levels in [0, 1]): if the attack time is not positive,
    [startAttack] sets the attack step to 1 and the next sample returns 1; if
    the decay time is not positive, the decay and release steps are 1, a
    sample taken in [DECAY] lands on the sustain level in [SUSTAIN], and the
    sample that follows [startRelease] lands on 0 in [INACTIVE]; and neither
    [recomputePhaseSteps_] nor [startRelease] consults the division at a
    divisor that is not positive. *)
Theorem nonpositive_times_are_instantaneous
    (sampleInterval attackTime decayTime sustainLevel : R) (cs : list Call)
    (div : R -> R -> R) :
  0 <= sampleInterval -> 0 <= sustainLevel <= 1 -> Forall inRange cs ->
  (forall x y, 0 < y -> div x y = x / y) ->
  let e := calls cs (new sampleInterval attackTime decayTime sustainLevel) in
  (attackTime_ e <= 0 ->
     attackStep_ (startAttack e) = 1 /\
     getNextAmplitudeCoefficient (startAttack e)
     = (1, set_phase_ DECAY (set_amplitudeCoefficient_ 1 (startAttack e)))) /\
  (decayTime_ e <= 0 ->
     decayStep_ e = 1 /\ releaseStep_ e = 1 /\
     releaseStep_ (startRelease e) = 1 /\
     (phase_ e = DECAY ->
        getNextAmplitudeCoefficient e
        = (sustainLevel_ e,
           set_phase_ SUSTAIN
             (set_amplitudeCoefficient_ (sustainLevel_ e) e))) /\
     getNextAmplitudeCoefficient (startRelease e)
     = (0, set_phase_ INACTIVE
             (set_amplitudeCoefficient_ 0 (startRelease e)))) /\
  recomputePhaseSteps_with div e = recomputePhaseSteps_ e /\
  startRelease_with div e = startRelease e.
Proof.
  intros HT Hs Hcs Hdiv e.
  assert (consistent e) as He
    by (apply consistent_calls; [now apply consistent_new | assumption]).
  clearbody e. destruct He as (_ & Hsl & Ha & _ & _ & _ & Hz).
  split; [|split].
  - intros Hat.
    assert (attackStep_ (startAttack e) = 1) as Hstep.
    { unfold startAttack, recomputePhaseSteps_, recomputePhaseSteps_with.
      destruct (Rle_dec (attackTime_ e) 0); [|lra]. fields.
      destruct (Rle_dec (decayTime_ e) 0); reflexivity. }
    split; [exact Hstep|].
    unfold getNextAmplitudeCoefficient.
    rewrite advance_attack_top; [reflexivity | reflexivity |].
    rewrite Hstep. cbn. lra.
  - intros Hdt. destruct (Hz Hdt) as [Hd Hr].
    assert (releaseStep_ (startRelease e) = 1) as Hr'.
    { unfold startRelease, startRelease_with.
      destruct (Phase__eq_dec (phase_ e) RELEASE); [assumption|].
      destruct (Rle_dec (decayTime_ e) 0); [reflexivity|lra]. }
    pose proof (startRelease_amplitude e) as Ha'.
    pose proof (startRelease_phase e) as Hp'.
    repeat split; try assumption.
    + intros Hp. unfold getNextAmplitudeCoefficient.
      rewrite advance_decay_bottom; [reflexivity | assumption | lra].
    + unfold getNextAmplitudeCoefficient, advance. rewrite Hp'. fields.
      rewrite Hr', Ha'. destruct (Rle_dec (amplitudeCoefficient_ e - 1) 0);
        [reflexivity | lra].
  - now apply division_only_by_positive.
Qed.

(** The theorem at an envelope with an attack time and a decay time of 0,
    struck and sampled once, which leaves it in [DECAY] at 1. *)
Lemma nonpositive_times_are_instantaneous_witness :
  let e :=
    calls [CallStartAttack; CallGetNextAmplitudeCoefficient]
          (new 1 0 0 (1 / 2)) in
  e = Build 1 1 DECAY 0 1 0 1 (1 / 2) 1 /\
  fst (getNextAmplitudeCoefficient (startAttack e)) = 1 /\
  getNextAmplitudeCoefficient e
  = (1 / 2, Build 1 (1 / 2) SUSTAIN 0 1 0 1 (1 / 2) 1) /\
  fst (getNextAmplitudeCoefficient (startRelease e)) = 0 /\
  phase_ (snd (getNextAmplitudeCoefficient (startRelease e))) = INACTIVE.
Proof.
  pose proof (nonpositive_times_are_instantaneous 1 0 0 (1 / 2)
                [CallStartAttack; CallGetNextAmplitudeCoefficient] Rdiv) as H.
  cbv zeta in *.
  destruct H as (Hattack & Hdecay & _);
    [lra | lra | repeat constructor | reflexivity |].
  assert (calls [CallStartAttack; CallGetNextAmplitudeCoefficient]
                (new 1 0 0 (1 / 2))
          = Build 1 1 DECAY 0 1 0 1 (1 / 2) 1) as E.
  { unfold calls. cbn [fold_left call].
    assert (new 1 0 0 (1 / 2) = Build 1 0 INACTIVE 0 1 0 1 (1 / 2) 1) as ->
      by (evaluate; records; f_equal; lra).
    assert (startAttack (Build 1 0 INACTIVE 0 1 0 1 (1 / 2) 1)
            = Build 1 0 ATTACK 0 1 0 1 (1 / 2) 1) as ->
      by (evaluate; records; f_equal; lra).
    evaluate; records; f_equal; lra. }
  rewrite E in *. cbn [attackTime_ decayTime_ phase_ sustainLevel_] in *.
  destruct Hattack as [_ Hattack]; [lra|].
  destruct Hdecay as (_ & _ & _ & Hsample & Hrelease); [lra|].
  rewrite Hattack, Hrelease, (Hsample eq_refl).
  repeat split; reflexivity.
Defined.

(** What sets the release step.  [startRelease], outside [RELEASE], computes
    it from the amplitude (1 when the decay time is not positive); no sample
    changes it, and a sample taken in [RELEASE] subtracts it, stopping at 0;
    but each of [setDecayTime], [setAttackTime] and [setSustainLevel]
    recomputes it from the sustain level, whatever the phase, and leaves the
    phase as it is. *)
Lemma releaseStep_recomputed_by_setters (e : t) (n : nat) (time level : R) :
  releaseStep_ (startRelease e)
  = (if Phase__eq_dec (phase_ e) RELEASE then releaseStep_ e
     else if Rle_dec (decayTime_ e) 0 then 1
     else amplitudeCoefficient_ e * SAMPLE_INTERVAL_ e / decayTime_ e) /\
  phase_ (startRelease e) = RELEASE /\
  releaseStep_ (after n e) = releaseStep_ e /\
  coefficient 1 (set_phase_ RELEASE e)
  = (if Rle_dec (amplitudeCoefficient_ e - releaseStep_ e) 0 then 0
     else amplitudeCoefficient_ e - releaseStep_ e) /\
  releaseStep_ (setDecayTime time e)
  = (if Rle_dec time 0 then 1
     else sustainLevel_ e * SAMPLE_INTERVAL_ e / time) /\
  releaseStep_ (setAttackTime time e)
  = (if Rle_dec (decayTime_ e) 0 then 1
     else sustainLevel_ e * SAMPLE_INTERVAL_ e / decayTime_ e) /\
  releaseStep_ (setSustainLevel level e)
  = (if Rle_dec (decayTime_ e) 0 then 1
     else level * SAMPLE_INTERVAL_ e / decayTime_ e) /\
  phase_ (setDecayTime time e) = phase_ e /\
  phase_ (setAttackTime time e) = phase_ e /\
  phase_ (setSustainLevel level e) = phase_ e.
Proof.
  repeat split.
  - unfold startRelease, startRelease_with.
    destruct (Phase__eq_dec (phase_ e) RELEASE); [reflexivity|].
    destruct (Rle_dec (decayTime_ e) 0); reflexivity.
  - apply startRelease_phase.
  - induction n as [|n IH]; [reflexivity|].
    cbn [after getNextAmplitudeCoefficient snd]. rewrite <- IH.
    generalize (after n e). intros e'. unfold advance.
    destruct (phase_ e'); fields; try reflexivity;
      match goal with
      | |- context [Rle_dec ?a ?b] => destruct (Rle_dec a b)
      | |- context [Rge_dec ?a ?b] => destruct (Rge_dec a b)
      end; reflexivity.
  - cbn [coefficient after getNextAmplitudeCoefficient fst]. unfold advance.
    fields. destruct (Rle_dec _ 0); reflexivity.
  - evaluate; reflexivity.
  - evaluate; reflexivity.
  - evaluate; reflexivity.
  - evaluate; reflexivity.
  - evaluate; reflexivity.
  - evaluate; reflexivity.
Qed.

(** C2.  The code at a release that a setter interrupts.  A note is released
    at amplitude 1 with a decay time of 2 s, at one sample per second: the
    release step that [startRelease] computes from the amplitude is 1/2, for
    a release of two samples.  [setDecayTime 2], which sets the decay time to
    the value it has, overwrites the release step with 1/4 while the phase
    is [RELEASE], and the next sample returns 3/4 where it would have
    returned 1/2. *)
Theorem releaseStep_changes_mid_release :
  let e := startRelease (after 1 (startAttack (new 1 1 2 (1 / 2)))) in
  phase_ e = RELEASE /\ amplitudeCoefficient_ e = 1 /\
  releaseStep_ e = 1 / 2 /\
  phase_ (setDecayTime 2 e) = RELEASE /\
  releaseStep_ (setDecayTime 2 e) = 1 / 4 /\
  coefficient 1 e = 1 / 2 /\
  coefficient 1 (setDecayTime 2 e) = 3 / 4.
Proof.
  cbv zeta.
  assert (startAttack (new 1 1 2 (1 / 2))
          = Build 1 0 ATTACK 1 1 2 (1 / 4) (1 / 2) (1 / 4)) as ->
    by (evaluate; records; f_equal; lra).
  assert (after 1 (Build 1 0 ATTACK 1 1 2 (1 / 4) (1 / 2) (1 / 4))
          = Build 1 1 DECAY 1 1 2 (1 / 4) (1 / 2) (1 / 4)) as ->
    by (evaluate; records; f_equal; lra).
  assert (startRelease (Build 1 1 DECAY 1 1 2 (1 / 4) (1 / 2) (1 / 4))
          = Build 1 1 RELEASE 1 1 2 (1 / 4) (1 / 2) (1 / 2)) as ->
    by (evaluate; records; f_equal; lra).
  assert (setDecayTime 2 (Build 1 1 RELEASE 1 1 2 (1 / 4) (1 / 2) (1 / 2))
          = Build 1 1 RELEASE 1 1 2 (1 / 4) (1 / 2) (1 / 4)) as ->
    by (evaluate; records; f_equal; lra).
  repeat split; evaluate; try reflexivity; lra.
Qed.

(** ** Single calls *)

Lemma set_amplitudeCoefficient__same (e : t) :
  set_amplitudeCoefficient_ (amplitudeCoefficient_ e) e = e.
Proof. destruct e. reflexivity. Qed.

Lemma advance_release_above (e : t) :
  phase_ e = RELEASE -> 0 < amplitudeCoefficient_ e - releaseStep_ e ->
  advance e
  = set_amplitudeCoefficient_ (amplitudeCoefficient_ e - releaseStep_ e) e.
Proof.
  intros Hp Hlt. unfold advance. rewrite Hp. cbn.
  destruct (Rle_dec _ _); [lra | reflexivity].
Qed.

Lemma advance_release_bottom (e : t) :
  phase_ e = RELEASE -> amplitudeCoefficient_ e - releaseStep_ e <= 0 ->
  advance e = set_phase_ INACTIVE (set_amplitudeCoefficient_ 0 e).
Proof.
  intros Hp Hge. unfold advance. rewrite Hp. cbn.
  destruct (Rle_dec _ _); [reflexivity | lra].
Qed.

(** ** The setters *)

Lemma recomputePhaseSteps__fields (e : t) :
  recomputePhaseSteps_ e
  = Build (SAMPLE_INTERVAL_ e) (amplitudeCoefficient_ e) (phase_ e)
      (attackTime_ e)
      (if Rle_dec (attackTime_ e) 0 then 1
       else SAMPLE_INTERVAL_ e / attackTime_ e)
      (decayTime_ e)
      (if Rle_dec (decayTime_ e) 0 then 1
       else (1 - sustainLevel_ e) * SAMPLE_INTERVAL_ e / decayTime_ e)
      (sustainLevel_ e)
      (if Rle_dec (decayTime_ e) 0 then 1
       else sustainLevel_ e * SAMPLE_INTERVAL_ e / decayTime_ e).
Proof.
  unfold recomputePhaseSteps_, recomputePhaseSteps_with.
  destruct (Rle_dec (attackTime_ e) 0); fields;
    destruct (Rle_dec (decayTime_ e) 0); reflexivity.
Qed.

(** X3.  The three setters commute with one another, in every phase: the
    state they leave depends on the values set and not on the order of the
    calls, since each one stores its value and recomputes all three steps from
    the stored parameters. *)
Theorem setters_commute (e : t) (attackTime decayTime sustainLevel : R) :
  setAttackTime attackTime (setDecayTime decayTime e)
  = setDecayTime decayTime (setAttackTime attackTime e) /\
  setAttackTime attackTime (setSustainLevel sustainLevel e)
  = setSustainLevel sustainLevel (setAttackTime attackTime e) /\
  setDecayTime decayTime (setSustainLevel sustainLevel e)
  = setSustainLevel sustainLevel (setDecayTime decayTime e) /\
  setSustainLevel sustainLevel
    (setDecayTime decayTime (setAttackTime attackTime e))
  = recomputePhaseSteps_
      (Build (SAMPLE_INTERVAL_ e) (amplitudeCoefficient_ e) (phase_ e)
         attackTime (attackStep_ e) decayTime (decayStep_ e) sustainLevel
         (releaseStep_ e)).
Proof.
  unfold setAttackTime, setDecayTime, setSustainLevel.
  rewrite !recomputePhaseSteps__fields. fields. repeat split; reflexivity.
Qed.

(** X4.  [startAttack] forgets the past: the state it leaves is the one it
    would leave on a freshly constructed envelope with the same sample interval
    and parameters, whatever the phase, the amplitude and the steps were; the
    amplitude restarts from 0 in [ATTACK]. *)
Theorem startAttack_forgets (e : t) :
  startAttack e
  = startAttack (new (SAMPLE_INTERVAL_ e) (attackTime_ e) (decayTime_ e)
                     (sustainLevel_ e)) /\
  amplitudeCoefficient_ (startAttack e) = 0 /\
  phase_ (startAttack e) = ATTACK.
Proof.
  unfold startAttack, new. rewrite !recomputePhaseSteps__fields. fields.
  repeat split; reflexivity.
Qed.

(** ** A release that never ends *)

Lemma after_stalled (n : nat) (e : t) :
  phase_ e = RELEASE -> releaseStep_ e = 0 -> 0 < amplitudeCoefficient_ e ->
  after n e = e.
Proof.
  intros Hp Hr Ha. induction n as [|n IH]; [reflexivity|].
  cbn [after getNextAmplitudeCoefficient snd]. rewrite IH.
  rewrite advance_release_above by (try assumption; lra).
  rewrite Hr, Rminus_0_r. apply set_amplitudeCoefficient__same.
Qed.

(** X5.  With a sustain level of 0 and a positive decay time, a setter called
    during [RELEASE] recomputes the release step to 0: the envelope then stays
    in [RELEASE] at the amplitude it had, for every number of samples. *)
Theorem release_stalls_at_sustain_0 (e : t) (time : R) (n : nat) :
  phase_ e = RELEASE -> sustainLevel_ e = 0 -> 0 < decayTime_ e ->
  0 < amplitudeCoefficient_ e ->
  releaseStep_ (setAttackTime time e) = 0 /\
  phase_ (after n (setAttackTime time e)) = RELEASE /\
  coefficient n (setAttackTime time e) = amplitudeCoefficient_ e.
Proof.
  intros Hp Hs Hd Ha.
  assert (releaseStep_ (setAttackTime time e) = 0) as Hr.
  { unfold setAttackTime. rewrite recomputePhaseSteps__fields. fields.
    destruct (Rle_dec (decayTime_ e) 0); [lra|].
    rewrite Hs. unfold Rdiv. ring. }
  assert (phase_ (setAttackTime time e) = RELEASE) as Hp'.
  { unfold setAttackTime. rewrite recomputePhaseSteps__fields. exact Hp. }
  assert (amplitudeCoefficient_ (setAttackTime time e)
          = amplitudeCoefficient_ e) as Ha'.
  { unfold setAttackTime. rewrite recomputePhaseSteps__fields. reflexivity. }
  split; [exact Hr|].
  rewrite coefficient_after, after_stalled by (try assumption; lra).
  split; assumption.
Qed.

(** The theorem at an envelope released at one half with a sustain level of
    0, five samples after its attack time is set. *)
Lemma release_stalls_at_sustain_0_witness :
  let e := Build 1 (1 / 2) RELEASE 1 1 2 (1 / 2) 0 (1 / 4) in
  releaseStep_ (setAttackTime 3 e) = 0 /\
  phase_ (after 5 (setAttackTime 3 e)) = RELEASE /\
  coefficient 5 (setAttackTime 3 e) = amplitudeCoefficient_ e.
Proof.
  intros e. apply (release_stalls_at_sustain_0 e 3 5); unfold e; fields;
    [reflexivity | reflexivity | lra | lra].
Defined.

(** ** Silence before the first key *)

Lemma silent_call (e : t) (c : Call) :
  silent e -> inRange c -> unstruck c -> silent (call e c).
Proof.
  intros (Hc & Ha & Hp) Hr Hu. split; [now apply consistent_call|].
  destruct c; cbn [call unstruck] in *; try contradiction.
  - rewrite startRelease_amplitude, startRelease_phase.
    split; [assumption|now right].
  - unfold setAttackTime. rewrite recomputePhaseSteps__fields. fields. tauto.
  - unfold setDecayTime. rewrite recomputePhaseSteps__fields. fields. tauto.
  - unfold setSustainLevel. rewrite recomputePhaseSteps__fields. fields. tauto.
  - cbn [getNextAmplitudeCoefficient snd].
    destruct Hc as (_ & _ & _ & _ & _ & Hrs & _).
    destruct Hp as [Hp|Hp].
    + unfold advance. rewrite Hp. tauto.
    + rewrite advance_release_bottom by (try assumption; lra).
      fields. split; [reflexivity|now left].
Qed.

(** X6.  A freshly constructed envelope stays at amplitude 0 under every
    sequence of calls that does not contain [startAttack]: sampling, releasing
    and turning the knobs (to sustain levels between 0 and 1) raise
    nothing. *)
Theorem silent_until_struck
    (sampleInterval attackTime decayTime sustainLevel : R) (cs : list Call) :
  0 <= sampleInterval -> 0 <= sustainLevel <= 1 ->
  Forall inRange cs -> Forall unstruck cs ->
  amplitudeCoefficient_
    (calls cs (new sampleInterval attackTime decayTime sustainLevel)) = 0.
Proof.
  intros HT Hs Hr Hu.
  enough (silent (calls cs (new sampleInterval attackTime decayTime
                                sustainLevel))) as H by apply H.
  assert (silent (new sampleInterval attackTime decayTime sustainLevel)) as H0.
  { split; [now apply consistent_new|].
    destruct (new_parameters sampleInterval attackTime decayTime sustainLevel)
      as (_ & _ & _ & _ & Ha & Hp). split; [exact Ha | now left]. }
  revert H0. generalize (new sampleInterval attackTime decayTime sustainLevel).
  induction cs as [|c cs IH]; intros e He; [exact He|].
  inversion Hr; inversion Hu; subst. cbn [calls fold_left].
  apply IH; try assumption. now apply silent_call.
Qed.

(** The theorem at a fresh envelope that is sampled, released, has two knobs
    turned and is sampled again. *)
Lemma silent_until_struck_witness :
  amplitudeCoefficient_
    (calls [CallGetNextAmplitudeCoefficient; CallStartRelease;
            CallSetDecayTime 2; CallSetSustainLevel (1 / 4);
            CallGetNextAmplitudeCoefficient]
           (new 1 1 2 (1 / 2))) = 0.
Proof.
  apply (silent_until_struck 1 1 2 (1 / 2)); try lra.
  - repeat constructor; cbn; lra.
  - repeat constructor.
Defined.

End EnvelopeGeneratorFacts.

(** * Properties of the oscillator *)

Section OscillatorFacts.
Import Oscillator.

Ltac fields :=
  cbn [SAMPLE_INTERVAL_ phase_ volume_ waveForm_ range_ pitchBend_
       isAcceptingKeyboardPitch_ isFrequencyModulationOn_ IS_MODULATOR_
       modulatorLevel_ modulatorSignal isGlideOn_ glideDuration_ glideDelta_
       currentGlidePitch_ targetGlidePitch_ activeNote_ envelopeGenerator
       set_phase_ set_modulatorSignal set_glideDelta_ set_currentGlidePitch_
       set_targetGlidePitch_ set_activeNote_ set_envelopeGenerator
       toNumber fst snd] in *.

(** ** The frequency of a key *)

(** [2^(-4/12)], the ratio of the F below low A to low A: its cube is one
    half. *)
Lemma low_F_ratio :
  0 < Math_pow 2 (-4 / 12) /\
  Math_pow 2 (-4 / 12) * Math_pow 2 (-4 / 12) * Math_pow 2 (-4 / 12) = 1 / 2.
Proof.
  unfold Math_pow. split; [apply exp_pos|].
  rewrite <- !Rpower_plus.
  replace (-4 / 12 + -4 / 12 + -4 / 12) with (- (1)) by field.
  rewrite Rpower_Ropp, Rpower_1 by lra. lra.
Qed.

Lemma low_F_ratio_bounds : 43 / 55 < Math_pow 2 (-4 / 12) < 44 / 55.
Proof.
  destruct low_F_ratio as [Hpos Hcube].
  set (x := Math_pow 2 (-4 / 12)) in *.
  split; nra.
Qed.

Lemma getPitchBend__centred (o : t) : pitchBend_ o = 0 -> getPitchBend_ o = 1.
Proof.
  intros H. unfold getPitchBend_, Math_abs. rewrite H, Rmult_0_l, Rabs_R0.
  destruct (Rge_dec 0 0); lra.
Qed.

Lemma getGlideFrequency__settled (o : t) (target : R) :
  settled o target -> fst (getGlideFrequency_ o target) = target.
Proof.
  intros H. unfold getGlideFrequency_.
  enough (snaps o target = true) as -> by reflexivity.
  unfold snaps. destruct H as [-> | ->]; [reflexivity|].
  destruct (isGlideOn_ o); [|reflexivity].
  destruct (Rle_dec (glideDuration_ o) 0); [reflexivity|].
  unfold Math_abs. replace (target - target) with 0 by ring. rewrite Rabs_R0.
  destruct (Rle_dec 0 _) as [|N]; [reflexivity|].
  exfalso. apply N, Rabs_pos.
Qed.

Lemma getGlideFrequency__frame (o : t) (target : R) :
  isFrequencyModulationOn_ (snd (getGlideFrequency_ o target))
  = isFrequencyModulationOn_ o.
Proof.
  unfold getGlideFrequency_. destruct (snaps o target); [reflexivity|].
  destruct (targetDiffers o target); reflexivity.
Qed.

Lemma generatedFrequency_unmodulated (o : t) (ms : option (list R)) (i : nat) :
  pitchBend_ o = 0 -> isFrequencyModulationOn_ o = false ->
  settled o (getInstantaneousFrequency_ o (activeNote_ o)) ->
  generatedFrequency o ms i = getInstantaneousFrequency_ o (activeNote_ o).
Proof.
  intros Hb Hm Hs. unfold generatedFrequency, playedFrequency.
  pose proof (getGlideFrequency__settled o _ Hs) as Hg.
  pose proof (getGlideFrequency__frame o
                (getInstantaneousFrequency_ o (activeNote_ o))) as Hf.
  destruct (getGlideFrequency_ o _) as [glide o']. cbn [fst snd] in *.
  subst glide. rewrite (getPitchBend__centred o Hb).
  unfold getModulationFrequency_. rewrite Hf, Hm. destruct ms; lra.
Qed.

(** C3, as the code has it.  For an oscillator at range 1, with no pitch
    bend, keyboard pitch tracking on, frequency modulation off and the glide
    settled: at note 0 the generated frequency is 55 * 2^(-4/12) Hz, between
    43 and 44 Hz; it is exactly 55 Hz at note 4, the key that [NOTE_OFFSET_]
    maps to low A. *)
Theorem frequency_of_lowest_key (o : t) (modulatorSignal' : option (list R))
    (i : nat) :
  range_ o = 1 -> pitchBend_ o = 0 -> isAcceptingKeyboardPitch_ o = true ->
  isFrequencyModulationOn_ o = false ->
  settled o (getInstantaneousFrequency_ o (activeNote_ o)) ->
  (activeNote_ o = 0 ->
     generatedFrequency o modulatorSignal' i = 55 * Math_pow 2 (-4 / 12) /\
     43 < generatedFrequency o modulatorSignal' i < 44) /\
  (activeNote_ o = 4 -> generatedFrequency o modulatorSignal' i = 55).
Proof.
  intros Hr Hb Hk Hm Hs.
  rewrite (generatedFrequency_unmodulated o _ _ Hb Hm Hs).
  unfold getInstantaneousFrequency_, BASE_FREQUENCY_, NOTE_OFFSET_.
  rewrite Hr, Hk. split; intros ->.
  - replace ((0 + -4) / 12) with (-4 / 12) by field.
    pose proof low_F_ratio_bounds. split; lra.
  - replace ((4 + -4) / 12) with 0 by field.
    unfold Math_pow. rewrite Rpower_O by lra. lra.
Qed.

(** The theorem at [lowestKey] moved to note 4. *)
Lemma frequency_of_lowest_key_witness :
  activeNote_ (setActiveNote 4 lowestKey) = 4 /\
  generatedFrequency (setActiveNote 4 lowestKey) None 0 = 55.
Proof.
  split; [reflexivity|].
  apply (frequency_of_lowest_key (setActiveNote 4 lowestKey) None 0);
    try reflexivity.
  left. reflexivity.
Defined.

(** C3, as the claim has it, fails: [lowestKey] meets every condition of the
    claim and generates less than 44 Hz. *)
Lemma lowest_key_is_below_55_Hz :
  activeNote_ lowestKey = 0 /\ range_ lowestKey = 1 /\
  pitchBend_ lowestKey = 0 /\ isAcceptingKeyboardPitch_ lowestKey = true /\
  isFrequencyModulationOn_ lowestKey = false /\ isGlideOn_ lowestKey = false /\
  generatedFrequency lowestKey None 0 = 55 * Math_pow 2 (-4 / 12) /\
  generatedFrequency lowestKey None 0 < 44.
Proof.
  assert (generatedFrequency lowestKey None 0 = 55 * Math_pow 2 (-4 / 12))
    as E.
  { rewrite generatedFrequency_unmodulated;
      [| reflexivity | reflexivity | left; reflexivity].
    unfold getInstantaneousFrequency_, BASE_FREQUENCY_, NOTE_OFFSET_.
    cbn [lowestKey new isAcceptingKeyboardPitch_ range_ activeNote_].
    replace ((0 + -4) / 12) with (-4 / 12) by field. lra. }
  repeat split; try reflexivity; [exact E|].
  rewrite E. pose proof low_F_ratio_bounds. lra.
Qed.

(** ** The phase accumulator *)

Lemma cycle_progress (f : R) : 0 < f -> 2 / f * f / 2 = 1.
Proof. intros H. field. lra. Qed.

Lemma advancedPhase__sample_interval (o : t) (f : R) :
  SAMPLE_INTERVAL_ (snd (advancedPhase_ o f)) = SAMPLE_INTERVAL_ o.
Proof.
  unfold advancedPhase_. destruct (Rgt_dec (phase_ o) (2 / f)); reflexivity.
Qed.

Lemma advancedPhase__within (o : t) (f : R) :
  phase_ o <= 2 / f ->
  advancedPhase_ o f
  = (phase_ o * f / 2, set_phase_ (phase_ o + SAMPLE_INTERVAL_ o) o).
Proof.
  intros H. unfold advancedPhase_.
  destruct (Rgt_dec (phase_ o) (2 / f)); [lra | reflexivity].
Qed.

Lemma advancedPhase__beyond (o : t) (f : R) :
  phase_ o > 2 / f ->
  advancedPhase_ o f
  = ((phase_ o - 2 / f) * f / 2,
     set_phase_ (phase_ o - 2 / f + SAMPLE_INTERVAL_ o) o).
Proof.
  intros H. unfold advancedPhase_.
  destruct (Rgt_dec (phase_ o) (2 / f)); [reflexivity | lra].
Qed.

(** One call, entered with a phase of at most two cycles. *)
Lemma advancedPhase__one_wrap (o : t) (f : R) :
  0 < f -> 0 <= SAMPLE_INTERVAL_ o -> 0 <= phase_ o <= 2 * (2 / f) ->
  0 <= fst (advancedPhase_ o f) <= 1 /\
  0 <= phase_ (snd (advancedPhase_ o f)) <= 2 / f + SAMPLE_INTERVAL_ o.
Proof.
  intros Hf HT Hp.
  assert (0 < 2 / f) as Hc by (apply Rdiv_lt_0_compat; lra).
  assert (forall p, 0 <= p <= 2 / f -> 0 <= p * f / 2 <= 1) as Hprog.
  { intros p Hp'. rewrite <- (cycle_progress f Hf). unfold Rdiv at 1 3.
    split.
    - apply Rmult_le_pos; [|lra]. apply Rmult_le_pos; lra.
    - apply Rmult_le_compat_r; [lra|]. apply Rmult_le_compat_r; lra. }
  unfold advancedPhase_.
  destruct (Rgt_dec (phase_ o) (2 / f)); fields; split;
    try (apply Hprog; lra); lra.
Qed.

(** One call of [quarterSecond], four samples per second, entered with a
    phase within the cycle. *)
Lemma quarterSecond_step (x f : R) :
  x <= 2 / f ->
  advancedPhase_ (set_phase_ x quarterSecond) f
  = (x * f / 2, set_phase_ (x + 1 / 4) quarterSecond).
Proof.
  intros H. rewrite advancedPhase__within by (cbn; lra).
  cbn. first [reflexivity | repeat f_equal; lra].
Qed.

(** By design the progress can be exactly 1 and the phase left behind more
    than a cycle: at four samples per second and a constant 2 Hz the cycle
    length is 1; the fifth call meets a phase of exactly 1, which is not
    beyond the cycle, returns a progress of 1, and leaves a phase of 5/4. *)
Lemma progress_reaches_1 :
  fst (advances [2; 2; 2; 2; 2] quarterSecond) = [0; 1 / 4; 1 / 2; 3 / 4; 1] /\
  phase_ (snd (advances [2; 2; 2; 2; 2] quarterSecond)) = 5 / 4.
Proof.
  change quarterSecond with (set_phase_ 0 quarterSecond) at 1 2.
  cbn [advances].
  repeat (rewrite quarterSecond_step by lra).
  cbn [fst snd]. split; [| cbn; lra].
  repeat (apply (f_equal2 cons); [lra|]). reflexivity.
Qed.

(** C7.  The code at a leap of the frequency.  At four samples per second,
    eight calls at 1 Hz (a cycle of 2 s) return the progress values 0, 1/8,
    ..., 7/8 and leave a phase of 2; the ninth call, at 8 Hz (a cycle of
    1/4 s), subtracts one cycle, which leaves 7/4, and returns a progress of
    7, and the phase it leaves is 2 again: the phase is not brought below
    one cycle, and the progress is outside the range [0, 1] that the
    function documents. *)
Theorem progress_after_a_leap :
  fst (advances [1; 1; 1; 1; 1; 1; 1; 1] quarterSecond)
  = [0; 1 / 8; 1 / 4; 3 / 8; 1 / 2; 5 / 8; 3 / 4; 7 / 8] /\
  phase_ (snd (advances [1; 1; 1; 1; 1; 1; 1; 1] quarterSecond)) = 2 /\
  fst (advances [1; 1; 1; 1; 1; 1; 1; 1; 8] quarterSecond)
  = [0; 1 / 8; 1 / 4; 3 / 8; 1 / 2; 5 / 8; 3 / 4; 7 / 8; 7] /\
  phase_ (snd (advances [1; 1; 1; 1; 1; 1; 1; 1; 8] quarterSecond)) = 2.
Proof.
  change quarterSecond with (set_phase_ 0 quarterSecond) at 1 2 3 4.
  cbn [advances].
  repeat (rewrite quarterSecond_step by lra).
  assert (advancedPhase_ (set_phase_ (0 + 1 / 4 + 1 / 4 + 1 / 4 + 1 / 4
                                      + 1 / 4 + 1 / 4 + 1 / 4 + 1 / 4)
                            quarterSecond) 8
          = (7, set_phase_ 2 quarterSecond)) as ->.
  { rewrite advancedPhase__beyond by (cbn; lra). cbn. f_equal; [lra|].
    unfold set_phase_. cbn. f_equal. lra. }
  cbn [fst snd].
  split; [repeat (apply (f_equal2 cons); [lra|]); reflexivity|].
  split; [cbn; lra|].
  split; [repeat (apply (f_equal2 cons); [lra|]); reflexivity|].
  reflexivity.
Qed.

(** ** Glide *)

Lemma getGlideFrequency__snap (o : t) (target : R) :
  snaps o target = true ->
  getGlideFrequency_ o target
  = (target,
     set_currentGlidePitch_ (Some target)
       (set_targetGlidePitch_ (Some target) o)).
Proof. intros H. unfold getGlideFrequency_. rewrite H. reflexivity. Qed.

Lemma getGlideFrequency__off (o : t) (target : R) :
  isGlideOn_ o = false -> snaps o target = true.
Proof. intros H. unfold snaps. rewrite H. reflexivity. Qed.

Lemma snaps_far (o : t) (target x : R) :
  isGlideOn_ o = true -> currentGlidePitch_ o = Some x ->
  0 < glideDuration_ o ->
  Math_abs (toNumber (glideDelta_ o)) < Math_abs (x - target) ->
  snaps o target = false.
Proof.
  intros Hg Hc Hd Hn. unfold snaps. rewrite Hg, Hc.
  destruct (Rle_dec (glideDuration_ o) 0); [lra|].
  destruct (Rle_dec _ _); [lra|reflexivity].
Qed.

Lemma gliding_next (o : t) (c target delta k : R) :
  set_currentGlidePitch_ (Some (c + k * delta + delta))
    (gliding o c target delta k)
  = gliding o c target delta (k + 1).
Proof.
  unfold gliding, set_currentGlidePitch_. fields. do 2 f_equal. ring.
Qed.

Lemma getGlideFrequency__step (o : t) (target c delta k : R) :
  isGlideOn_ o = true -> 0 < glideDuration_ o ->
  Math_abs delta < Math_abs (c + k * delta - target) ->
  getGlideFrequency_ (gliding o c target delta k) target
  = (c + (k + 1) * delta, gliding o c target delta (k + 1)).
Proof.
  intros Hg Hd Hn. unfold getGlideFrequency_.
  rewrite (snaps_far (gliding o c target delta k) target (c + k * delta));
    [| assumption | reflexivity | assumption | exact Hn].
  assert (targetDiffers (gliding o c target delta k) target = false) as ->.
  { unfold targetDiffers, gliding. fields.
    destruct (Req_dec_T target target); [reflexivity|congruence]. }
  unfold gliding, set_currentGlidePitch_. fields.
  f_equal; [ring|]. do 2 f_equal. ring.
Qed.

Lemma Math_abs_nonneg (x : R) : 0 <= x -> Math_abs x = x.
Proof. intros H. apply Rabs_pos_eq, H. Qed.

Lemma Math_abs_nonpos (x : R) : x <= 0 -> Math_abs x = - x.
Proof.
  intros H. unfold Math_abs. rewrite <- Rabs_Ropp. apply Rabs_pos_eq. lra.
Qed.

(** ** Filling a buffer *)

Lemma nth_insert_same (l : list R) (i : nat) (x d : R) :
  (i < length l)%nat -> nth i (<[i := x]> l) d = x.
Proof.
  revert i. induction l as [|y l IH]; intros [|i] H; cbn in *; try lia.
  - reflexivity.
  - apply IH. lia.
Qed.

Lemma nth_insert_other (l : list R) (i j : nat) (x d : R) :
  i <> j -> nth j (<[i := x]> l) d = nth j l d.
Proof.
  revert i j.
  induction l as [|y l IH]; intros [|i] [|j] H; cbn; try reflexivity.
  - lia.
  - apply IH. lia.
Qed.

Section Store.
Variables (fillMode : FillMode) (opt_mixDivisor : R).

Lemma store_length (i : nat) (a : R) (b : AudioBuffer) :
  length (channel0 (store fillMode opt_mixDivisor i a b))
  = length (channel0 b).
Proof. destruct fillMode; cbn; apply length_insert. Qed.

Lemma store_same (i : nat) (a : R) (b : AudioBuffer) :
  (i < length (channel0 b))%nat ->
  nth i (channel0 (store fillMode opt_mixDivisor i a b)) 0
  = mixed fillMode opt_mixDivisor (nth i (channel0 b) 0) a.
Proof. intros H. destruct fillMode; cbn; now apply nth_insert_same. Qed.

Lemma store_other (i j : nat) (a : R) (b : AudioBuffer) :
  i <> j ->
  nth j (channel0 (store fillMode opt_mixDivisor i a b)) 0
  = nth j (channel0 b) 0.
Proof. intros H. destruct fillMode; cbn; now apply nth_insert_other. Qed.

Lemma store_left (i : nat) (a : R) (b : AudioBuffer) :
  channel1 (store fillMode opt_mixDivisor i a b)
  = match fillMode with
    | MIX =>
        (fun l =>
           <[i := nth i (channel0 (store fillMode opt_mixDivisor i a b)) 0]> l)
          <$> channel1 b
    | _ => channel1 b
    end.
Proof. destruct fillMode; reflexivity. Qed.
End Store.

Section Loop.
Variables (targetFrequency pitchBend : R) (ms : option (list R))
          (fillMode : FillMode) (opt_mixDivisor : R).

Let round := iteration targetFrequency pitchBend ms fillMode opt_mixDivisor.
Let levels := fun o => audioLevels o targetFrequency pitchBend ms.

Lemma fill_loop (n : nat) : forall (start : nat) (o : t) (b : AudioBuffer),
  (start + n <= length (channel0 b))%nat ->
  let b' := snd (fold_left round (seq start n) (o, b)) in
  length (channel0 b') = length (channel0 b) /\
  (forall i, (start <= i < start + n)%nat ->
     nth i (channel0 b') 0
     = mixed fillMode opt_mixDivisor (nth i (channel0 b) 0)
         (nth (i - start) (levels o start n) 0)) /\
  (forall i, ~ (start <= i < start + n)%nat ->
     nth i (channel0 b') 0 = nth i (channel0 b) 0) /\
  match fillMode with
  | MIX =>
      match channel1 b with
      | None => channel1 b' = None
      | Some old =>
          exists new, channel1 b' = Some new /\
                        leftAfter start n (channel0 b') old new
      end
  | _ => channel1 b' = channel1 b
  end.
Proof.
  induction n as [|n IH]; intros start o b Hlen.
  - cbn. repeat split; try (intros; lia || reflexivity).
    destruct fillMode; try reflexivity.
    destruct (channel1 b) as [old|]; [|reflexivity].
    exists old. split; [reflexivity|]. split; [reflexivity|].
    intros i. destruct (decide _) as [[H _]|_]; [lia|reflexivity].
  - set (a := fst (sample o targetFrequency pitchBend ms start)).
    set (o1 := snd (sample o targetFrequency pitchBend ms start)).
    set (b1 := store fillMode opt_mixDivisor start a b).
    assert (round (o, b) start = (o1, b1)) as Hround.
    { unfold round, iteration, b1, a, o1.
      destruct (sample o targetFrequency pitchBend ms start); reflexivity. }
    assert (levels o start (S n) = a :: levels o1 (S start) n) as Hlevels.
    { unfold levels, a, o1. cbn [audioLevels].
      destruct (sample o targetFrequency pitchBend ms start); reflexivity. }
    cbn [seq fold_left]. rewrite Hround, Hlevels.
    assert (length (channel0 b1) = length (channel0 b)) as Hlen1
      by apply store_length.
    destruct (IH (S start) o1 b1) as (Hl & Hin & Hout & Hleft); [lia|].
    set (b' := snd (fold_left round (seq (S start) n) (o1, b1))) in *.
    cbv zeta. split; [congruence|]. split; [|split].
    + intros i Hi. destruct (Nat.eq_dec i start) as [->|Hne].
      * rewrite Hout by lia. rewrite Nat.sub_diag. cbn [nth].
        apply store_same. lia.
      * rewrite Hin by lia. unfold b1 at 1. rewrite store_other by lia.
        replace (i - start)%nat with (S (i - S start))%nat by lia.
        reflexivity.
    + intros i Hi. rewrite Hout by lia. apply store_other. lia.
    + pose proof (store_left fillMode opt_mixDivisor start a b) as Hst.
      fold b1 in Hst.
      destruct fillMode; try congruence.
      destruct (channel1 b) as [old|]; cbn [fmap option_fmap option_map] in Hst.
      * rewrite Hst in Hleft. destruct Hleft as (new & Hb' & Hlen' & Hnth).
        exists new. split; [exact Hb'|]. split.
        -- rewrite Hlen'. apply length_insert.
        -- intros i. rewrite Hnth. rewrite length_insert.
           destruct (decide ((S start <= i < S start + n)%nat /\ _))
             as [[H1 H2]|H].
           ++ destruct (decide _) as [_|H']; [reflexivity|]. exfalso. lia.
           ++ destruct (Nat.eq_dec i start) as [->|Hne].
              ** destruct (decide _) as [[_ H2]|H'].
                 --- rewrite nth_insert_same by exact H2.
                     symmetry. apply Hout. lia.
                 --- rewrite list_insert_ge by lia. reflexivity.
              ** rewrite nth_insert_other by lia.
                 destruct (decide _) as [[H1 H2]|_]; [|reflexivity].
                 exfalso. apply H. split; [lia|exact H2].
      * rewrite Hst in Hleft. exact Hleft.
Qed.
End Loop.

Lemma leftAfter_copied (right' old new : list R) :
  leftAfter 0 (length right') right' old new -> new = copied right' old.
Proof.
  intros [Hlen Hnth]. unfold copied.
  apply (nth_ext _ _ 0 0).
  - rewrite length_app, length_take, length_drop. lia.
  - intros i Hi. rewrite Hnth. rewrite Hlen in Hi.
    destruct (decide _) as [[H1 H2]|H].
    + rewrite app_nth1 by (rewrite length_take; lia).
      rewrite List.nth_firstn.
      destruct (Nat.ltb_spec i (length old)); [reflexivity|lia].
    + assert (length right' <= i)%nat as Hge by lia.
      rewrite app_nth2 by (rewrite length_take; lia).
      rewrite length_take, List.nth_skipn. f_equal. lia.
Qed.

Lemma copied_same_length (right' old : list R) :
  length old = length right' -> copied right' old = right'.
Proof.
  intros H. unfold copied.
  rewrite H, firstn_all, <- H, drop_all. apply app_nil_r.
Qed.

Lemma audioLevels_length (tf pb : R) (ms : option (list R)) (n : nat) :
  forall (start : nat) (o : t),
  length (audioLevels o tf pb ms start n) = n.
Proof.
  induction n as [|n IH]; intros start o'; [reflexivity|].
  cbn [audioLevels]. destruct (sample o' tf pb ms start) as [a o1].
  cbn. now rewrite IH.
Qed.

(** C10.  [fillAudioBuffer] computes one audio level per sample index; the
    filled channel 0 has the length of the buffer and holds, at every index,
    what the fill mode makes of the old sample and the audio level of that
    index; channel 1 is what it was under [CLOBBER] and [ADD], and under [MIX],
    when the buffer has it, it holds the new samples of channel 0 (as far as
    both channels reach). *)
Theorem fillAudioBuffer_channels (o : t) (buffer : AudioBuffer)
    (modulatorSignal' : option (list R)) (fillMode : FillMode)
    (opt_mixDivisor : R) :
  let o0 := allocate o buffer in
  let levels :=
    audioLevels o0 (getInstantaneousFrequency_ o0 (activeNote_ o0))
      (getPitchBend_ o0) modulatorSignal' 0 (buffer_length buffer) in
  let filled :=
    snd (fillAudioBuffer o buffer modulatorSignal' fillMode opt_mixDivisor) in
  length levels = buffer_length buffer /\
  length (channel0 filled) = buffer_length buffer /\
  (forall i, (i < buffer_length buffer)%nat ->
     nth i (channel0 filled) 0
     = mixed fillMode opt_mixDivisor (nth i (channel0 buffer) 0)
         (nth i levels 0)) /\
  channel1 filled
  = match fillMode with
    | MIX => copied (channel0 filled) <$> channel1 buffer
    | _ => channel1 buffer
    end.
Proof.
  intros o0 levels filled. unfold filled, fillAudioBuffer. fold o0.
  destruct (fill_loop (getInstantaneousFrequency_ o0 (activeNote_ o0))
              (getPitchBend_ o0) modulatorSignal' fillMode opt_mixDivisor
              (buffer_length buffer) 0 o0 buffer)
    as (Hlen & Hin & _ & Hleft); [unfold buffer_length; lia|].
  split; [apply audioLevels_length|]. split; [exact Hlen|]. split.
  - intros i Hi. rewrite Hin by lia. rewrite Nat.sub_0_r. reflexivity.
  - destruct fillMode; try exact Hleft.
    destruct (channel1 buffer) as [old|]; [|exact Hleft].
    destruct Hleft as (new & -> & Hafter). cbn. f_equal.
    apply leftAfter_copied. unfold buffer_length in Hafter.
    rewrite <- Hlen in Hafter at 1. exact Hafter.
Qed.

(** ** Pitch *)

Lemma normalized_bend (b scale : R) :
  -1 <= b <= 1 -> 1 <= scale ->
  1 <= Math_abs (b * (scale - 1)) + 1 <= scale.
Proof.
  intros Hb Hs. unfold Math_abs. rewrite Rabs_mult.
  rewrite (Rabs_pos_eq (scale - 1)) by lra.
  assert (0 <= Rabs b <= 1) as Hab.
  { split; [apply Rabs_pos|]. apply Rabs_le. lra. }
  nra.
Qed.

Lemma reciprocal_between (x scale : R) :
  1 <= x <= scale -> 1 / scale <= 1 / x <= 1.
Proof.
  intros [H1 Hs]. unfold Rdiv. rewrite !Rmult_1_l. split.
  - apply Rinv_le_contravar; lra.
  - rewrite <- Rinv_1. apply Rinv_le_contravar; lra.
Qed.



(** ** Frequency modulation *)

(** X9.  With a modulator signal whose sample at the index read is between
    -1 and 1, the modulated frequency of a base frequency that is not negative
    lies between half and twice the base frequency; without a modulator
    signal, or with frequency modulation turned off, it is the base
    frequency. *)
Theorem getModulationFrequency__range (o : t) (baseFrequency : R)
    (signal : list R) (i : nat) :
  0 <= baseFrequency -> (i < length signal)%nat ->
  -1 <= nth i signal 0 <= 1 ->
  baseFrequency / 2
    <= getModulationFrequency_ o baseFrequency (Some signal) i
    <= 2 * baseFrequency /\
  getModulationFrequency_ o baseFrequency None i = baseFrequency /\
  getModulationFrequency_ (turnOffFrequencyModulation o) baseFrequency
    (Some signal) i = baseFrequency.
Proof.
  intros Hb _ Hs.
  unfold getModulationFrequency_, turnOffFrequencyModulation.
  cbn [set_isFrequencyModulationOn_ isFrequencyModulationOn_].
  repeat split; destruct (isFrequencyModulationOn_ o); nra.
Qed.

(** The theorem at 440 Hz and the second sample of a two-sample modulator
    signal. *)
Lemma getModulationFrequency__range_witness :
  let o := turnOnFrequencyModulation (setModulatorLevel 1 lowestKey) in
  440 / 2
    <= getModulationFrequency_ o 440 (Some [1 / 2; -1]) 1
    <= 2 * 440 /\
  getModulationFrequency_ o 440 None 1 = 440 /\
  getModulationFrequency_ (turnOffFrequencyModulation o) 440
    (Some [1 / 2; -1]) 1 = 440.
Proof.
  intros o. apply (getModulationFrequency__range o 440 [1 / 2; -1] 1).
  - lra.
  - cbn [length]. lia.
  - cbn [nth]. lra.
Defined.

(** ** Wave forms *)

(** X10.  For a progress within the cycle between 0 and 1, the level of each
    of the seven wave forms is between -1 and 1; the reverse ramp is the ramp
    negated, and the triangle is symmetric about the middle of the cycle. *)
Theorem level_range (waveForm : WaveForm) (progressInCycle : R) :
  0 <= progressInCycle <= 1 ->
  -1 <= level waveForm progressInCycle <= 1 /\
  level REVERSE_RAMP progressInCycle = - level RAMP progressInCycle /\
  level TRIANGLE (1 - progressInCycle) = level TRIANGLE progressInCycle.
Proof.
  intros Hp. split; [|split].
  - destruct waveForm; cbn [level];
      repeat match goal with
        | |- context [Rgt_dec ?a ?b] => destruct (Rgt_dec a b)
        | |- context [Rlt_dec ?a ?b] => destruct (Rlt_dec a b)
        end; lra.
  - cbn [level]. ring.
  - cbn [level].
    destruct (Rgt_dec (1 - progressInCycle) 0.5),
      (Rgt_dec progressInCycle 0.5); lra.
Qed.

(** The theorem at a quarter of a triangle's cycle. *)
Lemma level_range_witness :
  -1 <= level TRIANGLE (1 / 4) <= 1 /\
  level REVERSE_RAMP (1 / 4) = - level RAMP (1 / 4) /\
  level TRIANGLE (1 - 1 / 4) = level TRIANGLE (1 / 4).
Proof.
  apply (level_range TRIANGLE (1 / 4)). lra.
Defined.

(** ** The glide knobs *)

(** X11.  In the middle of a glide (the target still further away than one
    step), setting a new positive glide duration changes nothing at the next
    sample: the pitch moves by the step computed when the glide began, and the
    new duration only counts from the next change of target.  Setting a glide
    duration of 0 or less, or turning glide off, takes the pitch to the target
    at the next sample. *)
Theorem glide_knobs_mid_glide (o : t) (target c delta k time time' : R) :
  isGlideOn_ o = true ->
  Math_abs delta < Math_abs (c + k * delta - target) ->
  0 < time -> time' <= 0 ->
  getGlideFrequency_ (setGlideDuration time (gliding o c target delta k))
    target
  = (c + (k + 1) * delta,
     setGlideDuration time (gliding o c target delta (k + 1))) /\
  fst (getGlideFrequency_
         (setGlideDuration time' (gliding o c target delta k)) target)
  = target /\
  fst (getGlideFrequency_ (turnOffGlide (gliding o c target delta k)) target)
  = target.
Proof.
  intros Hon Hfar Ht Ht'. split; [|split].
  - change (setGlideDuration time (gliding o c target delta k))
      with (gliding (setGlideDuration time o) c target delta k).
    change (setGlideDuration time (gliding o c target delta (k + 1)))
      with (gliding (setGlideDuration time o) c target delta (k + 1)).
    apply getGlideFrequency__step; [exact Hon | exact Ht | exact Hfar].
  - rewrite getGlideFrequency__snap; [reflexivity|].
    unfold snaps. cbn [setGlideDuration set_glideDuration_ isGlideOn_
      currentGlidePitch_ glideDuration_ gliding set_currentGlidePitch_
      set_targetGlidePitch_ set_glideDelta_].
    rewrite Hon. destruct (Rle_dec time' 0); [reflexivity|lra].
  - rewrite getGlideFrequency__snap; [reflexivity|].
    now apply getGlideFrequency__off.
Qed.

(** The theorem one step into a glide from 100 Hz to 200 Hz in steps of
    25 Hz. *)
Lemma glide_knobs_mid_glide_witness :
  let o := gliding slider 100 200 25 1 in
  getGlideFrequency_ (setGlideDuration 8 o) 200
  = (100 + (1 + 1) * 25,
     setGlideDuration 8 (gliding slider 100 200 25 (1 + 1))) /\
  fst (getGlideFrequency_ (setGlideDuration 0 o) 200) = 200 /\
  fst (getGlideFrequency_ (turnOffGlide o) 200) = 200.
Proof.
  intros o. apply (glide_knobs_mid_glide slider 200 100 25 1 8 0).
  - reflexivity.
  - rewrite Math_abs_nonneg by lra. rewrite Math_abs_nonpos by lra. lra.
  - lra.
  - lra.
Defined.

(** ** The oscillator after a fill *)

Lemma sameSettings_refl (o : t) : sameSettings o o.
Proof. unfold sameSettings. repeat split. Qed.

Lemma sameSettings_trans (o1 o2 o3 : t) :
  sameSettings o1 o2 -> sameSettings o2 o3 -> sameSettings o1 o3.
Proof. unfold sameSettings. intuition congruence. Qed.

Lemma muted_sameSettings (o o' : t) :
  sameSettings o o' -> envelopeGenerator o' = envelopeGenerator o ->
  muted o -> muted o'.
Proof.
  unfold muted. intros (_ & Hv & _) He [H|H]; [left | right]; congruence.
Qed.

Section Sample.
Variables (o : t) (targetFrequency pitchBend : R) (ms : option (list R))
          (i : nat).

Let o' := snd (sample o targetFrequency pitchBend ms i).

Lemma sample_unfolded :
  exists lvl : R,
    fst (sample o targetFrequency pitchBend ms i)
    = lvl * volume_ o
      * EnvelopeGenerator.amplitudeCoefficient_
          (EnvelopeGenerator.advance (envelopeGenerator o)) /\
    sameSettings o o' /\
    envelopeGenerator o'
    = EnvelopeGenerator.advance (envelopeGenerator o) /\
    modulatorSignal o'
    = (if IS_MODULATOR_ o
       then (fun signal => <[i := lvl * modulatorLevel_ o]> signal)
              <$> modulatorSignal o
       else modulatorSignal o).
Proof.
  unfold o', sample, playedFrequency, getGlideFrequency_, advancedPhase_,
    EnvelopeGenerator.getNextAmplitudeCoefficient.
  destruct (snaps _ _); [|destruct (targetDiffers _ _)]; fields;
    match goal with
    | |- context [Rgt_dec ?a ?b] => destruct (Rgt_dec a b)
    end; fields;
    destruct (IS_MODULATOR_ o) eqn:E; fields;
    eexists; (split; [reflexivity|]);
    unfold sameSettings; fields; rewrite ?E; repeat split.
Qed.
End Sample.

Lemma sample_muted (o : t) (tf pb : R) (ms : option (list R)) (i : nat) :
  muted o ->
  fst (sample o tf pb ms i) = 0 /\ muted (snd (sample o tf pb ms i)).
Proof.
  intros Hm. destruct (sample_unfolded o tf pb ms i)
    as (lvl & Hl & Hs & He & _).
  rewrite Hl. destruct Hm as [Hv|[Hp Ha]].
  - split; [rewrite Hv; ring|]. left.
    destruct Hs as (_ & Hv' & _). congruence.
  - assert (EnvelopeGenerator.advance (envelopeGenerator o)
            = envelopeGenerator o) as Hadv
      by (unfold EnvelopeGenerator.advance; rewrite Hp; reflexivity).
    rewrite Hadv in *. split; [rewrite Ha; ring|]. right.
    rewrite He. split; assumption.
Qed.

Lemma nth_replicate_0 (n i : nat) : nth i (replicate n 0) 0 = 0.
Proof.
  revert i. induction n as [|n IH]; intros [|i]; cbn; try reflexivity.
  apply IH.
Qed.

Lemma audioLevels_muted (tf pb : R) (ms : option (list R)) (n : nat) :
  forall (start : nat) (o : t),
    muted o -> audioLevels o tf pb ms start n = replicate n 0.
Proof.
  induction n as [|n IH]; intros start o Hm; [reflexivity|].
  cbn [audioLevels replicate].
  destruct (sample_muted o tf pb ms start Hm) as [H0 Hm'].
  destruct (sample o tf pb ms start) as [a o1]. cbn [fst snd] in *.
  rewrite H0, IH by assumption. reflexivity.
Qed.

Section State.
Variables (targetFrequency pitchBend : R) (ms : option (list R))
          (fillMode : FillMode) (opt_mixDivisor : R).

Let round := iteration targetFrequency pitchBend ms fillMode opt_mixDivisor.

Lemma fill_state (n : nat) : forall (start : nat) (o : t) (b : AudioBuffer),
  let o' := fst (fold_left round (seq start n) (o, b)) in
  sameSettings o o' /\
  envelopeGenerator o' = EnvelopeGenerator.after n (envelopeGenerator o) /\
  length <$> modulatorSignal o' = length <$> modulatorSignal o /\
  (IS_MODULATOR_ o = false -> modulatorSignal o' = modulatorSignal o) /\
  (muted o -> muted o').
Proof.
  induction n as [|n IH]; intros start o b.
  - cbn. split; [apply sameSettings_refl|]. repeat split; auto.
  - destruct (sample_unfolded o targetFrequency pitchBend ms start)
      as (lvl & _ & Hs & He & Hsig).
    pose proof (sample_muted o targetFrequency pitchBend ms start) as Hmu.
    assert (round (o, b) start
            = (snd (sample o targetFrequency pitchBend ms start),
               store fillMode opt_mixDivisor start
                 (fst (sample o targetFrequency pitchBend ms start)) b))
      as Hround.
    { unfold round, iteration.
      destruct (sample o targetFrequency pitchBend ms start); reflexivity. }
    cbn [seq fold_left]. rewrite Hround.
    set (o1 := snd (sample o targetFrequency pitchBend ms start)) in *.
    destruct (IH (S start) o1
                (store fillMode opt_mixDivisor start
                   (fst (sample o targetFrequency pitchBend ms start)) b))
      as (Hs' & He' & Hlen' & Hsig' & Hmu').
    cbv zeta. split; [now apply (sameSettings_trans o o1)|].
    split; [|split; [|split]].
    + rewrite He', He. symmetry. apply after_advance.
    + rewrite Hlen', Hsig. destruct (IS_MODULATOR_ o); [|reflexivity].
      destruct (modulatorSignal o) as [signal|]; [|reflexivity].
      cbn. now rewrite length_insert.
    + intros Hmod. destruct Hs as (_ & _ & _ & _ & _ & _ & _ & Hmod' & _).
      rewrite Hsig', Hsig, Hmod by congruence. reflexivity.
    + intros Hm. apply Hmu'. now apply Hmu.
Qed.
End State.

Lemma allocate_sameSettings (o : t) (b : AudioBuffer) :
  sameSettings o (allocate o b) /\
  envelopeGenerator (allocate o b) = envelopeGenerator o.
Proof.
  unfold allocate, sameSettings.
  destruct (IS_MODULATOR_ o) eqn:E, (modulatorSignal o);
    fields; rewrite ?E; repeat split.
Qed.

(** X12.  What [fillAudioBuffer] does to the oscillator: none of the settings
    changes, the envelope generator is sampled once for each sample of the
    buffer, an oscillator that is not a modulator keeps its modulator signal,
    and a modulator's signal keeps its length (a missing one is allocated at
    the length of the buffer). *)
Theorem fillAudioBuffer_oscillator (o : t) (buffer : AudioBuffer)
    (modulatorSignal' : option (list R)) (fillMode : FillMode)
    (opt_mixDivisor : R) :
  let o' :=
    fst (fillAudioBuffer o buffer modulatorSignal' fillMode opt_mixDivisor) in
  sameSettings o o' /\
  envelopeGenerator o'
  = EnvelopeGenerator.after (buffer_length buffer) (envelopeGenerator o) /\
  (IS_MODULATOR_ o = false -> modulatorSignal o' = modulatorSignal o) /\
  (IS_MODULATOR_ o = true ->
     length <$> modulatorSignal o'
     = match modulatorSignal o with
       | Some signal => Some (length signal)
       | None => Some (buffer_length buffer)
       end).
Proof.
  cbv zeta. unfold fillAudioBuffer.
  destruct (allocate_sameSettings o buffer) as [Hs He].
  set (o0 := allocate o buffer) in *.
  destruct (fill_state (getInstantaneousFrequency_ o0 (activeNote_ o0))
              (getPitchBend_ o0) modulatorSignal' fillMode opt_mixDivisor
              (buffer_length buffer) 0 o0 buffer)
    as (Hs' & He' & Hlen & Hsig & _).
  split; [now apply (sameSettings_trans o o0)|].
  split; [congruence|]. split.
  - intros Hmod. rewrite Hsig.
    + unfold o0, allocate. rewrite Hmod. reflexivity.
    + destruct Hs as (_ & _ & _ & _ & _ & _ & _ & Hmod' & _). congruence.
  - intros Hmod. rewrite Hlen. unfold o0, allocate. rewrite Hmod.
    destruct (modulatorSignal o) as [signal|] eqn:E; fields.
    + rewrite E. reflexivity.
    + cbn. now rewrite length_replicate.
Qed.

(** X13.  An oscillator whose volume is 0, or whose envelope is [INACTIVE] at
    amplitude 0, writes silence (the modulator signal passed in, if any,
    reaching as far as the buffer): a [CLOBBER] fill leaves 0 in every sample
    of channel 0, an [ADD] fill leaves channel 0 as it was, and the oscillator
    is as mute after the fill as before it. *)
Theorem muted_oscillator_is_silent (o : t) (buffer : AudioBuffer)
    (modulatorSignal' : option (list R)) (opt_mixDivisor : R) :
  muted o ->
  (forall signal, modulatorSignal' = Some signal ->
     (buffer_length buffer <= length signal)%nat) ->
  channel0 (snd (fillAudioBuffer o buffer modulatorSignal' CLOBBER
                   opt_mixDivisor))
  = replicate (buffer_length buffer) 0 /\
  channel0 (snd (fillAudioBuffer o buffer modulatorSignal' ADD opt_mixDivisor))
  = channel0 buffer /\
  forall fillMode,
    muted (fst (fillAudioBuffer o buffer modulatorSignal' fillMode
                  opt_mixDivisor)).
Proof.
  intros Hm _.
  destruct (allocate_sameSettings o buffer) as [Hs He].
  assert (muted (allocate o buffer)) as Hm0
    by now apply (muted_sameSettings o).
  assert (forall fillMode,
            length (channel0 (snd (fillAudioBuffer o buffer modulatorSignal'
                                     fillMode opt_mixDivisor)))
            = buffer_length buffer /\
            forall i, (i < buffer_length buffer)%nat ->
              nth i (channel0 (snd (fillAudioBuffer o buffer modulatorSignal'
                                      fillMode opt_mixDivisor))) 0
              = mixed fillMode opt_mixDivisor (nth i (channel0 buffer) 0) 0)
    as Hfill.
  { intros fillMode. unfold fillAudioBuffer.
    set (o0 := allocate o buffer) in *.
    destruct (fill_loop (getInstantaneousFrequency_ o0 (activeNote_ o0))
                (getPitchBend_ o0) modulatorSignal' fillMode opt_mixDivisor
                (buffer_length buffer) 0 o0 buffer)
      as (Hlen & Hin & _); [unfold buffer_length; lia|].
    split; [exact Hlen|]. intros i Hi. rewrite Hin by lia.
    rewrite audioLevels_muted by assumption.
    rewrite nth_replicate_0. reflexivity. }
  split; [|split].
  - destruct (Hfill CLOBBER) as [Hlen Hnth]. apply (nth_ext _ _ 0 0).
    + now rewrite Hlen, length_replicate.
    + intros i Hi. rewrite Hlen in Hi. rewrite Hnth by exact Hi.
      cbn [mixed]. symmetry. apply nth_replicate_0.
  - destruct (Hfill ADD) as [Hlen Hnth]. apply (nth_ext _ _ 0 0).
    + exact Hlen.
    + intros i Hi. rewrite Hlen in Hi. rewrite Hnth by exact Hi.
      cbn [mixed]. ring.
  - intros fillMode. unfold fillAudioBuffer.
    set (o0 := allocate o buffer) in *.
    now apply (fill_state (getInstantaneousFrequency_ o0 (activeNote_ o0))
                 (getPitchBend_ o0) modulatorSignal' fillMode opt_mixDivisor
                 (buffer_length buffer) 0 o0 buffer).
Qed.

(** The theorem at [lowestKey] with its volume at 0 and a buffer of three
    samples. *)
Lemma muted_oscillator_is_silent_witness :
  let o := setVolume 0 lowestKey in
  let buffer := {| channel0 := [1; 2; 3]; channel1 := None |} in
  let signal := Some [1 / 2; 0; -1] in
  channel0 (snd (fillAudioBuffer o buffer signal CLOBBER 1))
  = replicate (buffer_length buffer) 0 /\
  channel0 (snd (fillAudioBuffer o buffer signal ADD 1)) = channel0 buffer /\
  forall fillMode, muted (fst (fillAudioBuffer o buffer signal fillMode 1)).
Proof.
  intros o buffer signal.
  apply (muted_oscillator_is_silent o buffer signal 1).
  - left. reflexivity.
  - intros s [= <-]. cbn. lia.
Defined.

(** ** Buffer after buffer *)

Lemma sample_index (o : t) (tf pb : R) (i j : nat) :
  IS_MODULATOR_ o = false ->
  sample o tf pb None i = sample o tf pb None j.
Proof.
  intros E.
  unfold sample, playedFrequency, getGlideFrequency_, advancedPhase_,
    getModulationFrequency_, EnvelopeGenerator.getNextAmplitudeCoefficient.
  destruct (snaps _ _); [|destruct (targetDiffers _ _)]; fields;
    match goal with
    | |- context [Rgt_dec ?a ?b] => destruct (Rgt_dec a b)
    end; fields; rewrite E; reflexivity.
Qed.

Lemma sample_not_a_modulator (o : t) (tf pb : R) (ms : option (list R))
    (i : nat) :
  IS_MODULATOR_ o = false -> IS_MODULATOR_ (snd (sample o tf pb ms i)) = false.
Proof.
  intros E. destruct (sample_unfolded o tf pb ms i) as (_ & _ & Hs & _).
  destruct Hs as (_ & _ & _ & _ & _ & _ & _ & Hmod & _). congruence.
Qed.

Lemma audioLevels_index (tf pb : R) (n : nat) :
  forall (i j : nat) (o : t),
    IS_MODULATOR_ o = false ->
    audioLevels o tf pb None i n = audioLevels o tf pb None j n.
Proof.
  induction n as [|n IH]; intros i j o E; [reflexivity|].
  cbn [audioLevels]. rewrite (sample_index o tf pb i j E).
  pose proof (sample_not_a_modulator o tf pb None j E) as E'.
  destruct (sample o tf pb None j) as [a o1]. cbn [snd] in E'.
  rewrite (IH (S i) (S j) o1 E'). reflexivity.
Qed.

Section Join.
Variables (targetFrequency pitchBend : R) (fillMode : FillMode)
          (opt_mixDivisor : R).

Let round :=
  iteration targetFrequency pitchBend None fillMode opt_mixDivisor.

Lemma round_unfold (o : t) (b : AudioBuffer) (i : nat) :
  round (o, b) i
  = (snd (sample o targetFrequency pitchBend None i),
     store fillMode opt_mixDivisor i
       (fst (sample o targetFrequency pitchBend None i)) b).
Proof.
  unfold round, iteration.
  destruct (sample o targetFrequency pitchBend None i); reflexivity.
Qed.

(** The state that a fill leaves depends neither on the buffer nor on the
    index it starts from. *)
Lemma fill_state_index (n : nat) :
  forall (i j : nat) (o : t) (b c : AudioBuffer),
    IS_MODULATOR_ o = false ->
    fst (fold_left round (seq i n) (o, b))
    = fst (fold_left round (seq j n) (o, c)).
Proof.
  induction n as [|n IH]; intros i j o b c E; [reflexivity|].
  cbn [seq fold_left]. rewrite !round_unfold.
  rewrite (sample_index o targetFrequency pitchBend i j E).
  apply IH. now apply sample_not_a_modulator.
Qed.

Lemma audioLevels_app (n m : nat) :
  forall (i : nat) (o : t) (b : AudioBuffer),
    audioLevels o targetFrequency pitchBend None i (n + m)
    = audioLevels o targetFrequency pitchBend None i n
      ++ audioLevels (fst (fold_left round (seq i n) (o, b)))
           targetFrequency pitchBend None (i + n) m.
Proof.
  induction n as [|n IH]; intros i o b.
  - cbn [Nat.add seq fold_left audioLevels app fst].
    now rewrite Nat.add_0_r.
  - cbn [Nat.add seq fold_left audioLevels]. rewrite round_unfold.
    destruct (sample o targetFrequency pitchBend None i) as [a o1].
    cbn [fst snd].
    rewrite (IH (S i) o1 (store fillMode opt_mixDivisor i a b)).
    replace (S i + n)%nat with (i + S n)%nat by lia. reflexivity.
Qed.
End Join.

Lemma allocate_not_a_modulator (o : t) (b : AudioBuffer) :
  IS_MODULATOR_ o = false -> allocate o b = o.
Proof. intros E. unfold allocate. rewrite E. reflexivity. Qed.

Lemma sameSettings_pitch (o o' : t) :
  sameSettings o o' ->
  getInstantaneousFrequency_ o' (activeNote_ o')
  = getInstantaneousFrequency_ o (activeNote_ o) /\
  getPitchBend_ o' = getPitchBend_ o.
Proof.
  intros (_ & _ & _ & Hr & Hb & Hk & _ & _ & _ & _ & _ & Hn).
  unfold getInstantaneousFrequency_, getPitchBend_.
  rewrite Hr, Hb, Hk, Hn. split; reflexivity.
Qed.

Lemma fillAudioBuffer_not_a_modulator (o : t) (b : AudioBuffer)
    (ms : option (list R)) (fillMode : FillMode) (opt_mixDivisor : R) :
  IS_MODULATOR_ o = false ->
  fillAudioBuffer o b ms fillMode opt_mixDivisor
  = fold_left
      (iteration (getInstantaneousFrequency_ o (activeNote_ o))
         (getPitchBend_ o) ms fillMode opt_mixDivisor)
      (seq 0 (buffer_length b)) (o, b).
Proof.
  intros E. unfold fillAudioBuffer.
  rewrite (allocate_not_a_modulator o b E). reflexivity.
Qed.

(** X17.  An oscillator that is not a modulator and is given no modulator
    signal plays through the seam between two buffers: filling a first buffer
    and then a second one leaves the oscillator in the state, and channel 0
    with the samples, that a single fill of the two buffers joined would
    leave, in each fill mode. *)
Theorem fillAudioBuffer_in_two_parts (o : t) (b1 b2 b : AudioBuffer)
    (fillMode : FillMode) (opt_mixDivisor : R) :
  IS_MODULATOR_ o = false ->
  channel0 b = channel0 b1 ++ channel0 b2 ->
  let first := fillAudioBuffer o b1 None fillMode opt_mixDivisor in
  let second := fillAudioBuffer (fst first) b2 None fillMode opt_mixDivisor in
  let whole := fillAudioBuffer o b None fillMode opt_mixDivisor in
  fst whole = fst second /\
  channel0 (snd whole) = channel0 (snd first) ++ channel0 (snd second).
Proof.
  intros E Hb. cbv zeta.
  set (n1 := length (channel0 b1)). set (n2 := length (channel0 b2)).
  assert (buffer_length b = (n1 + n2)%nat) as Hn
    by (unfold buffer_length; rewrite Hb; apply length_app).
  rewrite (fillAudioBuffer_not_a_modulator o b1 None _ _ E).
  rewrite (fillAudioBuffer_not_a_modulator o b None _ _ E).
  set (tf := getInstantaneousFrequency_ o (activeNote_ o)).
  set (pb := getPitchBend_ o).
  set (round := iteration tf pb None fillMode opt_mixDivisor).
  change (buffer_length b1) with n1. rewrite Hn.
  set (first := fold_left round (seq 0 n1) (o, b1)).
  destruct (fill_state tf pb None fillMode opt_mixDivisor n1 0 o b1)
    as (Hsame & _). fold round first in Hsame.
  assert (IS_MODULATOR_ (fst first) = false) as E1.
  { destruct Hsame as (_ & _ & _ & _ & _ & _ & _ & Hmod & _). congruence. }
  destruct (sameSettings_pitch o (fst first) Hsame) as [Htf Hpb].
  rewrite (fillAudioBuffer_not_a_modulator (fst first) b2 None _ _ E1).
  rewrite Htf, Hpb. fold tf pb round.
  change (buffer_length b2) with n2.
  set (second := fold_left round (seq 0 n2) (fst first, b2)).
  set (whole := fold_left round (seq 0 (n1 + n2)) (o, b)).
  set (mid := fold_left round (seq 0 n1) (o, b)).
  assert (fst mid = fst first) as Hmid
    by (apply (fill_state_index tf pb fillMode opt_mixDivisor); exact E).
  assert (whole = fold_left round (seq n1 n2) mid) as Hwhole.
  { unfold whole, mid. rewrite seq_app, fold_left_app. reflexivity. }
  split.
  - rewrite Hwhole. destruct mid as [om bm]. cbn [fst] in Hmid. subst om.
    apply (fill_state_index tf pb fillMode opt_mixDivisor). exact E1.
  - destruct (fill_loop tf pb None fillMode opt_mixDivisor (n1 + n2) 0 o b)
      as (Hlw & Hinw & _); [fold (buffer_length b); lia|].
    destruct (fill_loop tf pb None fillMode opt_mixDivisor n1 0 o b1)
      as (Hl1 & Hin1 & _); [fold n1; lia|].
    destruct (fill_loop tf pb None fillMode opt_mixDivisor n2 0 (fst first) b2)
      as (Hl2 & Hin2 & _); [fold n2; lia|].
    fold round whole in Hlw, Hinw. fold round first in Hl1, Hin1.
    fold round second in Hl2, Hin2. fold n1 in Hl1. fold n2 in Hl2.
    fold (buffer_length b) in Hlw. rewrite Hn in Hlw.
    apply (nth_ext _ _ 0 0).
    + rewrite length_app. lia.
    + intros i Hi. rewrite Hlw in Hi. rewrite Hinw by lia.
      rewrite Nat.sub_0_r.
      rewrite (audioLevels_app tf pb fillMode opt_mixDivisor n1 n2 0 o b).
      fold round mid. rewrite Hmid. cbn [Nat.add].
      rewrite (audioLevels_index tf pb n2 n1 0 (fst first) E1).
      destruct (Nat.lt_ge_cases i n1) as [Hlt|Hge].
      * rewrite (app_nth1 (channel0 (snd first))) by lia.
        rewrite Hin1 by lia. rewrite Nat.sub_0_r.
        rewrite Hb, !app_nth1; try reflexivity.
        -- rewrite audioLevels_length. exact Hlt.
        -- exact Hlt.
      * rewrite (app_nth2 (channel0 (snd first))) by lia.
        rewrite Hl1. rewrite Hin2 by lia. rewrite Nat.sub_0_r.
        rewrite Hb, !app_nth2; try (rewrite ?audioLevels_length; lia).
        rewrite audioLevels_length. reflexivity.
Qed.

(** The theorem at [lowestKey], adding to a buffer of two samples and then
    to one of one sample. *)
Lemma fillAudioBuffer_in_two_parts_witness :
  let b1 := {| channel0 := [1; 2]; channel1 := None |} in
  let b2 := {| channel0 := [3]; channel1 := None |} in
  let b := {| channel0 := [1; 2; 3]; channel1 := None |} in
  let first := fillAudioBuffer lowestKey b1 None ADD 1 in
  let second := fillAudioBuffer (fst first) b2 None ADD 1 in
  let whole := fillAudioBuffer lowestKey b None ADD 1 in
  fst whole = fst second /\
  channel0 (snd whole) = channel0 (snd first) ++ channel0 (snd second).
Proof.
  intros b1 b2 b.
  apply (fillAudioBuffer_in_two_parts lowestKey b1 b2 b ADD 1); reflexivity.
Defined.

End OscillatorFacts.

(** * Properties of the low pass filter *)

Section LowPassFilterFacts.
Import LowPassFilter.

Lemma before_spec (now : R) (ev : AudioParam.Event) :
  AudioParam.before now ev = true <-> AudioParam.time ev < now.
Proof.
  unfold AudioParam.before. destruct (Rlt_dec _ _); split; intros; easy.
Qed.

Lemma cancelScheduledValues_keeps_the_past (now : R) (p : AudioParam.t) :
  Forall (fun ev => AudioParam.time ev < now)
         (AudioParam.events (AudioParam.cancelScheduledValues now p)) /\
  AudioParam.pending now (AudioParam.cancelScheduledValues now p) = [].
Proof.
  unfold AudioParam.cancelScheduledValues, AudioParam.pending. cbn. split.
  - apply List.Forall_forall. intros ev Hev.
    apply List.filter_In in Hev. now apply before_spec.
  - induction (AudioParam.events p) as [|ev evs IH]; [reflexivity|].
    cbn. destruct (AudioParam.before now ev) eqn:E; [|exact IH].
    cbn. rewrite E. exact IH.
Qed.

(** C9.  After [startAttack] at time [now], the value of the frequency
    parameter is the cutoff frequency; its timeline is what was scheduled
    before [now], followed by exactly three changes: the cutoff frequency set
    at [now], an exponential ramp to [contour_ * cutoffFrequency_] ending at
    [now + attackTime_], and an exponential ramp to the sustain frequency
    ending at [now + attackTime_ + decayTime_].  Nothing scheduled earlier for
    [now] or later survives (the cancellation comes first), and the filter's
    own fields are untouched. *)
Theorem startAttack_schedules_the_contour (now : R) (f : t) :
  let kept :=
    List.filter (AudioParam.before now) (AudioParam.events (frequency f)) in
  let contourFrequency := contour_ f * cutoffFrequency_ f in
  let contour :=
    [AudioParam.SetValueAtTime (cutoffFrequency_ f) now;
     AudioParam.ExponentialRampToValueAtTime
       contourFrequency (now + attackTime_ f);
     AudioParam.ExponentialRampToValueAtTime
       (cutoffFrequency_ f
        + sustainLevel_ f * (contourFrequency - cutoffFrequency_ f))
       (now + attackTime_ f + decayTime_ f)] in
  AudioParam.value (frequency (startAttack now f)) = cutoffFrequency_ f /\
  AudioParam.events (frequency (startAttack now f)) = kept ++ contour /\
  Forall (fun ev => AudioParam.time ev < now) kept /\
  AudioParam.pending now (frequency (startAttack now f))
  = List.filter (fun ev => negb (AudioParam.before now ev)) contour /\
  set_frequency (frequency f) (startAttack now f) = f.
Proof.
  cbv zeta.
  destruct (cancelScheduledValues_keeps_the_past now (frequency f)) as [Hk Hp].
  assert (AudioParam.events (frequency (startAttack now f))
          = List.filter (AudioParam.before now)
                        (AudioParam.events (frequency f))
            ++ [AudioParam.SetValueAtTime (cutoffFrequency_ f) now;
                AudioParam.ExponentialRampToValueAtTime
                  (contour_ f * cutoffFrequency_ f) (now + attackTime_ f);
                AudioParam.ExponentialRampToValueAtTime
                  (cutoffFrequency_ f
                   + sustainLevel_ f
                     * (contour_ f * cutoffFrequency_ f - cutoffFrequency_ f))
                  (now + attackTime_ f + decayTime_ f)]) as Hev.
  { unfold startAttack, AudioParam.exponentialRampToValueAtTime,
      AudioParam.setValueAtTime, AudioParam.schedule. cbn.
    rewrite <- !app_assoc. reflexivity. }
  split; [reflexivity|]. split; [exact Hev|]. split; [exact Hk|]. split.
  - unfold AudioParam.pending in *. rewrite Hev, List.filter_app.
    cbn [AudioParam.cancelScheduledValues AudioParam.events] in Hp.
    rewrite Hp. reflexivity.
  - destruct f. reflexivity.
Qed.

(** ** Retriggering and the setters *)

Lemma before_false (now : R) (ev : AudioParam.Event) :
  AudioParam.before now ev = false <-> now <= AudioParam.time ev.
Proof.
  unfold AudioParam.before.
  destruct (Rlt_dec _ _); split; intros; try easy; lra.
Qed.

Lemma filter_before_twice (now : R) (evs : list AudioParam.Event) :
  List.filter (AudioParam.before now) (List.filter (AudioParam.before now) evs)
  = List.filter (AudioParam.before now) evs.
Proof.
  induction evs as [|ev evs IH]; [reflexivity|].
  cbn. destruct (AudioParam.before now ev) eqn:E; [|exact IH].
  cbn. rewrite E, IH. reflexivity.
Qed.

Lemma filter_before_none (now : R) (evs : list AudioParam.Event) :
  Forall (fun ev => now <= AudioParam.time ev) evs ->
  List.filter (AudioParam.before now) evs = [].
Proof.
  induction 1 as [|ev evs Hev _ IH]; [reflexivity|].
  cbn. apply before_false in Hev. rewrite Hev. exact IH.
Qed.

Lemma filter_pending_all (now : R) (evs : list AudioParam.Event) :
  Forall (fun ev => now <= AudioParam.time ev) evs ->
  List.filter (fun ev => negb (AudioParam.before now ev)) evs = evs.
Proof.
  induction 1 as [|ev evs Hev _ IH]; [reflexivity|].
  cbn. apply before_false in Hev. rewrite Hev. cbn. now rewrite IH.
Qed.

Lemma startAttack_unfold (now : R) (f : t) :
  startAttack now f
  = Build
      {| AudioParam.value := cutoffFrequency_ f;
         AudioParam.events :=
           List.filter (AudioParam.before now)
             (AudioParam.events (frequency f))
           ++ [AudioParam.SetValueAtTime (cutoffFrequency_ f) now;
               AudioParam.ExponentialRampToValueAtTime
                 (contour_ f * cutoffFrequency_ f) (now + attackTime_ f);
               AudioParam.ExponentialRampToValueAtTime
                 (cutoffFrequency_ f
                  + sustainLevel_ f
                    * (contour_ f * cutoffFrequency_ f - cutoffFrequency_ f))
                 (now + attackTime_ f + decayTime_ f)] |}
      (cutoffFrequency_ f) (contour_ f) (attackTime_ f) (decayTime_ f)
      (sustainLevel_ f).
Proof.
  unfold startAttack, AudioParam.exponentialRampToValueAtTime,
    AudioParam.setValueAtTime, AudioParam.schedule, set_frequency. cbn.
  rewrite <- !app_assoc. reflexivity.
Qed.

Lemma contour_not_before (now c k a d s : R) :
  0 <= a -> 0 <= d ->
  Forall (fun ev => now <= AudioParam.time ev)
    [AudioParam.SetValueAtTime c now;
     AudioParam.ExponentialRampToValueAtTime (k * c) (now + a);
     AudioParam.ExponentialRampToValueAtTime
       (c + s * (k * c - c)) (now + a + d)].
Proof.
  intros Ha Hd. repeat (constructor; [cbn; lra|]). constructor.
Qed.

Ltac fields :=
  cbn [frequency cutoffFrequency_ contour_ attackTime_ decayTime_
       sustainLevel_ AudioParam.value AudioParam.events].

(** X14.  With an attack time and a decay time that are not negative, a
    second [startAttack] at the same [currentTime] leaves the filter as the
    first one did: the contour is scheduled once, not twice. *)
Theorem startAttack_again_at_the_same_time (now : R) (f : t) :
  0 <= attackTime_ f -> 0 <= decayTime_ f ->
  startAttack now (startAttack now f) = startAttack now f.
Proof.
  intros Ha Hd.
  rewrite (startAttack_unfold now (startAttack now f)).
  rewrite !(startAttack_unfold now f). fields.
  rewrite List.filter_app, filter_before_twice.
  rewrite (filter_before_none now _ (contour_not_before now _ _ _ _ _ Ha Hd)).
  rewrite app_nil_r. reflexivity.
Qed.

(** The theorem at a filter of 1000 Hz with a contour of 4, struck at
    time 3. *)
Lemma startAttack_again_at_the_same_time_witness :
  let node := {| AudioParam.value := 350; AudioParam.events := [] |} in
  let f := new node 1000 4 1 2 (1 / 2) in
  startAttack 3 (startAttack 3 f) = startAttack 3 f.
Proof.
  intros node f. apply (startAttack_again_at_the_same_time 3 f); cbn; lra.
Defined.

Lemma filter_before_earlier (t0 now : R) (evs : list AudioParam.Event) :
  t0 <= now ->
  List.filter (AudioParam.before t0) (List.filter (AudioParam.before now) evs)
  = List.filter (AudioParam.before t0) evs.
Proof.
  intros Hle. induction evs as [|ev evs IH]; [reflexivity|].
  cbn. destruct (AudioParam.before now ev) eqn:E.
  - cbn. rewrite IH. reflexivity.
  - rewrite IH. apply before_false in E.
    assert (AudioParam.before t0 ev = false) as ->; [|reflexivity].
    apply before_false. lra.
Qed.

Lemma turn_unfold (k : Knob) (f : t) :
  frequency (turn k f)
  = {| AudioParam.value := cutoffFrequency_ (turn k f);
       AudioParam.events :=
         List.filter (AudioParam.before 0)
           (AudioParam.events (frequency f)) |}.
Proof. destruct k; reflexivity. Qed.

Lemma turn_frequency (k : Knob) (f g : t) :
  List.filter (AudioParam.before 0) (AudioParam.events (frequency f))
  = List.filter (AudioParam.before 0) (AudioParam.events (frequency g)) ->
  set_frequency (frequency f) g = f ->
  turn k f = turn k g.
Proof.
  intros Hev <-.
  destruct k; cbn [turn]; unfold setCutoffFrequency, setContour,
    setContourAttackTime, setContourDecayTime, setContourSustainLevel,
    resetContourEnvelope_, AudioParam.cancelScheduledValues,
    AudioParam.set_value, set_frequency in *;
    cbn [frequency cutoffFrequency_ contour_ attackTime_ decayTime_
         sustainLevel_ AudioParam.value AudioParam.events] in *;
    rewrite Hev; reflexivity.
Qed.

(** X15.  Each setter of the filter throws away a running contour: called
    after a [startAttack] (at a time, with an attack time and a decay time that
    are not negative) it leaves the filter as if the key had not been pressed,
    with the frequency parameter at the cutoff frequency and nothing
    scheduled from time 0 on. *)
Theorem knob_cancels_the_contour (k : Knob) (now : R) (f : t) :
  0 <= now -> 0 <= attackTime_ f -> 0 <= decayTime_ f ->
  turn k (startAttack now f) = turn k f /\
  AudioParam.value (frequency (turn k (startAttack now f)))
  = cutoffFrequency_ (turn k f) /\
  AudioParam.pending 0 (frequency (turn k (startAttack now f))) = [].
Proof.
  intros Hnow Ha Hd.
  assert (turn k (startAttack now f) = turn k f) as Heq.
  { apply turn_frequency.
    - rewrite (startAttack_unfold now f). fields.
      rewrite List.filter_app, (filter_before_earlier 0 now _ Hnow).
      rewrite (filter_before_none 0 (_ :: _)).
      + apply app_nil_r.
      + eapply Forall_impl;
          [apply (contour_not_before now _ _ _ _ _ Ha Hd)|].
        cbn. intros ev Hev. lra.
    - rewrite (startAttack_unfold now f). destruct f. reflexivity. }
  split; [exact Heq|]. rewrite Heq, turn_unfold. fields. split; [reflexivity|].
  unfold AudioParam.pending. fields.
  induction (AudioParam.events (frequency f)) as [|ev evs IH]; [reflexivity|].
  cbn. destruct (AudioParam.before 0 ev) eqn:E; [|exact IH].
  cbn. rewrite E. exact IH.
Qed.

(** The theorem at the same filter, with the contour knob turned after the
    key. *)
Lemma knob_cancels_the_contour_witness :
  let node := {| AudioParam.value := 350; AudioParam.events := [] |} in
  let f := new node 1000 4 1 2 (1 / 2) in
  turn (Contour 2) (startAttack 3 f) = turn (Contour 2) f /\
  AudioParam.value (frequency (turn (Contour 2) (startAttack 3 f)))
  = cutoffFrequency_ (turn (Contour 2) f) /\
  AudioParam.pending 0 (frequency (turn (Contour 2) (startAttack 3 f))) = [].
Proof.
  intros node f. apply (knob_cancels_the_contour (Contour 2) 3 f); cbn; lra.
Defined.

(** X16.  With a positive cutoff frequency and contour, a sustain level
    between 0 and 1 and times that are not negative, [startAttack] leaves
    exactly three pending changes, at [now], [now + attackTime_] and
    [now + attackTime_ + decayTime_]; each of their targets is positive (as an
    exponential ramp needs) and lies between the cutoff frequency and the
    contour frequency [contour_ * cutoffFrequency_]. *)
Theorem contour_stays_between_cutoff_and_peak (now : R) (f : t) :
  0 <= attackTime_ f -> 0 <= decayTime_ f ->
  0 < cutoffFrequency_ f -> 0 < contour_ f ->
  0 <= sustainLevel_ f <= 1 ->
  let peak := contour_ f * cutoffFrequency_ f in
  let changes := AudioParam.pending now (frequency (startAttack now f)) in
  length changes = 3%nat /\
  List.map AudioParam.time changes
  = [now; now + attackTime_ f; now + attackTime_ f + decayTime_ f] /\
  Forall (fun ev =>
            now <= AudioParam.time ev /\
            0 < AudioParam.target ev /\
            Rmin (cutoffFrequency_ f) peak <= AudioParam.target ev
            <= Rmax (cutoffFrequency_ f) peak) changes.
Proof.
  intros Ha Hd Hc Hk Hs. cbv zeta.
  assert (AudioParam.pending now (frequency (startAttack now f))
          = [AudioParam.SetValueAtTime (cutoffFrequency_ f) now;
             AudioParam.ExponentialRampToValueAtTime
               (contour_ f * cutoffFrequency_ f) (now + attackTime_ f);
             AudioParam.ExponentialRampToValueAtTime
               (cutoffFrequency_ f
                + sustainLevel_ f
                  * (contour_ f * cutoffFrequency_ f - cutoffFrequency_ f))
               (now + attackTime_ f + decayTime_ f)]) as ->.
  { unfold AudioParam.pending. rewrite (startAttack_unfold now f). fields.
    rewrite List.filter_app.
    rewrite (filter_pending_all now _
               (contour_not_before now _ _ _ _ _ Ha Hd)).
    destruct (cancelScheduledValues_keeps_the_past now (frequency f))
      as [_ Hp].
    unfold AudioParam.pending, AudioParam.cancelScheduledValues in Hp.
    cbn [AudioParam.events] in Hp. rewrite Hp. reflexivity. }
  split; [reflexivity|]. split; [reflexivity|].
  set (c := cutoffFrequency_ f) in *. set (k := contour_ f) in *.
  set (s := sustainLevel_ f) in *.
  assert (0 < k * c) as Hpeak by (apply Rmult_lt_0_compat; lra).
  unfold Rmin, Rmax. destruct (Rle_dec c (k * c)) as [Hle|Hgt].
  - assert (0 <= s * (k * c - c)) as Hs1 by (apply Rmult_le_pos; lra).
    assert (0 <= (1 - s) * (k * c - c)) as Hs2 by (apply Rmult_le_pos; lra).
    repeat (constructor; [cbn [AudioParam.time AudioParam.target]; lra|]).
    constructor.
  - assert (0 <= s * (c - k * c)) as Hs1 by (apply Rmult_le_pos; lra).
    assert (0 <= (1 - s) * (c - k * c)) as Hs2 by (apply Rmult_le_pos; lra).
    repeat (constructor; [cbn [AudioParam.time AudioParam.target]; lra|]).
  constructor.
Qed.

(** The theorem at the same filter: a contour from 1000 Hz up to 4000 Hz and
    down to 2500 Hz. *)
Lemma contour_stays_between_cutoff_and_peak_witness :
  let node := {| AudioParam.value := 350; AudioParam.events := [] |} in
  let f := new node 1000 4 1 2 (1 / 2) in
  let peak := contour_ f * cutoffFrequency_ f in
  let changes := AudioParam.pending 3 (frequency (startAttack 3 f)) in
  length changes = 3%nat /\
  List.map AudioParam.time changes
  = [3; 3 + attackTime_ f; 3 + attackTime_ f + decayTime_ f] /\
  Forall (fun ev =>
            3 <= AudioParam.time ev /\
            0 < AudioParam.target ev /\
            Rmin (cutoffFrequency_ f) peak <= AudioParam.target ev
            <= Rmax (cutoffFrequency_ f) peak) changes.
Proof.
  intros node f.
  apply (contour_stays_between_cutoff_and_peak 3 f); cbn; lra.
Defined.

End LowPassFilterFacts.

(** * The two embeddings agree *)

(** With nothing rounded, the functions of [Numeric] are those of the exact
    modules, call by call. *)
Lemma exactEnvelope_advance (e : EnvelopeGenerator.t) :
  Numeric.EnvelopeGenerator.advance (exactEnvelope e)
  = exactEnvelope (EnvelopeGenerator.advance e).
Proof.
  destruct e as [T a p tA sA tD sD s sR].
  unfold Numeric.EnvelopeGenerator.advance, EnvelopeGenerator.advance.
  destruct p; cbn; try reflexivity.
  - destruct (Rle_dec 1 (a + sA)), (Rge_dec (a + sA) 1);
      try reflexivity; lra.
  - destruct (Rle_dec (a - sD) s); reflexivity.
  - destruct (Rle_dec (a - sR) 0); reflexivity.
Qed.

Lemma exactEnvelope_after (n : nat) (e : EnvelopeGenerator.t) :
  Numeric.EnvelopeGenerator.after n (exactEnvelope e)
  = exactEnvelope (EnvelopeGenerator.after n e) /\
  Numeric.EnvelopeGenerator.coefficient n (exactEnvelope e)
  = EnvelopeGenerator.coefficient n e.
Proof.
  assert (forall k, Numeric.EnvelopeGenerator.after k (exactEnvelope e)
                    = exactEnvelope (EnvelopeGenerator.after k e)) as Hafter.
  { induction k as [|k IH]; [reflexivity|].
    cbn [Numeric.EnvelopeGenerator.after EnvelopeGenerator.after
         Numeric.EnvelopeGenerator.getNextAmplitudeCoefficient
         EnvelopeGenerator.getNextAmplitudeCoefficient snd].
    rewrite IH. apply exactEnvelope_advance. }
  split; [apply Hafter|]. destruct n as [|n]; [reflexivity|].
  cbn [Numeric.EnvelopeGenerator.coefficient EnvelopeGenerator.coefficient
       Numeric.EnvelopeGenerator.getNextAmplitudeCoefficient
       EnvelopeGenerator.getNextAmplitudeCoefficient fst].
  rewrite Hafter, exactEnvelope_advance. reflexivity.
Qed.

Lemma exactEnvelope_recomputePhaseSteps_ (e : EnvelopeGenerator.t) :
  Numeric.EnvelopeGenerator.recomputePhaseSteps_ (exactEnvelope e)
  = exactEnvelope (EnvelopeGenerator.recomputePhaseSteps_ e).
Proof.
  destruct e as [T a p tA sA tD sD s sR].
  unfold Numeric.EnvelopeGenerator.recomputePhaseSteps_,
    EnvelopeGenerator.recomputePhaseSteps_,
    EnvelopeGenerator.recomputePhaseSteps_with, exactEnvelope, unrounded.
  cbn. destruct (Rle_dec tA 0); cbn; destruct (Rle_dec tD 0); reflexivity.
Qed.

Lemma exactEnvelope_new (sampleInterval attackTime decayTime sustainLevel : R) :
  Numeric.EnvelopeGenerator.new unrounded sampleInterval attackTime decayTime
    sustainLevel
  = exactEnvelope
      (EnvelopeGenerator.new sampleInterval attackTime decayTime
         sustainLevel).
Proof.
  unfold Numeric.EnvelopeGenerator.new, EnvelopeGenerator.new.
  rewrite <- exactEnvelope_recomputePhaseSteps_. reflexivity.
Qed.

Lemma exactEnvelope_startAttack (e : EnvelopeGenerator.t) :
  Numeric.EnvelopeGenerator.startAttack (exactEnvelope e)
  = exactEnvelope (EnvelopeGenerator.startAttack e).
Proof.
  unfold Numeric.EnvelopeGenerator.startAttack, EnvelopeGenerator.startAttack.
  cbv zeta. rewrite exactEnvelope_recomputePhaseSteps_. reflexivity.
Qed.

Lemma exactEnvelope_startRelease (e : EnvelopeGenerator.t) :
  Numeric.EnvelopeGenerator.startRelease (exactEnvelope e)
  = exactEnvelope (EnvelopeGenerator.startRelease e).
Proof.
  destruct e as [T a p tA sA tD sD s sR].
  unfold Numeric.EnvelopeGenerator.startRelease,
    EnvelopeGenerator.startRelease, EnvelopeGenerator.startRelease_with,
    exactEnvelope, unrounded.
  cbn. destruct (EnvelopeGenerator.Phase__eq_dec p EnvelopeGenerator.RELEASE);
    [reflexivity|].
  destruct (Rle_dec tD 0); reflexivity.
Qed.

Lemma glideFields_getGlideFrequency_ (o : Oscillator.t) (target : R) :
  Numeric.Oscillator.getGlideFrequency_ (glideFields o) target
  = (fst (Oscillator.getGlideFrequency_ o target),
     glideFields (snd (Oscillator.getGlideFrequency_ o target))).
Proof.
  unfold Numeric.Oscillator.getGlideFrequency_, Oscillator.getGlideFrequency_,
    Numeric.Oscillator.snaps, Oscillator.snaps,
    Numeric.Oscillator.targetDiffers, Oscillator.targetDiffers, Math_abs,
    glideFields, unrounded, Numeric.Oscillator.toNumber, toNumber.
  destruct o; cbn.
  repeat match goal with
    | |- context [match ?x with _ => _ end] =>
        lazymatch x with
        | context [match _ with _ => _ end] => fail
        | _ => destruct x; cbn
        end
    end; first [reflexivity | contradiction].
Qed.

(** * The envelope generator in rounded arithmetic *)

Section RoundedEnvelopeFacts.
Import Numeric.EnvelopeGenerator.

(** The rounding: monotone, and exact at the results it returns, at 0 and
    at 1, as rounding to the nearest binary64 number is. *)
Variable rnd : R -> R.
Hypothesis rnd_monotone : forall x y, x <= y -> rnd x <= rnd y.
Hypothesis rnd_idempotent : forall x, rnd (rnd x) = rnd x.
Hypothesis rnd_0 : rnd 0 = 0.
Hypothesis rnd_1 : rnd 1 = 1.

(** [u] bounds the rounding error of a result between 0 and 1. *)
Variable u : R.
Hypothesis rnd_accurate : forall x, 0 <= x <= 1 -> Rabs (rnd x - x) <= u.

Abbreviation envelope := (t (Arithmetic.rounded rnd)).
Abbreviation set_amplitude :=
  (@set_amplitudeCoefficient_ (Arithmetic.rounded rnd)).

(** Reduces the operations of the rounded arithmetic and the projections of
    updated records. *)
Ltac numbers :=
  cbn [Arithmetic.add Arithmetic.sub Arithmetic.mul Arithmetic.div
       Arithmetic.leb Arithmetic.zero Arithmetic.one Arithmetic.rounded
       Arithmetic.number
       SAMPLE_INTERVAL_ amplitudeCoefficient_ phase_ attackTime_ attackStep_
       decayTime_ decayStep_ sustainLevel_ releaseStep_
       set_amplitudeCoefficient_ set_phase_ set_attackStep_ set_decayStep_
       set_releaseStep_] in *.

Ltac comparisons :=
  repeat match goal with
    | |- context [Rle_dec ?a ?b] => destruct (Rle_dec a b); numbers
    end.

Lemma numeric_coefficient_after (n : nat) (e : envelope) :
  coefficient n e = amplitudeCoefficient_ (after n e).
Proof. destruct n; reflexivity. Qed.

Lemma numeric_after_advance (n : nat) (e : envelope) :
  after (S n) e = after n (advance e).
Proof.
  induction n as [|n IH]; [reflexivity|].
  change (after (S (S n)) e) with (advance (after (S n) e)).
  rewrite IH. reflexivity.
Qed.

Lemma numeric_coefficient_advance (n : nat) (e : envelope) :
  coefficient (S n) e = coefficient n (advance e).
Proof.
  now rewrite !numeric_coefficient_after, numeric_after_advance.
Qed.

Lemma advance_attack (e : envelope) :
  phase_ e = ATTACK ->
  let x := rnd (amplitudeCoefficient_ e + attackStep_ e) in
  (1 <= x ->
   advance e = set_phase_ DECAY (set_amplitude 1 e)) /\
  (x < 1 -> advance e = set_amplitude x e).
Proof.
  intros Hp x. unfold advance. rewrite Hp. numbers. fold x.
  destruct (Rle_dec 1 x); split; intros; try lra; reflexivity.
Qed.

Lemma advance_decay (e : envelope) :
  phase_ e = DECAY ->
  let x := rnd (amplitudeCoefficient_ e - decayStep_ e) in
  (x <= sustainLevel_ e ->
   advance e
   = set_phase_ SUSTAIN (set_amplitude (sustainLevel_ e) e)) /\
  (sustainLevel_ e < x -> advance e = set_amplitude x e).
Proof.
  intros Hp x. unfold advance. rewrite Hp. numbers. fold x.
  destruct (Rle_dec x (sustainLevel_ e)); split; intros; try lra; reflexivity.
Qed.

Lemma after_sustained (n : nat) (e : envelope) :
  phase_ e = SUSTAIN -> after n e = e.
Proof.
  intros Hp. induction n as [|n IH]; [reflexivity|].
  cbn [after getNextAmplitudeCoefficient snd]. rewrite IH.
  unfold advance. rewrite Hp. reflexivity.
Qed.

Lemma rnd_below (x y : R) : rnd y = y -> x <= y -> rnd x <= y.
Proof. intros Hy Hxy. rewrite <- Hy. now apply rnd_monotone. Qed.

Lemma rnd_above (x y : R) : rnd y = y -> y <= x -> y <= rnd x.
Proof. intros Hy Hxy. rewrite <- Hy. now apply rnd_monotone. Qed.

Lemma rnd_error (x : R) : 0 <= x <= 1 -> x - u <= rnd x <= x + u.
Proof.
  intros Hx. pose proof (rnd_accurate x Hx) as H.
  unfold Rabs in H. destruct (Rcase_abs (rnd x - x)); lra.
Qed.

Lemma error_nonneg : 0 <= u.
Proof.
  pose proof (rnd_accurate 0 ltac:(lra)) as H.
  pose proof (Rabs_pos (rnd 0 - 0)). lra.
Qed.

(** An attack from an amplitude [a] ends within [m + 1] calls when [m] steps,
    each short of the attack step by [u] at most, cover what is missing to
    1; the number [n] of its calls is that of the steps that fit into
    [1 - a], up to the rounding error. *)
Lemma attack_ends (m : nat) : forall e : envelope,
  phase_ e = ATTACK ->
  0 <= amplitudeCoefficient_ e <= 1 ->
  rnd (amplitudeCoefficient_ e) = amplitudeCoefficient_ e ->
  u < attackStep_ e ->
  1 - amplitudeCoefficient_ e <= INR m * (attackStep_ e - u) ->
  exists n, (1 <= n <= S m)%nat /\
    (forall k, (k < n)%nat ->
       phase_ (after k e) = ATTACK /\ coefficient k e <= coefficient (S k) e) /\
    after n e = set_phase_ DECAY (set_amplitude 1 e) /\
    (amplitudeCoefficient_ e < 1 ->
     (INR n - 1) * (attackStep_ e - u) < 1 - amplitudeCoefficient_ e) /\
    1 - amplitudeCoefficient_ e <= INR n * (attackStep_ e + u).
Proof.
  pose proof error_nonneg as Hu.
  assert (forall e : envelope,
            phase_ e = ATTACK -> 0 <= amplitudeCoefficient_ e <= 1 ->
            rnd (amplitudeCoefficient_ e) = amplitudeCoefficient_ e ->
            u < attackStep_ e ->
            1 <= rnd (amplitudeCoefficient_ e + attackStep_ e) ->
            exists n, (1 <= n <= 1)%nat /\
              (forall k, (k < n)%nat ->
                 phase_ (after k e) = ATTACK /\
                 coefficient k e <= coefficient (S k) e) /\
              after n e = set_phase_ DECAY (set_amplitude 1 e) /\
              (amplitudeCoefficient_ e < 1 ->
               (INR n - 1) * (attackStep_ e - u)
               < 1 - amplitudeCoefficient_ e) /\
              1 - amplitudeCoefficient_ e <= INR n * (attackStep_ e + u))
    as Hlast.
  { intros e Hp Ha Hr Hs Hx.
    destruct (advance_attack e Hp) as [Htop _]. cbv zeta in Htop.
    exists 1%nat. split; [lia|]. split; [|split; [|split]].
    - intros k Hk. assert (k = 0)%nat as -> by lia. split; [exact Hp|].
      cbn [coefficient after getNextAmplitudeCoefficient fst].
      rewrite (Htop Hx). numbers. lra.
    - cbn [after getNextAmplitudeCoefficient snd]. exact (Htop Hx).
    - intros Hlt. cbn [INR]. lra.
    - cbn [INR]. rewrite Rmult_1_l.
      destruct (Rlt_dec (amplitudeCoefficient_ e + attackStep_ e) 1)
        as [Hsum|Hsum]; [|lra].
      destruct (rnd_error (amplitudeCoefficient_ e + attackStep_ e))
        as [_ Hhigh]; lra. }
  induction m as [|m IH]; intros e Hp Ha Hr Hs Hm.
  - cbn [INR] in Hm.
    destruct (Hlast e Hp Ha Hr Hs) as (n & Hn & H);
      [|exists n; split; [lia|exact H]].
    apply rnd_above; [exact rnd_1 | lra].
  - destruct (advance_attack e Hp) as [_ Hbelow]. cbv zeta in *.
    set (x := rnd (amplitudeCoefficient_ e + attackStep_ e)) in *.
    assert (amplitudeCoefficient_ e <= x) as Hup
      by (apply rnd_above; [exact Hr | lra]).
    destruct (Rle_dec 1 x) as [Hx|Hx].
    + destruct (Hlast e Hp Ha Hr Hs Hx) as (n & Hn & H).
      exists n. split; [lia|exact H].
    + assert (x < 1) as Hlt by lra.
      assert (amplitudeCoefficient_ e + attackStep_ e < 1) as Hsum.
      { destruct (Rlt_dec (amplitudeCoefficient_ e + attackStep_ e) 1)
          as [H|H]; [exact H|].
        exfalso. apply Hx. apply rnd_above; [exact rnd_1 | lra]. }
      destruct (rnd_error (amplitudeCoefficient_ e + attackStep_ e))
        as [Hlow Hhigh]; [lra|]. fold x in Hlow, Hhigh.
      rewrite S_INR in Hm.
      destruct (IH (advance e))
        as (n & Hn & Hram & Hend & Hupper & Hlower);
        rewrite ?(Hbelow Hlt) in *; numbers;
        try (exact Hp || exact Hs || lra || apply rnd_idempotent).
      specialize (Hupper Hlt).
      exists (S n). split; [lia|]. split; [|split; [|split]].
      * intros [|k] Hk.
        -- split; [exact Hp|].
           cbn [coefficient after getNextAmplitudeCoefficient fst].
           rewrite (Hbelow Hlt). numbers. exact Hup.
        -- rewrite numeric_after_advance.
           rewrite (numeric_coefficient_advance (S k) e).
           rewrite (numeric_coefficient_advance k e).
           rewrite (Hbelow Hlt). apply Hram. lia.
      * rewrite numeric_after_advance, (Hbelow Hlt), Hend. reflexivity.
      * intros _. rewrite S_INR. lra.
      * rewrite S_INR. lra.
Qed.

(** A ramp down, in [DECAY] to the sustain level or in [RELEASE] to 0: the
    phase [ramp], the level [floor] at which it ends, its [step] and the
    phase [rest] that follows. *)
Section RampDown.
Variables (ramp rest : Phase_) (floor step : envelope -> R).
Hypothesis floor_kept :
  forall (x : R) (e : envelope), floor (set_amplitude x e) = floor e.
Hypothesis step_kept :
  forall (x : R) (e : envelope), step (set_amplitude x e) = step e.
Hypothesis advance_ramp : forall e : envelope,
  phase_ e = ramp ->
  let x := rnd (amplitudeCoefficient_ e - step e) in
  (x <= floor e ->
   advance e = set_phase_ rest (set_amplitude (floor e) e)) /\
  (floor e < x -> advance e = set_amplitude x e).

Lemma ramp_down_ends (m : nat) : forall e : envelope,
  phase_ e = ramp ->
  0 <= floor e <= amplitudeCoefficient_ e ->
  amplitudeCoefficient_ e <= 1 ->
  rnd (amplitudeCoefficient_ e) = amplitudeCoefficient_ e ->
  rnd (floor e) = floor e ->
  0 <= step e ->
  amplitudeCoefficient_ e - floor e <= INR m * (step e - u) ->
  exists n, (1 <= n <= S m)%nat /\
    (forall k, (k < n)%nat ->
       phase_ (after k e) = ramp /\ coefficient (S k) e <= coefficient k e) /\
    after n e = set_phase_ rest (set_amplitude (floor e) e) /\
    (floor e < amplitudeCoefficient_ e ->
     (INR n - 1) * (step e - u) < amplitudeCoefficient_ e - floor e) /\
    amplitudeCoefficient_ e - floor e <= INR n * (step e + u).
Proof.
  pose proof error_nonneg as Hu.
  assert (forall e : envelope,
            phase_ e = ramp -> 0 <= floor e <= amplitudeCoefficient_ e ->
            amplitudeCoefficient_ e <= 1 ->
            rnd (amplitudeCoefficient_ e) = amplitudeCoefficient_ e ->
            0 <= step e ->
            rnd (amplitudeCoefficient_ e - step e) <= floor e ->
            exists n, (1 <= n <= 1)%nat /\
              (forall k, (k < n)%nat ->
                 phase_ (after k e) = ramp /\
                 coefficient (S k) e <= coefficient k e) /\
              after n e = set_phase_ rest (set_amplitude (floor e) e) /\
              (floor e < amplitudeCoefficient_ e ->
               (INR n - 1) * (step e - u) < amplitudeCoefficient_ e - floor e)
              /\ amplitudeCoefficient_ e - floor e <= INR n * (step e + u))
    as Hlast.
  { intros e Hp Hs Ha Hr Hstep Hx.
    destruct (advance_ramp e Hp) as [Hbottom _]. cbv zeta in Hbottom.
    exists 1%nat. split; [lia|]. split; [|split; [|split]].
    - intros k Hk. assert (k = 0)%nat as -> by lia. split; [exact Hp|].
      cbn [coefficient after getNextAmplitudeCoefficient fst].
      rewrite (Hbottom Hx). numbers. lra.
    - cbn [after getNextAmplitudeCoefficient snd]. exact (Hbottom Hx).
    - intros Hlt. cbn [INR]. lra.
    - cbn [INR]. rewrite Rmult_1_l.
      destruct (Rlt_dec (floor e) (amplitudeCoefficient_ e - step e))
        as [Hdiff|Hdiff]; [|lra].
      destruct (rnd_error (amplitudeCoefficient_ e - step e))
        as [Hlow _]; lra. }
  induction m as [|m IH]; intros e Hp Hs Ha Hr Hrs Hstep Hm.
  - cbn [INR] in Hm.
    destruct (Hlast e Hp Hs Ha Hr Hstep) as (n & Hn & H);
      [|exists n; split; [lia|exact H]].
    apply rnd_below; [exact Hrs | lra].
  - destruct (advance_ramp e Hp) as [_ Habove]. cbv zeta in *.
    set (x := rnd (amplitudeCoefficient_ e - step e)) in *.
    assert (x <= amplitudeCoefficient_ e) as Hdown
      by (apply rnd_below; [exact Hr | lra]).
    destruct (Rle_dec x (floor e)) as [Hx|Hx].
    + destruct (Hlast e Hp Hs Ha Hr Hstep Hx) as (n & Hn & H).
      exists n. split; [lia|exact H].
    + assert (floor e < x) as Hlt by lra.
      assert (floor e < amplitudeCoefficient_ e - step e) as Hdiff.
      { destruct (Rlt_dec (floor e) (amplitudeCoefficient_ e - step e))
          as [H|H]; [exact H|].
        exfalso. apply Hx. apply rnd_below; [exact Hrs | lra]. }
      destruct (rnd_error (amplitudeCoefficient_ e - step e))
        as [Hlow Hhigh]; [lra|]. fold x in Hlow, Hhigh.
      rewrite S_INR in Hm.
      destruct (IH (advance e))
        as (n & Hn & Hram & Hend & Hupper & Hlower);
        rewrite ?(Habove Hlt) in *; rewrite ?floor_kept, ?step_kept in *;
        numbers;
        try (exact Hp || exact Hrs || exact Hstep || lra
             || apply rnd_idempotent).
      specialize (Hupper Hlt).
      exists (S n). split; [lia|]. split; [|split; [|split]].
      * intros [|k] Hk.
        -- split; [exact Hp|].
           cbn [coefficient after getNextAmplitudeCoefficient fst].
           rewrite (Habove Hlt). numbers. exact Hdown.
        -- rewrite numeric_after_advance.
           rewrite (numeric_coefficient_advance (S k) e).
           rewrite (numeric_coefficient_advance k e).
           rewrite (Habove Hlt). apply Hram. lia.
      * rewrite numeric_after_advance, (Habove Hlt), Hend. reflexivity.
      * intros _. rewrite S_INR. lra.
      * rewrite S_INR. lra.
Qed.
End RampDown.

Lemma advance_release (e : envelope) :
  phase_ e = RELEASE ->
  let x := rnd (amplitudeCoefficient_ e - releaseStep_ e) in
  (x <= 0 -> advance e = set_phase_ INACTIVE (set_amplitude 0 e)) /\
  (0 < x -> advance e = set_amplitude x e).
Proof.
  intros Hp x. unfold advance. rewrite Hp. numbers. fold x.
  destruct (Rle_dec x 0); split; intros; try lra; reflexivity.
Qed.

Lemma above_rounding_error (d x : R) :
  u < d -> exists m : nat, x <= INR m * (d - u).
Proof.
  intros Hd. destruct (nat_above (x / (d - u))) as [m Hm].
  exists m. apply (Rmult_le_compat_r (d - u)) in Hm; [|lra].
  unfold Rdiv in Hm. rewrite Rmult_assoc, Rinv_l, Rmult_1_r in Hm by lra.
  exact Hm.
Qed.

Lemma startAttack_fields (e : envelope) :
  phase_ (startAttack e) = ATTACK /\
  amplitudeCoefficient_ (startAttack e) = 0 /\
  sustainLevel_ (startAttack e) = sustainLevel_ e.
Proof.
  unfold startAttack, recomputePhaseSteps_. numbers. comparisons.
  all: repeat split.
Qed.

Lemma startAttack_steps (e : envelope) :
  0 < attackTime_ e -> 0 < decayTime_ e ->
  attackStep_ (startAttack e) = rnd (SAMPLE_INTERVAL_ e / attackTime_ e) /\
  decayStep_ (startAttack e)
  = rnd (rnd (rnd (1 - sustainLevel_ e) * SAMPLE_INTERVAL_ e)
         / decayTime_ e).
Proof.
  intros HA HD. unfold startAttack, recomputePhaseSteps_. numbers.
  comparisons.
  all: try lra.
Qed.

(** With a sustain level of 1 the decay step is 1 or 0. *)
Lemma decayStep_at_sustain_1 (e : envelope) :
  sustainLevel_ e = 1 -> 0 <= decayStep_ (startAttack e).
Proof.
  intros Hs. unfold startAttack, recomputePhaseSteps_. numbers.
  comparisons.
  all: try lra.
  all: rewrite Hs; replace (1 - 1) with 0 by ring.
  all: rewrite rnd_0, Rmult_0_l, rnd_0.
  all: unfold Rdiv; rewrite Rmult_0_l, rnd_0; lra.
Qed.

(** A note that is held, with the lengths of its attack and its decay. *)
Lemma held_note (e : envelope) :
  0 <= sustainLevel_ e <= 1 ->
  rnd (sustainLevel_ e) = sustainLevel_ e ->
  u < attackStep_ (startAttack e) ->
  (sustainLevel_ e < 1 -> u < decayStep_ (startAttack e)) ->
  exists nA nD : nat,
    (1 <= nA)%nat /\ (1 <= nD)%nat /\
    attackDecaySustain rnd (startAttack e) nA nD /\
    ((INR nA - 1) * (attackStep_ (startAttack e) - u) < 1 /\
     1 <= INR nA * (attackStep_ (startAttack e) + u)) /\
    (sustainLevel_ e < 1 ->
     (INR nD - 1) * (decayStep_ (startAttack e) - u) < 1 - sustainLevel_ e /\
     1 - sustainLevel_ e <= INR nD * (decayStep_ (startAttack e) + u)).
Proof.
  intros Hs Hrs HA HD.
  destruct (startAttack_fields e) as (Hp0 & Ha0 & Hs0).
  set (e0 := startAttack e) in *.
  destruct (above_rounding_error (attackStep_ e0) (1 - amplitudeCoefficient_ e0)
              HA) as [mA HmA].
  destruct (attack_ends mA e0 Hp0)
    as (nA & HnA & HramA & HendA & HupperA & HlowerA);
    rewrite ?Ha0 in *;
    try (exact HA || exact HmA || exact rnd_0 || lra).
  set (e1 := set_phase_ DECAY (set_amplitude 1 e0)) in *.
  assert (exists mD : nat,
            amplitudeCoefficient_ e1 - sustainLevel_ e1
            <= INR mD * (decayStep_ e1 - u) /\ 0 <= decayStep_ e1)
    as (mD & HmD & Hstep).
  { unfold e1. numbers. rewrite Hs0.
    destruct (Req_dec_T (sustainLevel_ e) 1) as [H1|H1].
    - exists 0%nat. cbn [INR]. split; [lra|].
      now apply decayStep_at_sustain_1.
    - assert (sustainLevel_ e < 1) as Hlt by lra. specialize (HD Hlt).
      destruct (above_rounding_error (decayStep_ e0) (1 - sustainLevel_ e) HD)
        as [mD HmD].
      exists mD. split; [exact HmD|]. pose proof error_nonneg. lra. }
  assert (phase_ e1 = DECAY) as Hp1 by reflexivity.
  assert (sustainLevel_ e1 = sustainLevel_ e) as Hs1 by exact Hs0.
  assert (amplitudeCoefficient_ e1 = 1) as Ha1 by reflexivity.
  assert (decayStep_ e1 = decayStep_ e0) as Hd1 by reflexivity.
  destruct (ramp_down_ends DECAY SUSTAIN sustainLevel_ decayStep_
              (fun _ _ => eq_refl) (fun _ _ => eq_refl) advance_decay
              mD e1 Hp1) as (nD & HnD & HramD & HendD & HupperD & HlowerD);
    [rewrite Hs1, Ha1; lra | rewrite Ha1; lra | rewrite Ha1; exact rnd_1
    | rewrite Hs1; exact Hrs | exact Hstep | exact HmD |].
  rewrite Hs1, Ha1, Hd1 in HupperD, HlowerD.
  assert (forall k, after (nA + k) e0 = after k e1) as Hshift.
  { intros k. induction k as [|k IH].
    - rewrite Nat.add_0_r. exact HendA.
    - rewrite Nat.add_succ_r. cbn [after]. now rewrite IH. }
  exists nA, nD. split; [lia|]. split; [lia|]. split; [|split].
  - split; [exact HramA|]. split; [rewrite HendA; reflexivity|].
    split; [rewrite numeric_coefficient_after, HendA; reflexivity|]. split.
    + intros k Hk. replace k with (nA + (k - nA))%nat by lia.
      rewrite !numeric_coefficient_after, <- Nat.add_succ_r, !Hshift.
      rewrite <- !numeric_coefficient_after. apply HramD. lia.
    + intros k Hk. replace k with (nA + (nD + (k - nA - nD)))%nat by lia.
      rewrite numeric_coefficient_after, Hshift.
      assert (forall j, after (nD + j) e1 = after nD e1) as Hstay.
      { intros j. induction j as [|j IH].
        - now rewrite Nat.add_0_r.
        - rewrite Nat.add_succ_r.
          cbn [after getNextAmplitudeCoefficient snd].
          rewrite IH, HendD. reflexivity. }
      rewrite Hstay, HendD. split; reflexivity.
  - split; [|lra]. assert (0 < 1) as H01 by lra.
    specialize (HupperA H01). lra.
  - intros Hlt. split; [apply HupperD; exact Hlt | exact HlowerD].
Qed.

(** C1, as the code has it.  In rounded arithmetic, for an envelope with a
    sustain level between 0 and 1 whose attack step and (below a sustain
    level of 1) decay step exceed the rounding error [u] of a result between
    0 and 1: after [startAttack], the coefficients do not decrease while the
    phase is [ATTACK]; after a number [nA >= 1] of calls the coefficient is
    exactly 1 and the phase [DECAY]; the coefficients do not increase for the
    [nD >= 1] calls of [DECAY]; from call [nA + nD] on the phase is
    [SUSTAIN] and every call returns the sustain level. *)
Theorem attack_decay_sustain_rounded (e : envelope) :
  0 <= sustainLevel_ e <= 1 ->
  rnd (sustainLevel_ e) = sustainLevel_ e ->
  u < attackStep_ (startAttack e) ->
  (sustainLevel_ e < 1 -> u < decayStep_ (startAttack e)) ->
  exists nA nD : nat,
    (1 <= nA)%nat /\ (1 <= nD)%nat /\
    sustainLevel_ (startAttack e) = sustainLevel_ e /\
    attackDecaySustain rnd (startAttack e) nA nD.
Proof.
  intros Hs Hrs HA HD.
  destruct (held_note e Hs Hrs HA HD) as (nA & nD & HnA & HnD & Hshape & _).
  destruct (startAttack_fields e) as (_ & _ & Hsustain).
  exists nA, nD. split; [exact HnA|]. split; [exact HnD|].
  split; [exact Hsustain | exact Hshape].
Qed.

(** X1.  The lengths of the attack and of the decay, up to rounding.  In
    rounded arithmetic, for an envelope with a sustain level of at least 0
    and below 1 whose attack step and decay step exceed the rounding error
    [u] of a result between 0 and 1: after [startAttack], the number [nA] of
    calls of the attack is the number of attack steps that fit into 1, and
    the number [nD] of calls of the decay is the number of decay steps that
    fit into [1 - sustainLevel_], each step taken as [u] shorter for the
    upper bound and [u] longer for the lower one. *)
Theorem attack_and_decay_lengths_rounded (e : envelope) :
  0 <= sustainLevel_ e < 1 ->
  rnd (sustainLevel_ e) = sustainLevel_ e ->
  u < attackStep_ (startAttack e) ->
  u < decayStep_ (startAttack e) ->
  exists nA nD : nat,
    attackDecaySustain rnd (startAttack e) nA nD /\
    (INR nA - 1) * (attackStep_ (startAttack e) - u) < 1
    <= INR nA * (attackStep_ (startAttack e) + u) /\
    (INR nD - 1) * (decayStep_ (startAttack e) - u) < 1 - sustainLevel_ e
    <= INR nD * (decayStep_ (startAttack e) + u).
Proof.
  intros Hs Hrs HA HD.
  destruct (held_note e) as (nA & nD & _ & _ & Hshape & HboundA & HboundD);
    [lra | exact Hrs | exact HA | intros _; exact HD |].
  exists nA, nD. split; [exact Hshape|]. split; [exact HboundA|].
  apply HboundD. lra.
Qed.

Lemma startRelease_fields (e : envelope) :
  phase_ e <> RELEASE ->
  phase_ (startRelease e) = RELEASE /\
  amplitudeCoefficient_ (startRelease e) = amplitudeCoefficient_ e /\
  releaseStep_ (startRelease e)
  = (if Rle_dec (decayTime_ e) 0 then 1
     else rnd (rnd (amplitudeCoefficient_ e * SAMPLE_INTERVAL_ e)
               / decayTime_ e)).
Proof.
  intros Hp. unfold startRelease.
  destruct (EnvelopeGenerator.Phase__eq_dec (phase_ e) RELEASE);
    [contradiction|].
  numbers. destruct (Rle_dec (decayTime_ e) 0); repeat split.
Qed.

Lemma after_rested (n : nat) (e : envelope) :
  phase_ e = INACTIVE -> after n e = e.
Proof.
  intros Hp. induction n as [|n IH]; [reflexivity|].
  cbn [after getNextAmplitudeCoefficient snd]. rewrite IH.
  unfold advance. rewrite Hp. reflexivity.
Qed.

(** X2.  The release, in rounded arithmetic.  Released outside [RELEASE] at an
    amplitude between 0 and 1, with a release step above the rounding error
    [u]: the coefficients do not increase for the [n >= 1] calls of the
    release, the last of which returns exactly 0 and turns the phase to
    [INACTIVE], where every later call returns 0; [n] is the number of
    release steps that fit into the amplitude, up to rounding. *)
Theorem release_length_rounded (e : envelope) :
  phase_ e <> RELEASE ->
  0 < amplitudeCoefficient_ e <= 1 ->
  rnd (amplitudeCoefficient_ e) = amplitudeCoefficient_ e ->
  u < releaseStep_ (startRelease e) ->
  exists n : nat,
    (1 <= n)%nat /\
    (forall k, (k < n)%nat ->
       phase_ (after k (startRelease e)) = RELEASE /\
       coefficient (S k) (startRelease e) <= coefficient k (startRelease e)) /\
    (forall k, (n <= k)%nat ->
       phase_ (after k (startRelease e)) = INACTIVE /\
       coefficient k (startRelease e) = 0) /\
    (INR n - 1) * (releaseStep_ (startRelease e) - u)
    < amplitudeCoefficient_ e
    <= INR n * (releaseStep_ (startRelease e) + u).
Proof.
  intros Hp Ha Hr Hstep.
  destruct (startRelease_fields e Hp) as (Hp1 & Ha1 & _).
  set (r := startRelease e) in *.
  pose proof error_nonneg as Hu.
  destruct (above_rounding_error (releaseStep_ r) (amplitudeCoefficient_ r)
              Hstep) as [m Hm].
  destruct (ramp_down_ends RELEASE INACTIVE (fun _ => 0) releaseStep_
              (fun _ _ => eq_refl) (fun _ _ => eq_refl) advance_release
              m r Hp1) as (n & Hn & Hram & Hend & Hupper & Hlower);
    rewrite ?Ha1 in *; rewrite ?Rminus_0_r in *;
    try (exact Hr || exact rnd_0 || exact Hm || lra).
  exists n. split; [lia|]. split; [exact Hram|]. split.
  - intros k Hk. replace k with (n + (k - n))%nat by lia.
    assert (forall j, after (n + j) r = after n r) as Hstay.
    { intros j. induction j as [|j IH].
      - now rewrite Nat.add_0_r.
      - rewrite Nat.add_succ_r. cbn [after getNextAmplitudeCoefficient snd].
        rewrite IH, Hend. reflexivity. }
    rewrite numeric_coefficient_after, Hstay, Hend. split; reflexivity.
  - split; [apply Hupper; lra | exact Hlower].
Qed.
End RoundedEnvelopeFacts.

(** * The glide in rounded arithmetic *)

Section RoundedGlideFacts.
Import Numeric.Oscillator.

(** The rounding: monotone, symmetric, and exact at the results it
    returns, as rounding to the nearest binary64 number is. *)
Variable rnd : R -> R.
Hypothesis rnd_monotone : forall x y, x <= y -> rnd x <= rnd y.
Hypothesis rnd_idempotent : forall x, rnd (rnd x) = rnd x.
Hypothesis rnd_odd : forall x, rnd (- x) = - rnd x.

Abbreviation oscillator := (t (Arithmetic.rounded rnd)).
Abbreviation glide := (@gliding (Arithmetic.rounded rnd)).

Ltac numbers :=
  cbn [Arithmetic.add Arithmetic.sub Arithmetic.mul Arithmetic.div
       Arithmetic.leb Arithmetic.eqb Arithmetic.abs Arithmetic.zero
       Arithmetic.one Arithmetic.rounded Arithmetic.number
       SAMPLE_INTERVAL_ isGlideOn_ glideDuration_ glideDelta_
       currentGlidePitch_ targetGlidePitch_ toNumber gliding
       set_glideDelta_ set_currentGlidePitch_ set_targetGlidePitch_] in *.

Lemma rnd_zero : rnd 0 = 0.
Proof. pose proof (rnd_odd 0) as H. rewrite Ropp_0 in H. lra. Qed.

Lemma rnd_difference (p t' : R) : Rabs (rnd (p - t')) = Rabs (rnd (t' - p)).
Proof.
  replace (p - t') with (- (t' - p)) by ring. rewrite rnd_odd.
  apply Rabs_Ropp.
Qed.

(** A call in the middle of a glide: within one step of the target it
    returns the target, further away it adds the step. *)
Lemma glide_snap (o : oscillator) (delta p target : R) :
  isGlideOn_ o = true -> 0 < glideDuration_ o ->
  Rabs (rnd (p - target)) <= Rabs delta ->
  getGlideFrequency_ (glide o delta p target) target
  = (target, glide o delta target target).
Proof.
  intros Hon HD Hnear. unfold getGlideFrequency_, snaps. numbers.
  rewrite Hon. destruct (Rle_dec (glideDuration_ o) 0); [lra|].
  destruct (Rle_dec _ _); [reflexivity|contradiction].
Qed.

Lemma glide_move (o : oscillator) (delta p target : R) :
  isGlideOn_ o = true -> 0 < glideDuration_ o ->
  Rabs delta < Rabs (rnd (p - target)) ->
  getGlideFrequency_ (glide o delta p target) target
  = (rnd (p + delta), glide o delta (rnd (p + delta)) target).
Proof.
  intros Hon HD Hfar. unfold getGlideFrequency_, snaps, targetDiffers.
  numbers. rewrite Hon. destruct (Rle_dec (glideDuration_ o) 0); [lra|].
  destruct (Rle_dec _ _); [lra|].
  destruct (Req_dec_T target target); [|contradiction]. reflexivity.
Qed.

(** The first call after the target has changed to one further away than
    the stored step. *)
Lemma glide_first (o : oscillator) (c target : R) :
  isGlideOn_ o = true -> 0 < glideDuration_ o ->
  currentGlidePitch_ o = Some c -> targetDiffers o target = true ->
  Rabs (toNumber (glideDelta_ o)) < Rabs (rnd (c - target)) ->
  let delta :=
    rnd (rnd (target - c) / rnd (glideDuration_ o / SAMPLE_INTERVAL_ o)) in
  getGlideFrequency_ o target
  = (rnd (c + delta), glide o delta (rnd (c + delta)) target).
Proof.
  intros Hon HD Hc Hdiff Hfar delta.
  unfold getGlideFrequency_, snaps. rewrite Hon, Hc, Hdiff. numbers.
  destruct (Rle_dec (glideDuration_ o) 0); [lra|].
  destruct (Rle_dec _ _); [lra|]. rewrite Hc. reflexivity.
Qed.

Lemma glide_off (o : oscillator) (target : R) :
  isGlideOn_ o = false -> fst (getGlideFrequency_ o target) = target.
Proof.
  intros Hoff. unfold getGlideFrequency_, snaps. rewrite Hoff. reflexivity.
Qed.

(** Further than one step from a target above means further than one step
    in exact terms too. *)
Lemma far_below (delta p target : R) :
  rnd delta = delta -> 0 <= delta -> p <= target ->
  Rabs delta < Rabs (rnd (p - target)) -> p + delta < target.
Proof.
  intros Hd Hpos Hle Hfar.
  destruct (Rlt_dec (p + delta) target) as [H|H]; [exact H|]. exfalso.
  assert (- delta <= p - target) as H1 by lra.
  apply rnd_monotone in H1. rewrite rnd_odd, Hd in H1.
  assert (rnd (p - target) <= 0) as H2.
  { rewrite <- rnd_zero. apply rnd_monotone. lra. }
  rewrite (Rabs_pos_eq delta), (Rabs_left1 (rnd (p - target))) in Hfar
    by assumption.
  lra.
Qed.

Lemma far_above (delta p target : R) :
  rnd delta = delta -> delta <= 0 -> target <= p ->
  Rabs delta < Rabs (rnd (p - target)) -> target < p + delta.
Proof.
  intros Hd Hneg Hle Hfar.
  destruct (Rlt_dec target (p + delta)) as [H|H]; [exact H|]. exfalso.
  assert (p - target <= - delta) as H1 by lra.
  apply rnd_monotone in H1. rewrite rnd_odd, Hd in H1.
  assert (0 <= rnd (p - target)) as H2.
  { rewrite <- rnd_zero. apply rnd_monotone. lra. }
  rewrite (Rabs_left1 delta), (Rabs_pos_eq (rnd (p - target))) in Hfar
    by assumption.
  lra.
Qed.


Lemma glide_far (o : oscillator) (delta p target : R) :
  isGlideOn_ o = true -> 0 < glideDuration_ o ->
  snaps (glide o delta p target) target = false ->
  Rabs delta < Rabs (rnd (p - target)).
Proof.
  intros Hon HD. unfold snaps. numbers. rewrite Hon.
  destruct (Rle_dec (glideDuration_ o) 0); [lra|].
  destruct (Rle_dec _ _); [discriminate|]. intros _. lra.
Qed.

Lemma glide_near (o : oscillator) (delta p target : R) :
  isGlideOn_ o = true -> 0 < glideDuration_ o ->
  snaps (glide o delta p target) target = true ->
  Rabs (rnd (p - target)) <= Rabs delta.
Proof.
  intros Hon HD. unfold snaps. numbers. rewrite Hon.
  destruct (Rle_dec (glideDuration_ o) 0); [lra|].
  destruct (Rle_dec _ _); [intros _; assumption|discriminate].
Qed.

(** Once the target is returned it is returned for good. *)
Lemma glide_arrived (o : oscillator) (delta target : R) (k : nat) :
  isGlideOn_ o = true -> 0 < glideDuration_ o ->
  glides k (glide o delta target target) target
  = glide o delta target target /\
  pitch k (glide o delta target target) target = target.
Proof.
  intros Hon HD.
  assert (getGlideFrequency_ (glide o delta target target) target
          = (target, glide o delta target target)) as Hstep.
  { apply glide_snap; try assumption.
    replace (target - target) with 0 by ring. rewrite rnd_zero, Rabs_R0.
    apply Rabs_pos. }
  assert (forall j, glides j (glide o delta target target) target
                    = glide o delta target target) as Hstay.
  { induction j as [|j IH]; [reflexivity|].
    cbn [glides]. rewrite IH, Hstep. reflexivity. }
  split; [apply Hstay|]. destruct k as [|k]; [reflexivity|].
  cbn [pitch]. rewrite Hstay, Hstep. reflexivity.
Qed.

Lemma glides_next (o : oscillator) (target : R) (n : nat) :
  glides (S n) o target
  = snd (getGlideFrequency_ (glides n o target) target).
Proof. reflexivity. Qed.

Lemma glides_plus (o : oscillator) (target : R) (n k : nat) :
  glides (n + k) o target = glides k (glides n o target) target.
Proof.
  induction k as [|k IH]; [now rewrite Nat.add_0_r|].
  rewrite Nat.add_succ_r. cbn [glides]. now rewrite IH.
Qed.

Lemma pitch_plus (o : oscillator) (target : R) (n k : nat) :
  pitch (n + S k) o target = pitch (S k) (glides n o target) target.
Proof.
  rewrite Nat.add_succ_r. cbn [pitch]. now rewrite glides_plus.
Qed.

(** The first index at which a test holds, up to a bound. *)
Lemma first_true (g : nat -> bool) (K : nat) :
  (forall j, (j <= K)%nat -> g j = false) \/
  (exists j, (j <= K)%nat /\ g j = true /\
             forall i, (i < j)%nat -> g i = false).
Proof.
  induction K as [|K [IH|(j & Hj & Hg & Hfirst)]].
  - destruct (g 0%nat) eqn:E.
    + right. exists 0%nat. repeat split; [lia | exact E | intros; lia].
    + left. intros j Hj. now replace j with 0%nat by lia.
  - destruct (g (S K)) eqn:E.
    + right. exists (S K). repeat split; [lia | exact E |].
      intros i Hi. apply IH. lia.
    + left. intros j Hj. destruct (Nat.eq_dec j (S K)) as [->|Hne];
        [exact E | apply IH; lia].
  - right. exists j. repeat split; [lia | exact Hg | exact Hfirst].
Qed.

Section Ascending.
Variables (o : oscillator) (c target eps : R).
Hypothesis glideOn : isGlideOn_ o = true.
Hypothesis positiveDuration : 0 < glideDuration_ o.
Hypothesis current : currentGlidePitch_ o = Some c.
Hypothesis current_rounded : rnd c = c.
Hypothesis target_rounded : rnd target = target.
Hypothesis newTarget : targetDiffers o target = true.
Hypothesis far : Rabs (toNumber (glideDelta_ o)) < Rabs (rnd (c - target)).

Let delta :=
  rnd (rnd (target - c) / rnd (glideDuration_ o / SAMPLE_INTERVAL_ o)).

Hypothesis upwards : 0 <= delta <= target - c.
Hypothesis accurate :
  forall x, c <= x <= target -> Rabs (rnd x - x) <= eps.
Hypothesis accurate_distance :
  forall x, 0 <= x <= target - c -> Rabs (rnd x - x) <= eps.
Hypothesis above_error : eps < delta.

Lemma ascending_error (x : R) :
  c <= x <= target -> x - eps <= rnd x <= x + eps.
Proof.
  intros Hx. pose proof (accurate x Hx) as H.
  unfold Rabs in H. destruct (Rcase_abs (rnd x - x)); lra.
Qed.

Lemma delta_rounded : rnd delta = delta.
Proof. apply rnd_idempotent. Qed.

(** As long as no call after the first has returned the target, each call
    adds the step, and the pitch climbs towards the target. *)
Lemma ascent (k : nat) :
  (forall j, (1 <= j < S k)%nat -> snaps (glides j o target) target = false) ->
  glides (S k) o target = glide o delta (pitch (S k) o target) target /\
  rnd (pitch (S k) o target) = pitch (S k) o target /\
  c + INR (S k) * (delta - eps) <= pitch (S k) o target <= target /\
  pitch k o target <= pitch (S k) o target /\
  pitch (S k) o target = rnd (pitch k o target + delta) /\
  pitch (S k) o target <= c + INR (S k) * (delta + eps).
Proof.
  induction k as [|k IH]; intros Hmoves.
  - pose proof (glide_first o c target glideOn positiveDuration current
                  newTarget far) as Hfirst.
    cbv zeta in Hfirst. fold delta in Hfirst.
    cbn [glides pitch]. rewrite Hfirst, current. cbn [fst snd]. numbers.
    split; [reflexivity|]. split; [apply rnd_idempotent|].
    pose proof (ascending_error (c + delta) ltac:(lra)) as [Hlow Hslow].
    assert (rnd (c + delta) <= target) as Hhigh.
    { rewrite <- target_rounded. apply rnd_monotone. lra. }
    assert (c <= rnd (c + delta)) as Hmono.
    { rewrite <- current_rounded at 1. apply rnd_monotone. lra. }
    cbn [INR]. repeat split; try lra.
  - destruct IH as (Hstate & Hr & [Hlow Hhigh] & Hmono & Hstep & Hslow).
    { intros j Hj. apply Hmoves. lia. }
    set (p := pitch (S k) o target) in *.
    assert (Rabs delta < Rabs (rnd (p - target))) as Hfar.
    { apply (glide_far o); try assumption. rewrite <- Hstate.
      apply Hmoves. lia. }
    pose proof (far_below delta p target delta_rounded ltac:(lra) Hhigh Hfar)
      as Hgap.
    pose proof (glide_move o delta p target glideOn positiveDuration Hfar)
      as Hmove.
    assert (pitch (S (S k)) o target = rnd (p + delta)) as Hp.
    { cbn [pitch]. rewrite Hstate, Hmove. reflexivity. }
    assert (0 <= INR (S k)) as Hk by apply pos_INR.
    assert (0 <= INR (S k) * (delta - eps)) as Hprod
      by (apply Rmult_le_pos; lra).
    pose proof (ascending_error (p + delta) ltac:(lra)) as [Herr Herr'].
    rewrite Hp. split.
    { rewrite glides_next, Hstate, Hmove. reflexivity. }
    split; [apply rnd_idempotent|].
    assert (rnd (p + delta) <= target) as Hhigh'.
    { rewrite <- target_rounded. apply rnd_monotone. lra. }
    assert (p <= rnd (p + delta)) as Hmono'.
    { rewrite <- Hr at 1. apply rnd_monotone. lra. }
    rewrite (S_INR (S k)). repeat split; try lra.
Qed.

(** The glide arrives: some call [n >= 2] returns the target, after [n - 1]
    calls that each added the step. *)
Lemma ascent_arrives :
  exists n, (2 <= n)%nat /\
    INR (n - 1) * (delta - eps) <= target - c <= INR n * (delta + eps) /\
    (forall k, (1 <= k)%nat -> glideDelta_ (glides k o target) = Some delta) /\
    (forall k, (1 <= k < n)%nat ->
       pitch k o target = rnd (pitch (k - 1) o target + delta) /\
       pitch (k - 1) o target <= pitch k o target <= target) /\
    (forall k, (n <= k)%nat -> pitch k o target = target).
Proof.
  destruct (nat_above ((target - c) / (delta - eps))) as [K HK].
  apply (Rmult_le_compat_r (delta - eps)) in HK; [|lra].
  unfold Rdiv in HK. rewrite Rmult_assoc, Rinv_l, Rmult_1_r in HK by lra.
  destruct (first_true (fun j => snaps (glides (S j) o target) target) K)
    as [Hnone|(j & Hj & Hsnap & Hfirst)].
  - exfalso.
    destruct (ascent (S K)) as (_ & _ & [Hlow Hhigh] & _).
    { intros i Hi. destruct i as [|i]; [lia|]. apply Hnone. lia. }
    rewrite (S_INR (S K)), (S_INR K) in Hlow. nra.
  - assert (forall i, (1 <= i < S j)%nat
                      -> snaps (glides i o target) target = false) as Hmoves.
    { intros i Hi. destruct i as [|i]; [lia|]. apply Hfirst. lia. }
    destruct (ascent j Hmoves)
      as (Hstate & Hr & [Hlow Hhigh] & _ & _ & Hslow).
    set (p := pitch (S j) o target) in *.
    assert (Rabs (rnd (p - target)) <= Rabs delta) as Hnear.
    { apply (glide_near o); try assumption. rewrite <- Hstate. exact Hsnap. }
    assert (target - p <= delta + eps) as Hrest.
    { rewrite rnd_difference, (Rabs_pos_eq delta) in Hnear by lra.
      assert (0 <= INR (S j) * (delta - eps)) as Hprod
        by (apply Rmult_le_pos; [apply pos_INR | lra]).
      pose proof (accurate_distance (target - p) ltac:(lra)) as Hacc.
      assert (0 <= rnd (target - p)) as Hpos.
      { rewrite <- rnd_zero. apply rnd_monotone. lra. }
      rewrite (Rabs_pos_eq (rnd (target - p))) in Hnear by exact Hpos.
      unfold Rabs in Hacc. destruct (Rcase_abs _); lra. }
    assert (getGlideFrequency_ (glides (S j) o target) target
            = (target, glide o delta target target)) as Hlast.
    { rewrite Hstate. apply glide_snap; assumption. }
    assert (glides (S (S j)) o target = glide o delta target target) as Hend
      by (rewrite glides_next, Hlast; reflexivity).
    exists (S (S j)). split; [lia|]. split.
    { replace (S (S j) - 1)%nat with (S j) by lia.
      rewrite (S_INR (S j)). lra. }
    split; [|split].
    + intros k Hk. destruct (Nat.lt_ge_cases k (S (S j))) as [Hlt|Hge].
      * destruct k as [|k]; [lia|].
        destruct (ascent k) as (Hst & _).
        { intros i Hi. apply Hmoves. lia. }
        rewrite Hst. reflexivity.
      * replace k with (S (S j) + (k - S (S j)))%nat by lia.
        rewrite glides_plus, Hend.
        destruct (glide_arrived o delta target (k - S (S j)) glideOn
                    positiveDuration) as [-> _].
        reflexivity.
    + intros k Hk. destruct k as [|k]; [lia|].
      destruct (ascent k) as (_ & _ & [_ Hhi] & Hmo & Hst & _).
      { intros i Hi. apply Hmoves. lia. }
      replace (S k - 1)%nat with k by lia. repeat split; assumption.
    + intros k Hk. destruct (Nat.eq_dec k (S (S j))) as [->|Hne].
      * cbn [pitch]. rewrite Hlast. reflexivity.
      * replace k with (S (S j) + S (k - S (S (S j))))%nat by lia.
        rewrite pitch_plus, Hend.
        apply (glide_arrived o delta target _ glideOn positiveDuration).
Qed.
End Ascending.

Section Descending.
Variables (o : oscillator) (c target eps : R).
Hypothesis glideOn : isGlideOn_ o = true.
Hypothesis positiveDuration : 0 < glideDuration_ o.
Hypothesis current : currentGlidePitch_ o = Some c.
Hypothesis current_rounded : rnd c = c.
Hypothesis target_rounded : rnd target = target.
Hypothesis newTarget : targetDiffers o target = true.
Hypothesis far : Rabs (toNumber (glideDelta_ o)) < Rabs (rnd (c - target)).

Let delta :=
  rnd (rnd (target - c) / rnd (glideDuration_ o / SAMPLE_INTERVAL_ o)).

Hypothesis downwards : target - c <= delta <= 0.
Hypothesis accurate :
  forall x, target <= x <= c -> Rabs (rnd x - x) <= eps.
Hypothesis accurate_distance :
  forall x, 0 <= x <= c - target -> Rabs (rnd x - x) <= eps.
Hypothesis above_error : eps < - delta.

Lemma descending_error (x : R) :
  target <= x <= c -> x - eps <= rnd x <= x + eps.
Proof.
  intros Hx. pose proof (accurate x Hx) as H.
  unfold Rabs in H. destruct (Rcase_abs (rnd x - x)); lra.
Qed.

(** As long as no call after the first has returned the target, each call
    adds the step, and the pitch falls towards the target. *)
Lemma descent (k : nat) :
  (forall j, (1 <= j < S k)%nat -> snaps (glides j o target) target = false) ->
  glides (S k) o target = glide o delta (pitch (S k) o target) target /\
  rnd (pitch (S k) o target) = pitch (S k) o target /\
  target <= pitch (S k) o target <= c - INR (S k) * (- delta - eps) /\
  pitch (S k) o target <= pitch k o target /\
  pitch (S k) o target = rnd (pitch k o target + delta) /\
  c - INR (S k) * (- delta + eps) <= pitch (S k) o target.
Proof.
  induction k as [|k IH]; intros Hmoves.
  - pose proof (glide_first o c target glideOn positiveDuration current
                  newTarget far) as Hfirst.
    cbv zeta in Hfirst. fold delta in Hfirst.
    cbn [glides pitch]. rewrite Hfirst, current. cbn [fst snd]. numbers.
    split; [reflexivity|]. split; [apply rnd_idempotent|].
    pose proof (descending_error (c + delta) ltac:(lra)) as [Hslow Hhigh].
    assert (target <= rnd (c + delta)) as Hlow.
    { rewrite <- target_rounded at 1. apply rnd_monotone. lra. }
    assert (rnd (c + delta) <= c) as Hmono.
    { rewrite <- current_rounded. apply rnd_monotone. lra. }
    cbn [INR]. repeat split; try lra.
  - destruct IH as (Hstate & Hr & [Hlow Hhigh] & Hmono & Hstep & Hslow).
    { intros j Hj. apply Hmoves. lia. }
    set (p := pitch (S k) o target) in *.
    assert (Rabs delta < Rabs (rnd (p - target))) as Hfar.
    { apply (glide_far o); try assumption. rewrite <- Hstate.
      apply Hmoves. lia. }
    pose proof (far_above delta p target (rnd_idempotent _) ltac:(lra) Hlow
                  Hfar) as Hgap.
    pose proof (glide_move o delta p target glideOn positiveDuration Hfar)
      as Hmove.
    assert (pitch (S (S k)) o target = rnd (p + delta)) as Hp.
    { cbn [pitch]. rewrite Hstate, Hmove. reflexivity. }
    assert (0 <= INR (S k)) as Hk by apply pos_INR.
    assert (0 <= INR (S k) * (- delta - eps)) as Hprod
      by (apply Rmult_le_pos; lra).
    pose proof (descending_error (p + delta) ltac:(lra)) as [Herr' Herr].
    rewrite Hp. split.
    { rewrite glides_next, Hstate, Hmove. reflexivity. }
    split; [apply rnd_idempotent|].
    assert (target <= rnd (p + delta)) as Hlow'.
    { rewrite <- target_rounded at 1. apply rnd_monotone. lra. }
    assert (rnd (p + delta) <= p) as Hmono'.
    { rewrite <- Hr. apply rnd_monotone. lra. }
    rewrite (S_INR (S k)). repeat split; try lra.
Qed.

Lemma descent_arrives :
  exists n, (2 <= n)%nat /\
    INR (n - 1) * (- delta - eps) <= c - target <= INR n * (- delta + eps) /\
    (forall k, (1 <= k)%nat -> glideDelta_ (glides k o target) = Some delta) /\
    (forall k, (1 <= k < n)%nat ->
       pitch k o target = rnd (pitch (k - 1) o target + delta) /\
       target <= pitch k o target <= pitch (k - 1) o target) /\
    (forall k, (n <= k)%nat -> pitch k o target = target).
Proof.
  destruct (nat_above ((c - target) / (- delta - eps))) as [K HK].
  apply (Rmult_le_compat_r (- delta - eps)) in HK; [|lra].
  unfold Rdiv in HK. rewrite Rmult_assoc, Rinv_l, Rmult_1_r in HK by lra.
  destruct (first_true (fun j => snaps (glides (S j) o target) target) K)
    as [Hnone|(j & Hj & Hsnap & Hfirst)].
  - exfalso.
    destruct (descent (S K)) as (_ & _ & [Hlow Hhigh] & _).
    { intros i Hi. destruct i as [|i]; [lia|]. apply Hnone. lia. }
    rewrite (S_INR (S K)), (S_INR K) in Hhigh. nra.
  - assert (forall i, (1 <= i < S j)%nat
                      -> snaps (glides i o target) target = false) as Hmoves.
    { intros i Hi. destruct i as [|i]; [lia|]. apply Hfirst. lia. }
    destruct (descent j Hmoves)
      as (Hstate & Hr & [Hlow Hhigh] & _ & _ & Hslow).
    set (p := pitch (S j) o target) in *.
    assert (Rabs (rnd (p - target)) <= Rabs delta) as Hnear.
    { apply (glide_near o); try assumption. rewrite <- Hstate. exact Hsnap. }
    assert (p - target <= - delta + eps) as Hrest.
    { rewrite (Rabs_left1 delta) in Hnear by lra.
      assert (0 <= INR (S j) * (- delta - eps)) as Hprod
        by (apply Rmult_le_pos; [apply pos_INR | lra]).
      pose proof (accurate_distance (p - target) ltac:(lra)) as Hacc.
      assert (0 <= rnd (p - target)) as Hpos.
      { rewrite <- rnd_zero. apply rnd_monotone. lra. }
      rewrite (Rabs_pos_eq (rnd (p - target))) in Hnear by exact Hpos.
      unfold Rabs in Hacc. destruct (Rcase_abs _); lra. }
    assert (getGlideFrequency_ (glides (S j) o target) target
            = (target, glide o delta target target)) as Hlast.
    { rewrite Hstate. apply glide_snap; assumption. }
    assert (glides (S (S j)) o target = glide o delta target target) as Hend
      by (rewrite glides_next, Hlast; reflexivity).
    exists (S (S j)). split; [lia|]. split.
    { replace (S (S j) - 1)%nat with (S j) by lia.
      rewrite (S_INR (S j)). lra. }
    split; [|split].
    + intros k Hk. destruct (Nat.lt_ge_cases k (S (S j))) as [Hlt|Hge].
      * destruct k as [|k]; [lia|].
        destruct (descent k) as (Hst & _).
        { intros i Hi. apply Hmoves. lia. }
        rewrite Hst. reflexivity.
      * replace k with (S (S j) + (k - S (S j)))%nat by lia.
        rewrite glides_plus, Hend.
        destruct (glide_arrived o delta target (k - S (S j)) glideOn
                    positiveDuration) as [-> _].
        reflexivity.
    + intros k Hk. destruct k as [|k]; [lia|].
      destruct (descent k) as (_ & _ & [Hlo _] & Hmo & Hst & _).
      { intros i Hi. apply Hmoves. lia. }
      replace (S k - 1)%nat with k by lia. repeat split; assumption.
    + intros k Hk. destruct (Nat.eq_dec k (S (S j))) as [->|Hne].
      * cbn [pitch]. rewrite Hlast. reflexivity.
      * replace k with (S (S j) + S (k - S (S (S j))))%nat by lia.
        rewrite pitch_plus, Hend.
        apply (glide_arrived o delta target _ glideOn positiveDuration).
Qed.
End Descending.

End RoundedGlideFacts.

(** * A rounding to eighths *)

(** [nearestEighth] has the properties that the theorems on rounded
    arithmetic ask of a rounding, with an error of 1/16 at most. *)
Lemma nearestEighth_at (x : R) (k : Z) :
  0 <= x -> IZR k <= 8 * x + 1 / 2 < IZR k + 1 ->
  nearestEighth x = IZR k / 8.
Proof.
  intros Hx Hk. unfold nearestEighth.
  destruct (Rle_dec 0 x); [|contradiction].
  rewrite (Zfloor_eq k) by exact Hk. reflexivity.
Qed.

Lemma nearestEighth_below (x : R) (k : Z) :
  x < 0 -> IZR k <= 8 * - x + 1 / 2 < IZR k + 1 ->
  nearestEighth x = - (IZR k / 8).
Proof.
  intros Hx Hk. unfold nearestEighth.
  destruct (Rle_dec 0 x); [lra|].
  rewrite (Zfloor_eq k) by exact Hk. reflexivity.
Qed.

Lemma nearestEighth_accurate (x : R) :
  Rabs (nearestEighth x - x) <= 1 / 16.
Proof.
  unfold nearestEighth. destruct (Rle_dec 0 x).
  - pose proof (Zfloor_bound (8 * x + 1 / 2)) as H.
    unfold Rabs. destruct (Rcase_abs _); lra.
  - pose proof (Zfloor_bound (8 * - x + 1 / 2)) as H.
    unfold Rabs. destruct (Rcase_abs _); lra.
Qed.

Lemma nearestEighth_sign (x : R) :
  (0 <= x -> 0 <= nearestEighth x) /\ (x <= 0 -> nearestEighth x <= 0).
Proof.
  unfold nearestEighth. destruct (Rle_dec 0 x) as [Hx|Hx].
  - assert (0 <= Zfloor (8 * x + 1 / 2))%Z as H
      by (apply Zfloor_lub; lra).
    apply IZR_le in H. split; intros Hs; [lra|].
    assert (x = 0) as -> by lra.
    rewrite (Zfloor_eq 0) by lra. lra.
  - assert (0 <= Zfloor (8 * - x + 1 / 2))%Z as H
      by (apply Zfloor_lub; lra).
    apply IZR_le in H. split; intros Hs; lra.
Qed.

Lemma nearestEighth_monotone (x y : R) :
  x <= y -> nearestEighth x <= nearestEighth y.
Proof.
  intros Hxy. destruct (Rle_dec 0 x) as [Hx|Hx].
  - unfold nearestEighth. destruct (Rle_dec 0 x); [|contradiction].
    destruct (Rle_dec 0 y); [|lra].
    assert (Zfloor (8 * x + 1 / 2) <= Zfloor (8 * y + 1 / 2))%Z as H
      by (apply Zfloor_le; lra).
    apply IZR_le in H. lra.
  - destruct (Rle_dec 0 y) as [Hy|Hy].
    + destruct (nearestEighth_sign x) as [_ Hlow].
      destruct (nearestEighth_sign y) as [Hhigh _].
      specialize (Hlow ltac:(lra)). specialize (Hhigh Hy). lra.
    + unfold nearestEighth. destruct (Rle_dec 0 x); [contradiction|].
      destruct (Rle_dec 0 y); [contradiction|].
      assert (Zfloor (8 * - y + 1 / 2) <= Zfloor (8 * - x + 1 / 2))%Z as H
        by (apply Zfloor_le; lra).
      apply IZR_le in H. lra.
Qed.

Lemma nearestEighth_grid (k : Z) : nearestEighth (IZR k / 8) = IZR k / 8.
Proof.
  destruct (Z_lt_le_dec k 0) as [Hneg|Hpos].
  - apply IZR_lt in Hneg.
    rewrite (nearestEighth_below _ (- k)); rewrite ?opp_IZR; lra.
  - apply IZR_le in Hpos. apply nearestEighth_at; lra.
Qed.

Lemma nearestEighth_idempotent (x : R) :
  nearestEighth (nearestEighth x) = nearestEighth x.
Proof.
  unfold nearestEighth at 2 3. destruct (Rle_dec 0 x).
  - apply nearestEighth_grid.
  - replace (- (IZR (Zfloor (8 * - x + 1 / 2)) / 8))
      with (IZR (- Zfloor (8 * - x + 1 / 2)) / 8)
      by (rewrite opp_IZR; lra).
    apply nearestEighth_grid.
Qed.

Lemma nearestEighth_odd (x : R) : nearestEighth (- x) = - nearestEighth x.
Proof.
  unfold nearestEighth.
  destruct (Rle_dec 0 x) as [Hx|Hx], (Rle_dec 0 (- x)) as [Hn|Hn];
    try lra.
  - assert (x = 0) as -> by lra.
    rewrite Ropp_0, Rmult_0_r, (Zfloor_eq 0) by lra. lra.
  - rewrite Ropp_involutive. reflexivity.
Qed.

(** ** The theorems in eighths *)

Lemma nearestEighth_0 : nearestEighth 0 = 0.
Proof. rewrite (nearestEighth_at 0 0); lra. Qed.

Lemma nearestEighth_1 : nearestEighth 1 = 1.
Proof. rewrite (nearestEighth_at 1 8); lra. Qed.

(** The steps of an envelope of one sample per second, three seconds of
    attack, three of decay and a sustain level of one half, in eighths: a
    third is rounded to 3/8 and a sixth to 1/8. *)
Lemma steps_in_eighths :
  nearestEighth (1 / 2) = 1 / 2 /\
  nearestEighth (1 / 3) = 3 / 8 /\
  nearestEighth (nearestEighth (nearestEighth (1 - 1 / 2) * 1) / 3) = 1 / 8 /\
  nearestEighth (nearestEighth (1 / 2 * 1) / 3) = 1 / 8.
Proof.
  assert (nearestEighth (1 / 2) = 1 / 2) as Hhalf
    by (rewrite (nearestEighth_at (1 / 2) 4); lra).
  assert (nearestEighth (1 / 2 / 3) = 1 / 8) as Hsixth
    by (rewrite (nearestEighth_at (1 / 2 / 3) 1); lra).
  split; [exact Hhalf|]. split.
  { rewrite (nearestEighth_at (1 / 3) 3); lra. }
  replace (1 - 1 / 2) with (1 / 2) by lra. rewrite Hhalf.
  replace (1 / 2 * 1) with (1 / 2) by lra. rewrite Hhalf.
  split; exact Hsixth.
Qed.

(** The theorem in eighths, at that envelope. *)
Lemma attack_decay_sustain_rounded_witness :
  let e :=
    Numeric.EnvelopeGenerator.Build (Arithmetic.rounded nearestEighth) 1 0
      EnvelopeGenerator.INACTIVE 3 (3 / 8) 3 (1 / 8) (1 / 2) (1 / 8) in
  exists nA nD : nat,
    (1 <= nA)%nat /\ (1 <= nD)%nat /\
    Numeric.EnvelopeGenerator.sustainLevel_
      (Numeric.EnvelopeGenerator.startAttack e)
    = Numeric.EnvelopeGenerator.sustainLevel_ e /\
    Numeric.EnvelopeGenerator.attackDecaySustain nearestEighth
      (Numeric.EnvelopeGenerator.startAttack e) nA nD.
Proof.
  intros e.
  destruct steps_in_eighths as (Hhalf & Hthird & Hsixth & _).
  destruct (startAttack_steps nearestEighth e) as [HA HD];
    [cbn; lra | cbn; lra |].
  apply (attack_decay_sustain_rounded nearestEighth nearestEighth_monotone
           nearestEighth_idempotent nearestEighth_0 nearestEighth_1 (1 / 16)
           (fun x _ => nearestEighth_accurate x) e).
  - cbn. lra.
  - exact Hhalf.
  - rewrite HA. cbn. rewrite Hthird. lra.
  - intros _. rewrite HD. cbn. rewrite Hsixth. lra.
Defined.

(** The theorem in eighths, at the same envelope: with steps of 3/8 and 1/8
    and an error of 1/16 the bounds leave 3 or 4 calls to the attack and 3
    to 8 to the decay. *)
Lemma attack_and_decay_lengths_rounded_witness :
  let e :=
    Numeric.EnvelopeGenerator.Build (Arithmetic.rounded nearestEighth) 1 0
      EnvelopeGenerator.INACTIVE 3 (3 / 8) 3 (1 / 8) (1 / 2) (1 / 8) in
  let e0 := Numeric.EnvelopeGenerator.startAttack e in
  exists nA nD : nat,
    Numeric.EnvelopeGenerator.attackDecaySustain nearestEighth e0 nA nD /\
    (INR nA - 1) * (Numeric.EnvelopeGenerator.attackStep_ e0 - 1 / 16) < 1
    <= INR nA * (Numeric.EnvelopeGenerator.attackStep_ e0 + 1 / 16) /\
    (INR nD - 1) * (Numeric.EnvelopeGenerator.decayStep_ e0 - 1 / 16)
    < 1 - Numeric.EnvelopeGenerator.sustainLevel_ e
    <= INR nD * (Numeric.EnvelopeGenerator.decayStep_ e0 + 1 / 16).
Proof.
  intros e e0.
  destruct steps_in_eighths as (Hhalf & Hthird & Hsixth & _).
  destruct (startAttack_steps nearestEighth e) as [HA HD];
    [cbn; lra | cbn; lra |].
  apply (attack_and_decay_lengths_rounded nearestEighth
           nearestEighth_monotone nearestEighth_idempotent nearestEighth_0
           nearestEighth_1 (1 / 16) (fun x _ => nearestEighth_accurate x) e).
  - cbn. lra.
  - exact Hhalf.
  - rewrite HA. cbn. rewrite Hthird. lra.
  - rewrite HD. cbn. rewrite Hsixth. lra.
Defined.

(** The theorem in eighths, at that envelope released from its sustain
    level: the release step is 1/8. *)
Lemma release_length_rounded_witness :
  let e :=
    Numeric.EnvelopeGenerator.Build (Arithmetic.rounded nearestEighth) 1
      (1 / 2) EnvelopeGenerator.SUSTAIN 3 (3 / 8) 3 (1 / 8) (1 / 2) (1 / 8) in
  let r := Numeric.EnvelopeGenerator.startRelease e in
  exists n : nat,
    (1 <= n)%nat /\
    (forall k, (k < n)%nat ->
       Numeric.EnvelopeGenerator.phase_
         (Numeric.EnvelopeGenerator.after k r) = EnvelopeGenerator.RELEASE /\
       Numeric.EnvelopeGenerator.coefficient (S k) r
       <= Numeric.EnvelopeGenerator.coefficient k r) /\
    (forall k, (n <= k)%nat ->
       Numeric.EnvelopeGenerator.phase_
         (Numeric.EnvelopeGenerator.after k r) = EnvelopeGenerator.INACTIVE /\
       Numeric.EnvelopeGenerator.coefficient k r = 0) /\
    (INR n - 1) * (Numeric.EnvelopeGenerator.releaseStep_ r - 1 / 16)
    < Numeric.EnvelopeGenerator.amplitudeCoefficient_ e
    <= INR n * (Numeric.EnvelopeGenerator.releaseStep_ r + 1 / 16).
Proof.
  intros e r.
  destruct steps_in_eighths as (Hhalf & _ & _ & Hsixth).
  assert (Numeric.EnvelopeGenerator.phase_ e <> EnvelopeGenerator.RELEASE)
    as Hphase by discriminate.
  destruct (startRelease_fields nearestEighth e Hphase) as (_ & _ & Hstep).
  apply (release_length_rounded nearestEighth nearestEighth_monotone
           nearestEighth_idempotent nearestEighth_0 (1 / 16)
           (fun x _ => nearestEighth_accurate x) e Hphase).
  - cbn. lra.
  - exact Hhalf.
  - rewrite Hstep. cbn. destruct (Rle_dec 3 0); [lra|].
    rewrite Hsixth. lra.
Defined.

(** The step of a glide of 3 s from 1 Hz to 2 Hz at one sample per second,
    in eighths: a third is rounded to 3/8. *)
Lemma glide_in_eighths :
  nearestEighth 1 = 1 /\ nearestEighth 2 = 2 /\
  nearestEighth (1 - 2) = - 1 /\
  nearestEighth (nearestEighth (2 - 1) / nearestEighth (3 / 1)) = 3 / 8.
Proof.
  split; [exact nearestEighth_1|]. split.
  { rewrite (nearestEighth_at 2 16); lra. }
  split.
  { rewrite (nearestEighth_below (1 - 2) 8); lra. }
  replace (2 - 1) with 1 by lra. rewrite nearestEighth_1.
  rewrite (nearestEighth_at (3 / 1) 24) by lra.
  rewrite (nearestEighth_at (1 / (24 / 8)) 3); lra.
Qed.


(** * Runs in binary64 *)

Section Binary64Runs.
#[local] Open Scope float_scope.

(** C1, as the claim has it, fails in the arithmetic of the code.  With one
    sample per second, an attack time of 1 s, a decay time of 4 s and a
    sustain level of [1 - 2^-53] (the number next below 1), the first call
    after [startAttack] returns 1 and enters [DECAY]; the decay step is
    [2^-55], the difference [1 - 2^-55] rounds to 1, which is above the
    sustain level, so every further call leaves the state as it is: the
    phase stays [DECAY] and the coefficient never equals the sustain
    level. *)
Lemma decay_never_ends_in_binary64 :
  let e :=
    Numeric.EnvelopeGenerator.after 1
      (Numeric.EnvelopeGenerator.startAttack
         (Numeric.EnvelopeGenerator.new Arithmetic.binary64 1 1 4
            (1 - 0x1p-53))) in
  Numeric.EnvelopeGenerator.phase_ e = EnvelopeGenerator.DECAY /\
  Numeric.EnvelopeGenerator.amplitudeCoefficient_ e = 1 /\
  Numeric.EnvelopeGenerator.decayStep_ e = 0x1p-55 /\
  (Numeric.EnvelopeGenerator.sustainLevel_ e <? 1) = true /\
  forall n, Numeric.EnvelopeGenerator.after n e = e.
Proof.
  intros e.
  assert (Numeric.EnvelopeGenerator.advance e = e) as Hfix
    by (vm_compute; reflexivity).
  repeat split; try (vm_compute; reflexivity).
  induction n as [|n IH]; [reflexivity|].
  cbn [Numeric.EnvelopeGenerator.after
       Numeric.EnvelopeGenerator.getNextAmplitudeCoefficient snd].
  rewrite IH. exact Hfix.
Qed.

(** An attack stalls in the same way once its step is no more than the
    rounding error.  With one sample per second and an attack time of
    [2^60] s the attack step is [2^-60]; at an amplitude of [2^-7], which is
    what [2^53] such steps add up to, the sum rounds to the amplitude, and
    a call leaves the state in [ATTACK] as it is. *)
Lemma attack_stalls_in_binary64 :
  let e :=
    @Numeric.EnvelopeGenerator.set_amplitudeCoefficient_
      Arithmetic.binary64 0x1p-7
      (Numeric.EnvelopeGenerator.startAttack
         (Numeric.EnvelopeGenerator.new Arithmetic.binary64 1 0x1p60 4
            (1 / 2))) in
  Numeric.EnvelopeGenerator.phase_ e = EnvelopeGenerator.ATTACK /\
  Numeric.EnvelopeGenerator.attackStep_ e = 0x1p-60 /\
  forall n, Numeric.EnvelopeGenerator.after n e = e.
Proof.
  intros e.
  assert (Numeric.EnvelopeGenerator.advance e = e) as Hfix
    by (vm_compute; reflexivity).
  repeat split; try (vm_compute; reflexivity).
  induction n as [|n IH]; [reflexivity|].
  cbn [Numeric.EnvelopeGenerator.after
       Numeric.EnvelopeGenerator.getNextAmplitudeCoefficient snd].
  rewrite IH. exact Hfix.
Qed.

(** In binary64 ten steps of a tenth fall short of 1: with a sample interval
    of 0.1 s and an attack time of 1 s the attack ends on call 11, not on
    call 10. *)
Lemma attack_of_a_second_in_tenths :
  let e :=
    Numeric.EnvelopeGenerator.startAttack
      (Numeric.EnvelopeGenerator.new Arithmetic.binary64 (1 / 10) 1 2
         (1 / 2)) in
  Numeric.EnvelopeGenerator.phase_ (Numeric.EnvelopeGenerator.after 10 e)
  = EnvelopeGenerator.ATTACK /\
  Numeric.EnvelopeGenerator.coefficient 10 e = 1 - 0x1p-53 /\
  Numeric.EnvelopeGenerator.phase_ (Numeric.EnvelopeGenerator.after 11 e)
  = EnvelopeGenerator.DECAY /\
  Numeric.EnvelopeGenerator.coefficient 11 e = 1.
Proof. repeat split; vm_compute; reflexivity. Qed.


End Binary64Runs.
